(** * TetraBalance: the geometry synthesis of [app.js]

    A shallow embedding of the piece generator of [src/app.js] and the
    properties its specification states about it.

    Conventions of the embedding.
    - Cube coordinates are JavaScript numbers that hold integers; they are
      kept as the [Z] of their value, and the sums [x + 1], [x - 1] and
      [x + 0.5] of the source are the exact sums rounded to a double (53
      significant bits, ties to even).  A cube is the array [[x, z, h]]
      whose third slot may be missing ([undefined]): [option Z].
    - Occupancy keys are the strings built by the template literal
      [`${x},${z},${h}`]; the index is a JavaScript [Set] of strings, here a
      [gset string].  Integers are rendered in decimal by stdpp's [pretty].
    - The other lengths and positions are doubles in the source; here they
      are exact rationals [Q] written with the decimal literals of the
      source, and the vertices of a geometry, which three.js keeps in a
      Float32 buffer, are rounded to 24 significant bits.  The mesh
      rotations of the source are the literals [0], [Math.PI / 2],
      [-Math.PI / 2] and [Math.PI]: they are counted in quarter turns.
    - The three.js objects that the source creates are records and a small
      tree type; the objects that are attached to and removed from the scene
      by reference live in a store indexed by object identity.  The pivot
      turns by amounts in radians, kept as rationals.
    - [Object3D.add], [Object3D.remove] and [Box3] belong to three.js; they
      are written here as the library defines them. *)

From Stdlib Require Import ZArith QArith Qminmax Qabs Qround Ascii Lia Lqa.
From stdpp Require Import base decidable list strings pretty gmap.

Close Scope Q_scope.
Open Scope Z_scope.

Set Warnings "-clear-no-such-hyp".

(** ** Part I: the embedding *)

(** *** Numbers that hold integers

    The sum of two doubles is their exact sum rounded to 53 significant
    bits, ties to even.  For doubles with an integer value the rounding is
    [round53].  The sums of this program add 1, -1 or 0.5 to a coordinate,
    which cannot overflow. *)

Definition round53 (n : Z) : Z :=
  let a := Z.abs n in
  let e := Z.log2 a - 52 in
  if e <=? 0 then n
  else
    let q := a / 2 ^ e in
    let r := a mod 2 ^ e in
    let half := 2 ^ (e - 1) in
    let q' := if (half <? r) || ((r =? half) && Z.odd q) then q + 1 else q in
    Z.sgn n * (q' * 2 ^ e).

(** [a + b] and [a - b] on numbers that hold integers. *)
Definition jsAdd (a b : Z) : Z := round53 (a + b).
Definition jsSub (a b : Z) : Z := round53 (a - b).

(** *** Cubes, keys and the occupancy index *)

(** A cube [[x, z, h]]; [ch = None] is an array with two elements. *)
Record Cube := mkCube { cx : Z; cz : Z; ch : option Z }.

(** The destructuring pattern [[x, z, h = 0]]. *)
Definition hdef (c : Cube) : Z := default 0 (ch c).

(** A template-literal slot [${v}] for a value that is a number or
    [undefined]. *)
Definition tpl (v : option Z) : string :=
  match v with
  | Some n => pretty n
  | None => "undefined"
  end.

(** [`${x},${z},${h}`] *)
Definition key (x z : Z) (h : option Z) : string :=
  pretty x +:+ "," +:+ pretty z +:+ "," +:+ tpl h.

(** [new Set(data.map(([x, z, h = 0]) => `${x},${z},${h}`))] *)
Definition occupancy (data : list Cube) : gset string :=
  list_to_set (map (λ c, key (cx c) (cz c) (Some (hdef c))) data).

(** [occ3D.has(`${a},${b},${c}`)] *)
Definition has (occ3D : gset string) (a b : Z) (c : option Z) : bool :=
  bool_decide (key a b c ∈ occ3D).

(** [faces.push(f)] *)
Definition push {A} (l : list A) (a : A) : list A := l ++ [a].

(** [exposedFacesFor([x, z, h], occ3D)] *)
Definition exposedFacesFor (c : Cube) (occ3D : gset string) : list string :=
  let x := cx c in
  let z := cz c in
  let h := ch c in
  let faces := [] in
  let faces := if negb (has occ3D x (jsAdd z 1) h) then push faces "front" else faces in
  let faces := if negb (has occ3D x (jsSub z 1) h) then push faces "back" else faces in
  let faces := if negb (has occ3D (jsSub x 1) z h) then push faces "left" else faces in
  let faces := if negb (has occ3D (jsAdd x 1) z h) then push faces "right" else faces in
  faces.

(** The cube as the loops of [generateNewPiece] and [addInternalWalls] see
    it, with the height defaulted. *)
Definition norm (c : Cube) : Z * Z * Z := (cx c, cz c, hdef c).

(** *** The piece catalog *)

Definition cube3 (x z h : Z) : Cube := mkCube x z (Some h).

Definition pieces : list (list Cube) :=
  [ [cube3 0 0 0; cube3 1 0 0; cube3 2 0 0; cube3 3 0 0];  (* I *)
    [cube3 0 0 0; cube3 1 0 0; cube3 2 0 0; cube3 2 1 0];  (* L *)
    [cube3 0 0 0; cube3 1 0 0; cube3 2 0 0; cube3 1 1 0];  (* T *)
    [cube3 0 0 0; cube3 1 0 0; cube3 1 1 0; cube3 2 1 0];  (* Z *)
    [cube3 0 0 0; cube3 1 0 0; cube3 0 1 0; cube3 1 1 0];  (* O *)
    [cube3 0 0 0; cube3 1 0 0; cube3 1 1 0; cube3 1 0 1];
    [cube3 0 0 0; cube3 1 0 0; cube3 1 1 0; cube3 0 0 1] ].

(** *** three.js values *)

Open Scope Q_scope.

Record Vector3 := mkVec { vx : Q; vy : Q; vz : Q }.

(** Euler angles of a mesh, in quarter turns. *)
Record Euler := mkEuler { ex : Z; ey : Z; ez : Z }.

(** [Math.PI] in quarter turns, so that [PI / 2] is one quarter turn. *)
Definition PI : Z := 2.

Inductive Geometry :=
| BoxGeometry (width height depth : Q)
| PlaneGeometry (width height : Q).

Inductive Side := FrontSide | DoubleSide.

Record MeshLambertMaterial := mkMaterial { color : Z; side : Side }.

Record Mesh := mkMesh {
  geometry : Geometry;
  material : MeshLambertMaterial;
  position : Vector3;
  rotation : Euler;
  castShadow : bool;
  receiveShadow : bool }.

(** The objects the generator builds: groups with children, and meshes. *)
#[warnings="-register-all"]
Inductive Object3D :=
| Group (gposition : Vector3) (grotation : Euler) (gchildren : list Object3D)
| MeshObj (m : Mesh).

Definition vec0 : Vector3 := mkVec 0 0 0.
Definition euler0 : Euler := mkEuler 0 0 0.

(** [new THREE.Mesh(geom, mat)] *)
Definition newMesh (geom : Geometry) (mat : MeshLambertMaterial) : Mesh :=
  mkMesh geom mat vec0 euler0 false false.

Definition set_position (m : Mesh) (p : Vector3) : Mesh :=
  mkMesh (geometry m) (material m) p (rotation m) (castShadow m) (receiveShadow m).
Definition set_position_x (m : Mesh) (x : Q) : Mesh :=
  set_position m (mkVec x (vy (position m)) (vz (position m))).
Definition set_position_z (m : Mesh) (z : Q) : Mesh :=
  set_position m (mkVec (vx (position m)) (vy (position m)) z).
Definition set_rotation_y (m : Mesh) (a : Z) : Mesh :=
  mkMesh (geometry m) (material m) (position m)
         (mkEuler (ex (rotation m)) a (ez (rotation m)))
         (castShadow m) (receiveShadow m).
(** [m.castShadow = m.receiveShadow = true] *)
Definition set_shadows (m : Mesh) (b : bool) : Mesh :=
  mkMesh (geometry m) (material m) (position m) (rotation m) b b.

(** [block.position.set(x, y, z)] on a group. *)
Definition set_gposition (o : Object3D) (p : Vector3) : Object3D :=
  match o with
  | Group _ r ch => Group p r ch
  | MeshObj m => MeshObj (set_position m p)
  end.

Definition children (o : Object3D) : list Object3D :=
  match o with
  | Group _ _ ch => ch
  | MeshObj _ => []
  end.

(** *** [createBlock] *)

Definition size : Q := 1.0.
Definition t : Q := 0.05.
Definition EPS : Q := 0.0015.

(** The closure [addBar] of [createBlock]; the group it adds to is threaded. *)
Definition addBar (barMat : MeshLambertMaterial) (geom : Geometry) (x y z : Q)
    (blockGroup : list Object3D) : list Object3D :=
  let m := newMesh geom barMat in
  let m := set_position m (mkVec x y z) in
  let m := set_shadows m true in
  push blockGroup (MeshObj m).

(** The closure [addFace] of [createBlock]. *)
Definition addFace (faceGeom : Geometry) (faceMat : MeshLambertMaterial)
    (where_ : string) (blockGroup : list Object3D) : list Object3D :=
  let p := newMesh faceGeom faceMat in
  let p := if bool_decide (where_ = "front")
           then set_position_z p (size / 2 + EPS) else p in
  let p := if bool_decide (where_ = "back")
           then set_rotation_y (set_position_z p (- size / 2 - EPS)) PI else p in
  let p := if bool_decide (where_ = "left")
           then set_rotation_y (set_position_x p (- size / 2 - EPS)) (PI / 2) else p in
  let p := if bool_decide (where_ = "right")
           then set_rotation_y (set_position_x p (size / 2 + EPS)) (- PI / 2) else p in
  let p := set_shadows p true in
  push blockGroup (MeshObj p).

(** The test of the [forEach] callback of [createBlock]. *)
Definition is_side_name (f : string) : bool :=
  bool_decide (f = "front") || bool_decide (f = "back")
  || bool_decide (f = "left") || bool_decide (f = "right").

(** The twelve [addBar] calls of [createBlock], in source order. *)
Definition addEdgeBars (barMat : MeshLambertMaterial) (blockGroup : list Object3D)
    : list Object3D :=
  let horiz := BoxGeometry size t t in
  let depth := BoxGeometry t t size in
  let vert := BoxGeometry t size t in
  (* bottom edges *)
  let blockGroup := addBar barMat horiz 0 (- size / 2) (size / 2) blockGroup in
  let blockGroup := addBar barMat horiz 0 (- size / 2) (- size / 2) blockGroup in
  let blockGroup := addBar barMat depth (size / 2) (- size / 2) 0 blockGroup in
  let blockGroup := addBar barMat depth (- size / 2) (- size / 2) 0 blockGroup in
  (* top edges *)
  let blockGroup := addBar barMat horiz 0 (size / 2) (size / 2) blockGroup in
  let blockGroup := addBar barMat horiz 0 (size / 2) (- size / 2) blockGroup in
  let blockGroup := addBar barMat depth (size / 2) (size / 2) 0 blockGroup in
  let blockGroup := addBar barMat depth (- size / 2) (size / 2) 0 blockGroup in
  (* verticals *)
  let blockGroup := addBar barMat vert (size / 2) 0 (size / 2) blockGroup in
  let blockGroup := addBar barMat vert (- size / 2) 0 (size / 2) blockGroup in
  let blockGroup := addBar barMat vert (size / 2) 0 (- size / 2) blockGroup in
  let blockGroup := addBar barMat vert (- size / 2) 0 (- size / 2) blockGroup in
  blockGroup.

(** [createBlock(exposedFaces, material)].  The face list is a list of
    strings; an entry that is none of the four side names fails the test of
    the callback, as any other JavaScript value would. *)
Definition createBlock (exposedFaces : list string) (material : MeshLambertMaterial)
    : Object3D :=
  let blockGroup := [] in
  let barMat := material in
  let faceMat := mkMaterial (color material) DoubleSide in
  let blockGroup := addEdgeBars barMat blockGroup in
  let faceGeom := PlaneGeometry size size in
  let blockGroup :=
    fold_left (λ g f, if is_side_name f then addFace faceGeom faceMat f g else g)
              exposedFaces blockGroup in
  Group vec0 euler0 blockGroup.

(** *** [addInternalWalls] *)

(** [x + 0.5] for a number that holds an integer: the odd integer [2x + 1]
    rounded to 53 bits, halved. *)
Definition jsAddHalf (x : Z) : Q := inject_Z (round53 (2 * x + 1)) / 2.

(** One turn of the loop of [addInternalWalls] for the cube [c]. *)
Definition wallsStep (occ3D : gset string) (innerGeom : Geometry)
    (faceMat : MeshLambertMaterial) (group : list Object3D) (c : Cube)
    : list Object3D :=
  let x := cx c in
  let z := cz c in
  let h := hdef c in
  let group :=
    if has occ3D (jsAdd x 1) z (Some h) then
      let p := newMesh innerGeom faceMat in
      let p := set_rotation_y p (PI / 2) in
      let p := set_position p (mkVec (jsAddHalf x) (inject_Z h) (inject_Z z)) in
      let p := set_shadows p true in
      push group (MeshObj p)
    else group in
  let group :=
    if has occ3D x (jsAdd z 1) (Some h) then
      let p := newMesh innerGeom faceMat in
      let p := set_position p (mkVec (inject_Z x) (inject_Z h) (jsAddHalf z)) in
      let p := set_shadows p true in
      push group (MeshObj p)
    else group in
  group.

(** [addInternalWalls(pieceCoords, group, colorMat)]; the children of
    [group] are threaded and returned. *)
Definition addInternalWalls (pieceCoords : list Cube) (group : list Object3D)
    (colorMat : MeshLambertMaterial) : list Object3D :=
  let occ3D := occupancy pieceCoords in
  let innerGeom := PlaneGeometry 1.0 1.0 in
  let faceMat := mkMaterial (color colorMat) DoubleSide in
  fold_left (wallsStep occ3D innerGeom faceMat) pieceCoords group.

(** *** Bounding boxes: [THREE.Box3]

    [Box3.setFromObject] walks an object and its descendants, transforms the
    bounding box of every geometry by the world matrix of its mesh (the eight
    corners are transformed and enclosed), and takes the union.  The objects
    of this program carry no scale; a world matrix is the composition of the
    local rotations and translations from the root down, kept here as a
    function on points. *)

Definition vadd (a b : Vector3) : Vector3 :=
  mkVec (vx a + vx b) (vy a + vy b) (vz a + vz b).
Definition vsub (a b : Vector3) : Vector3 :=
  mkVec (vx a - vx b) (vy a - vy b) (vz a - vz b).
Definition vscale (a : Vector3) (k : Q) : Vector3 :=
  mkVec (vx a * k) (vy a * k) (vz a * k).
Definition vmin (a b : Vector3) : Vector3 :=
  mkVec (Qmin (vx a) (vx b)) (Qmin (vy a) (vy b)) (Qmin (vz a) (vz b)).
Definition vmax (a b : Vector3) : Vector3 :=
  mkVec (Qmax (vx a) (vx b)) (Qmax (vy a) (vy b)) (Qmax (vz a) (vz b)).

(** Componentwise equality of rationals as numbers. *)
Definition veq (a b : Vector3) : Prop :=
  vx a == vx b ∧ vy a == vy b ∧ vz a == vz b.

(** One quarter turn about each axis (right-handed, as three.js). *)
Definition quarterX (p : Vector3) : Vector3 := mkVec (vx p) (- vz p) (vy p).
Definition quarterY (p : Vector3) : Vector3 := mkVec (vz p) (vy p) (- vx p).
Definition quarterZ (p : Vector3) : Vector3 := mkVec (- vy p) (vx p) (vz p).

Definition turns (q : Vector3 → Vector3) (k : Z) (p : Vector3) : Vector3 :=
  Nat.iter (Z.to_nat (k mod 4)) q p.

(** Euler order XYZ: the matrix is [Rx * Ry * Rz]. *)
Definition applyEuler (r : Euler) (p : Vector3) : Vector3 :=
  turns quarterX (ex r) (turns quarterY (ey r) (turns quarterZ (ez r) p)).

(** The local matrix of an object applied to a point. *)
Definition localMatrix (pos : Vector3) (rot : Euler) (p : Vector3) : Vector3 :=
  vadd (applyEuler rot p) pos.

(** [Math.fround]: a number rounded to 24 significant bits, ties to even
    (far from the least and the largest float).  The vertices of a geometry
    are kept in a Float32 buffer. *)
Definition roundBits (prec : Z) (q : Q) : Q :=
  if Qeq_bool q 0 then 0 else
  let a := Qabs q in
  let l := (Z.log2 (Qnum a) - Z.log2 (Zpos (Qden a)))%Z in
  let l := if Qle_bool (Qpower 2 l) a then l else (l - 1)%Z in
  let e := (l - (prec - 1))%Z in
  let s := a / Qpower 2 e in
  let f := Qfloor s in
  let m := match (s - inject_Z f) ?= 1 # 2 with
           | Lt => f
           | Gt => (f + 1)%Z
           | Eq => if Z.even f then f else (f + 1)%Z
           end in
  (if Qle_bool 0 q then 1 else - (1)) * inject_Z m * Qpower 2 e.

Definition fround (q : Q) : Q := roundBits 24 q.

(** The operations of [THREE.Box3]. *)
Module Box3.

(** A box is its two corners; [None] is the empty box. *)
Definition box : Type := option (Vector3 * Vector3).

Definition expandByPoint (b : box) (p : Vector3) : box :=
  match b with
  | None => Some (p, p)
  | Some (lo, hi) => Some (vmin lo p, vmax hi p)
  end.

Definition union (a b : box) : box :=
  match a, b with
  | None, _ => b
  | _, None => a
  | Some (lo, hi), Some (lo', hi') => Some (vmin lo lo', vmax hi hi')
  end.

(** [geometry.boundingBox] of the two geometries in use: the least and
    greatest vertex coordinates, read from the Float32 buffer. *)
Definition boundingBox (g : Geometry) : Vector3 * Vector3 :=
  match g with
  | BoxGeometry w h d =>
      (mkVec (fround (- w / 2)) (fround (- h / 2)) (fround (- d / 2)),
       mkVec (fround (w / 2)) (fround (h / 2)) (fround (d / 2)))
  | PlaneGeometry w h =>
      (mkVec (fround (- w / 2)) (fround (- h / 2)) 0,
       mkVec (fround (w / 2)) (fround (h / 2)) 0)
  end.

Definition corners (b : Vector3 * Vector3) : list Vector3 :=
  let lo := b.1 in
  let hi := b.2 in
  [ mkVec (vx lo) (vy lo) (vz lo); mkVec (vx lo) (vy lo) (vz hi);
    mkVec (vx lo) (vy hi) (vz lo); mkVec (vx lo) (vy hi) (vz hi);
    mkVec (vx hi) (vy lo) (vz lo); mkVec (vx hi) (vy lo) (vz hi);
    mkVec (vx hi) (vy hi) (vz lo); mkVec (vx hi) (vy hi) (vz hi) ].

(** [box.applyMatrix4(m)] *)
Definition applyMatrix4 (m : Vector3 → Vector3) (b : Vector3 * Vector3) : box :=
  fold_left expandByPoint (map m (corners b)) None.

(** [box.expandByObject(object)], with the world matrix of the parent. *)
Fixpoint expandByObject (world : Vector3 → Vector3) (o : Object3D) (bx : box) : box :=
  match o with
  | MeshObj m =>
      let w := λ p, world (localMatrix (position m) (rotation m) p) in
      union bx (applyMatrix4 w (boundingBox (geometry m)))
  | Group pos rot ch =>
      let w := λ p, world (localMatrix pos rot p) in
      fold_left (λ b c, expandByObject w c b) ch bx
  end.

(** [new THREE.Box3().setFromObject(object)] for an object without parent. *)
Definition setFromObject (o : Object3D) : box :=
  expandByObject (λ p, p) o None.

(** [box.getCenter(new THREE.Vector3())] *)
Definition getCenter (b : box) : Vector3 :=
  match b with
  | None => vec0
  | Some (lo, hi) => vscale (vadd lo hi) 0.5
  end.

End Box3.

(** *** The geometry built by [generateNewPiece] *)

(** One turn of the loop over the cubes of [generateNewPiece]. *)
Definition blockStep (occ3D : gset string) (material : MeshLambertMaterial)
    (currentPiece : list Object3D) (c : Cube) : list Object3D :=
  let x := cx c in
  let z := cz c in
  let h := hdef c in
  let faces := exposedFacesFor (mkCube x z (Some h)) occ3D in
  let block := createBlock faces material in
  let block := set_gposition block (mkVec (inject_Z x) (inject_Z h) (inject_Z z)) in
  push currentPiece block.

(** The children of [currentPiece] once the blocks and the internal walls
    are added. *)
Definition pieceChildren (data : list Cube) : list Object3D :=
  let occ3D := occupancy data in
  let material := mkMaterial 0xe74c3c FrontSide in
  let currentPiece := fold_left (blockStep occ3D material) data [] in
  addInternalWalls data currentPiece material.

(** The position of [currentPiece] after [currentPiece.position.sub(center)]. *)
Definition centeredPosition (ch : list Object3D) : Vector3 :=
  let box := Box3.setFromObject (Group vec0 euler0 ch) in
  let center := Box3.getCenter box in
  vsub vec0 center.

Close Scope Q_scope.

(** *** The scene graph and the module state

    [scene.add], [scene.remove] and [pivot.add] work on object references:
    the objects they handle live in a store indexed by identity.  A node has
    the [parent] and [children] fields of [THREE.Object3D]; the piece keeps
    the blocks and walls built above as its own geometry. *)

Abbreviation oid := nat.

Inductive Kind := KScene | KLight | KMesh | KGroup.

(** The Euler angles of the pivot, in radians. *)
Record Angles := mkAngles { ax : Q; ay : Q; az : Q }.

Record Node := mkNode {
  nkind : Kind;
  nparent : option oid;
  nchildren : list oid;
  nposition : Vector3;
  nrotation : Angles;
  nmeshes : list Object3D }.

Definition set_nparent (p : option oid) (n : Node) : Node :=
  mkNode (nkind n) p (nchildren n) (nposition n) (nrotation n) (nmeshes n).
Definition set_nchildren (f : list oid → list oid) (n : Node) : Node :=
  mkNode (nkind n) (nparent n) (f (nchildren n)) (nposition n) (nrotation n) (nmeshes n).
Definition set_nposition (p : Vector3) (n : Node) : Node :=
  mkNode (nkind n) (nparent n) (nchildren n) p (nrotation n) (nmeshes n).
Definition set_nrotation (f : Angles → Angles) (n : Node) : Node :=
  mkNode (nkind n) (nparent n) (nchildren n) (nposition n) (f (nrotation n)) (nmeshes n).
Definition set_nmeshes (ms : list Object3D) (n : Node) : Node :=
  mkNode (nkind n) (nparent n) (nchildren n) (nposition n) (nrotation n) ms.

(** The variables of the module: [scene], [currentPiece], [pivot] and the
    flags and numbers of the input handlers, with the store of objects. *)
Record State := mkState {
  store : gmap oid Node;
  next : oid;
  scene : oid;
  currentPiece : option oid;
  pivot : option oid;
  resetVertical : bool;
  rotationPaused : bool;
  isDragging : bool;
  lastX : Q;
  lastY : Q;
  dragDeltaY : Q }.

Definition with_store (f : gmap oid Node → gmap oid Node) (s : State) : State :=
  mkState (f (store s)) (next s) (scene s) (currentPiece s) (pivot s)
          (resetVertical s) (rotationPaused s) (isDragging s)
          (lastX s) (lastY s) (dragDeltaY s).
Definition set_currentPiece (o : option oid) (s : State) : State :=
  mkState (store s) (next s) (scene s) o (pivot s)
          (resetVertical s) (rotationPaused s) (isDragging s)
          (lastX s) (lastY s) (dragDeltaY s).
Definition set_pivot (o : option oid) (s : State) : State :=
  mkState (store s) (next s) (scene s) (currentPiece s) o
          (resetVertical s) (rotationPaused s) (isDragging s)
          (lastX s) (lastY s) (dragDeltaY s).
Definition set_resetVertical (b : bool) (s : State) : State :=
  mkState (store s) (next s) (scene s) (currentPiece s) (pivot s)
          b (rotationPaused s) (isDragging s)
          (lastX s) (lastY s) (dragDeltaY s).
Definition set_rotationPaused (b : bool) (s : State) : State :=
  mkState (store s) (next s) (scene s) (currentPiece s) (pivot s)
          (resetVertical s) b (isDragging s)
          (lastX s) (lastY s) (dragDeltaY s).
Definition set_drag (b : bool) (x y d : Q) (s : State) : State :=
  mkState (store s) (next s) (scene s) (currentPiece s) (pivot s)
          (resetVertical s) (rotationPaused s) b x y d.

(** [new THREE.Group()], [new THREE.Scene()], ...: a fresh object without
    parent or children, at the origin and unrotated. *)
Definition newObject (k : Kind) (s : State) : oid * State :=
  let o := next s in
  (o, mkState (<[o := mkNode k None [] vec0 (mkAngles 0 0 0) []]> (store s))
              (S o) (scene s) (currentPiece s) (pivot s)
              (resetVertical s) (rotationPaused s) (isDragging s)
              (lastX s) (lastY s) (dragDeltaY s)).

(** [children.splice(children.indexOf(o), 1)] *)
Fixpoint spliceOut (o : oid) (l : list oid) : list oid :=
  match l with
  | [] => []
  | a :: l' => if bool_decide (a = o) then l' else a :: spliceOut o l'
  end.

(** [parent.remove(o)]: does nothing unless [o] is a child of [parent]. *)
Definition removeChild (parent o : oid) (st : gmap oid Node) : gmap oid Node :=
  match st !! parent with
  | Some pn =>
      if bool_decide (o ∈ nchildren pn) then
        alter (set_nchildren (spliceOut o)) parent (alter (set_nparent None) o st)
      else st
  | None => st
  end.

(** [parent.add(o)]: detaches [o] from its former parent first. *)
Definition addChild (parent o : oid) (st : gmap oid Node) : gmap oid Node :=
  if bool_decide (o = parent) then st else
  let st := match st !! o with
            | Some n => match nparent n with
                        | Some q => removeChild q o st
                        | None => st
                        end
            | None => st
            end in
  alter (set_nchildren (λ l, push l o)) parent (alter (set_nparent (Some parent)) o st).

(** The scene as [init] leaves it just before its call of
    [generateNewPiece]: the scene with the ambient light, the directional
    light and the ground.  The camera, the renderer, the shadow settings and
    the tilt of the ground are not part of the scene graph that
    [generateNewPiece] works on and are left out. *)
Definition initScene : State :=
  let st : gmap oid Node := ∅ in
  let s := mkState st 0%nat 0%nat None None false false false 0%Q 0%Q 0%Q in
  let '(sc, s) := newObject KScene s in
  let s := mkState (store s) (next s) sc (currentPiece s) (pivot s)
                   (resetVertical s) (rotationPaused s) (isDragging s)
                   (lastX s) (lastY s) (dragDeltaY s) in
  let '(amb, s) := newObject KLight s in
  let s := with_store (addChild sc amb) s in
  let '(dir, s) := newObject KLight s in
  let s := with_store (alter (set_nposition (mkVec 10 10 6)) dir) s in
  let s := with_store (addChild sc dir) s in
  let '(ground, s) := newObject KMesh s in
  let s := with_store (alter (set_nposition (mkVec 0 (-2) 0)) ground) s in
  let s := with_store (addChild sc ground) s in
  s.

(** [generateNewPiece()] once [pieces[Math.floor(Math.random() * pieces.length)]]
    has chosen [data]. *)
Definition generateWith (data : list Cube) (s : State) : State :=
  let s := match currentPiece s with
           | Some pc => with_store (removeChild (scene s) pc) s
           | None => s
           end in
  let '(pc, s) := newObject KGroup s in
  let s := set_currentPiece (Some pc) s in
  let ch := pieceChildren data in
  let s := with_store (alter (set_nmeshes ch) pc) s in
  let s := with_store (alter (set_nposition (centeredPosition ch)) pc) s in
  let s := match pivot s with
           | Some pv => with_store (removeChild (scene s) pv) s
           | None => s
           end in
  let '(pv, s) := newObject KGroup s in
  let s := set_pivot (Some pv) s in
  let s := with_store (addChild pv pc) s in
  let s := with_store (addChild (scene s) pv) s in
  s.

(** [generateNewPiece()]; [r] is the value of
    [Math.floor(Math.random() * pieces.length)], an index of the catalog. *)
Definition generateNewPiece (r : nat) (s : State) : option State :=
  match pieces !! r with
  | Some data => Some (generateWith data s)
  | None => None
  end.

(** One frame of [animate], without the rendering. *)
Definition animate (s : State) : State :=
  match pivot s with
  | Some pv =>
      if negb (isDragging s) && negb (rotationPaused s) then
        let x := match store s !! pv with Some n => ax (nrotation n) | None => 0%Q end in
        let s :=
          if resetVertical s then
            let x' := (x + (0 - x) * 0.18)%Q in
            let s := with_store
                       (alter (set_nrotation (λ a, mkAngles x' (ay a) (az a))) pv) s in
            if Qlt_le_dec (Qabs x') 0.001 then
              set_resetVertical false
                (with_store (alter (set_nrotation (λ a, mkAngles 0 (ay a) (az a))) pv) s)
            else s
          else s in
        with_store
          (alter (set_nrotation (λ a, mkAngles (ax a) (ay a + 0.005)%Q (az a))) pv) s
      else s
  | None => s
  end.

(** [onTouchStart(e)] with [e.touches[0]] at [(x, y)]. *)
Definition onTouchStart (x y : Q) (s : State) : State :=
  let d := match pivot s with
           | Some pv => match store s !! pv with
                        | Some n => ax (nrotation n)
                        | None => 0%Q
                        end
           | None => 0%Q
           end in
  set_drag true x y d s.

(** [onTouchMove(e)] with [e.touches[0]] at [(x, y)]. *)
Definition onTouchMove (x y : Q) (s : State) : State :=
  match pivot s with
  | Some pv =>
      if negb (isDragging s) then s else
      let dx := (x - lastX s)%Q in
      let dy := (y - lastY s)%Q in
      let s := with_store
                 (alter (set_nrotation
                           (λ a, mkAngles (ax a) (ay a + dx * 0.01)%Q (az a))) pv) s in
      let s := with_store
                 (alter (set_nrotation
                           (λ a, mkAngles (ax a + dy * 0.01)%Q (ay a) (az a))) pv) s in
      set_drag (isDragging s) x y (dragDeltaY s) s
  | None => s
  end.

(** [onTouchEnd()] *)
Definition onTouchEnd (s : State) : State :=
  set_resetVertical true (set_drag false (lastX s) (lastY s) (dragDeltaY s) s).

(** The click handler of the pause button, without the button's markup. *)
Definition onPauseClick (s : State) : State :=
  set_rotationPaused (negb (rotationPaused s)) s.

(** What can happen after [init] has set the scene up. *)
Inductive Event :=
| EGenerate (r : nat)
| EAnimate
| ETouchStart (x y : Q)
| ETouchMove (x y : Q)
| ETouchEnd
| EPauseClick.

Definition step (e : Event) (s : State) : option State :=
  match e with
  | EGenerate r => generateNewPiece r s
  | EAnimate => Some (animate s)
  | ETouchStart x y => Some (onTouchStart x y s)
  | ETouchMove x y => Some (onTouchMove x y s)
  | ETouchEnd => Some (onTouchEnd s)
  | EPauseClick => Some (onPauseClick s)
  end.

Fixpoint run (es : list Event) (s : State) : option State :=
  match es with
  | [] => Some s
  | e :: es' => match step e s with
                | Some s' => run es' s'
                | None => None
                end
  end.

(** [N] successive calls of [generateNewPiece], with the random draws [rs]. *)
Definition generateMany (rs : list nat) (s : State) : option State :=
  run (map EGenerate rs) s.

(** The children of an object, and what hangs below the scene. *)
Definition childrenOf (s : State) (o : oid) : list oid :=
  match store s !! o with
  | Some n => nchildren n
  | None => []
  end.

Inductive attached (s : State) : oid → Prop :=
| attached_child o : o ∈ childrenOf s (scene s) → attached s o
| attached_below p o : attached s p → o ∈ childrenOf s p → attached s o.

(** The objects below [o], in the order of a traversal, down to depth [fuel]. *)
Fixpoint descendants (fuel : nat) (s : State) (o : oid) : list oid :=
  match fuel with
  | O => []
  | S fuel' =>
      flat_map (λ c, c :: descendants fuel' s c) (childrenOf s o)
  end.

Definition isGroup (s : State) (o : oid) : bool :=
  match store s !! o with
  | Some n => match nkind n with KGroup => true | _ => false end
  | None => false
  end.

(** The current piece as an object: its position and its blocks and walls.
    Nothing in the program rotates the piece itself; it turns with its pivot. *)
Definition pieceObject (s : State) : option Object3D :=
  match currentPiece s with
  | Some pc => match store s !! pc with
               | Some n => Some (Group (nposition n) euler0 (nmeshes n))
               | None => None
               end
  | None => None
  end.

Definition pivotRotation (s : State) : option Angles :=
  match pivot s with
  | Some pv => nrotation <$> store s !! pv
  | None => None
  end.

(** *** Notions of the specification *)

(** The four side names. *)
Definition sideNames : list string := ["front"; "back"; "left"; "right"].

(** Two cubes are same-height and axis-adjacent: they differ by exactly 1 in
    x or in z and are equal in h and in the other axis. *)
Definition adjacent (a b : Z * Z * Z) : bool :=
  let '(x, z, h) := a in
  let '(x', z', h') := b in
  (h =? h') && (((Z.abs (x - x') =? 1) && (z =? z'))
                || ((x =? x') && (Z.abs (z - z') =? 1))).

(** The unordered pairs of entries of a list: each entry with each later one. *)
Fixpoint unorderedPairs {A} (l : list A) : list (A * A) :=
  match l with
  | [] => []
  | a :: l' => map (pair a) l' ++ unorderedPairs l'
  end.

(** The unordered pairs of cubes of a piece that are same-height and
    axis-adjacent. *)
Definition adjacentPairs (cubes : list (Z * Z * Z)) : list ((Z * Z * Z) * (Z * Z * Z)) :=
  List.filter (λ p, adjacent p.1 p.2) (unorderedPairs cubes).

(** The partition panels of a piece: what [addInternalWalls] adds to an
    empty group. *)
Definition walls (data : list Cube) (colorMat : MeshLambertMaterial) : list Object3D :=
  addInternalWalls data [] colorMat.

(** Bars are the meshes with a box geometry, panels those with a plane. *)
Definition isBar (o : Object3D) : bool :=
  match o with
  | MeshObj m => match geometry m with BoxGeometry _ _ _ => true | _ => false end
  | Group _ _ _ => false
  end.

Definition isPanel (o : Object3D) : bool :=
  match o with
  | MeshObj m => match geometry m with PlaneGeometry _ _ => true | _ => false end
  | Group _ _ _ => false
  end.

Definition objPosition (o : Object3D) : Vector3 :=
  match o with
  | MeshObj m => position m
  | Group p _ _ => p
  end.

(** The normal of a plane mesh: the z axis of [PlaneGeometry], rotated. *)
Definition normal (o : Object3D) : Vector3 :=
  match o with
  | MeshObj m => applyEuler (rotation m) (mkVec 0 0 1)
  | Group _ r _ => applyEuler r (mkVec 0 0 1)
  end.

(** A top or bottom panel would be a horizontal plane: its normal has a
    vertical component. *)
Definition isHorizontalPanel (o : Object3D) : bool :=
  isPanel o && negb (Qeq_bool (vy (normal o)) 0).

(** The bars of the bottom and top perimeters sit at height [-size/2] and
    [size/2] of the block; the vertical connectors are as tall as the block. *)
Definition isBottomBar (o : Object3D) : bool :=
  isBar o && Qeq_bool (vy (objPosition o)) (- size / 2).
Definition isTopBar (o : Object3D) : bool :=
  isBar o && Qeq_bool (vy (objPosition o)) (size / 2).
Definition isVerticalBar (o : Object3D) : bool :=
  match o with
  | MeshObj m => match geometry m with
                 | BoxGeometry _ h _ => Qeq_bool h size
                 | _ => false
                 end
  | Group _ _ _ => false
  end.

(** The panel of a side, as the specification places it: at the face of the
    unit cube, pushed outward by [EPS], turned about the vertical axis. *)
Definition sidePanel (material : MeshLambertMaterial) (f : string) : Object3D :=
  let at_ p r :=
    MeshObj (mkMesh (PlaneGeometry size size) (mkMaterial (color material) DoubleSide)
                    p (mkEuler 0 r 0) true true) in
  if bool_decide (f = "front") then at_ (mkVec 0 0 (size / 2 + EPS)%Q) 0
  else if bool_decide (f = "back") then at_ (mkVec 0 0 (- size / 2 - EPS)%Q) 2
  else if bool_decide (f = "left") then at_ (mkVec (- size / 2 - EPS)%Q 0 0) 1
  else at_ (mkVec (size / 2 + EPS)%Q 0 0) (-1).

(** The integers that a double holds together with both their neighbours
    (the safe integers), and those whose sum with 0.5 is a double too. *)
Definition safeInt (x : Z) : Prop := - 2 ^ 53 < x < 2 ^ 53.
Definition halfExact (x : Z) : Prop := - 2 ^ 52 <= x < 2 ^ 52.

(** The integers small enough for every sum on the way to a bounding box to
    be a double: the corners of the boxes are multiples of 2^-29, the grain
    of the half thickness of a bar as a Float32, and stay below 2^24. *)
Definition smallInt (x : Z) : Prop := - 2 ^ 23 < x < 2 ^ 23.

Definition boxExact (c : Cube) : Prop :=
  smallInt (cx c) ∧ smallInt (cz c) ∧ smallInt (default 0 (ch c)).

Definition safeCube (c : Cube) : Prop := safeInt (cx c) ∧ safeInt (cz c).
Definition halfExactCube (c : Cube) : Prop := halfExact (cx c) ∧ halfExact (cz c).

(** The statement of the specification about one cube and one coordinate
    list: each side name is listed exactly when the list lacks the
    neighbour on that side at the same height. *)
Definition exposureAsStated (data : list Cube) (x z h : Z) : Prop :=
  let faces := exposedFacesFor (mkCube x z (Some h)) (occupancy data) in
  ("front" ∈ faces ↔ (x, z + 1, h) ∉ map norm data)
  ∧ ("back" ∈ faces ↔ (x, z - 1, h) ∉ map norm data)
  ∧ ("left" ∈ faces ↔ (x - 1, z, h) ∉ map norm data)
  ∧ ("right" ∈ faces ↔ (x + 1, z, h) ∉ map norm data).

(** The partition that [addInternalWalls] builds between [(x,z,h)] and its
    neighbour in +x, and the one between [(x,z,h)] and its neighbour in
    +z. *)
Definition wallX (colorMat : MeshLambertMaterial) (a : Z * Z * Z) : Object3D :=
  let '(x, z, h) := a in
  MeshObj (mkMesh (PlaneGeometry 1.0 1.0) (mkMaterial (color colorMat) DoubleSide)
                  (mkVec (jsAddHalf x) (inject_Z h) (inject_Z z))
                  (mkEuler 0 1 0) true true).

Definition wallZ (colorMat : MeshLambertMaterial) (a : Z * Z * Z) : Object3D :=
  let '(x, z, h) := a in
  MeshObj (mkMesh (PlaneGeometry 1.0 1.0) (mkMaterial (color colorMat) DoubleSide)
                  (mkVec (inject_Z x) (inject_Z h) (jsAddHalf z))
                  (mkEuler 0 0 0) true true).

(** Where [generateNewPiece] puts the block of a cube. *)
Definition blockPosition (a : Z * Z * Z) : Vector3 :=
  let '(x, z, h) := a in mkVec (inject_Z x) (inject_Z h) (inject_Z z).

Definition midpoint (p q : Vector3) : Vector3 := vscale (vadd p q) 0.5%Q.

(** The characters of a rendered integer. *)
Definition numericChar (c : ascii) : bool :=
  match c with
  | "0" | "1" | "2" | "3" | "4" | "5" | "6" | "7" | "8" | "9" | "-" => true
  | _ => false
  end%char.

Fixpoint numeric (s : string) : bool :=
  match s with
  | EmptyString => true
  | String c s' => numericChar c && numeric s'
  end.

Definition b2n (b : bool) : nat := if b then 1%nat else 0%nat.

(** The states the program reaches after [init] has set the scene up. *)
Definition reachable (s : State) : Prop := ∃ es, run es initScene = Some s.

Definition validDraw (r : nat) : Prop := (r < length pieces)%nat.

(** The neighbours in +x and +z of a cube. *)
Definition stepX (a : Z * Z * Z) : Z * Z * Z := (a.1.1 + 1, a.1.2, a.2).
Definition stepZ (a : Z * Z * Z) : Z * Z * Z := (a.1.1, a.1.2 + 1, a.2).

(** The coordinates that [addInternalWalls] looks up for them. *)
Definition nextX (a : Z * Z * Z) : Z * Z * Z := (jsAdd a.1.1 1, a.1.2, a.2).
Definition nextZ (a : Z * Z * Z) : Z * Z * Z := (a.1.1, jsAdd a.1.2 1, a.2).

Definition safe3 (a : Z * Z * Z) : Prop := safeInt a.1.1 ∧ safeInt a.1.2.
Definition halfExact3 (a : Z * Z * Z) : Prop := halfExact a.1.1 ∧ halfExact a.1.2.

(** The partitions that start at the cube [a] of a piece with cubes [L]. *)
Definition wallsOf (L : list (Z * Z * Z)) (colorMat : MeshLambertMaterial)
    (a : Z * Z * Z) : list Object3D :=
  (if bool_decide (nextX a ∈ L) then [wallX colorMat a] else [])
  ++ (if bool_decide (nextZ a ∈ L) then [wallZ colorMat a] else []).

(** The partition between two same-height axis-adjacent cubes, whichever
    comes first. *)
Definition partition (colorMat : MeshLambertMaterial) (a b : Z * Z * Z) : Object3D :=
  if bool_decide (b = stepX a) then wallX colorMat a
  else if bool_decide (b = stepZ a) then wallZ colorMat a
  else if bool_decide (a = stepX b) then wallX colorMat b
  else wallZ colorMat b.

(** How many of the neighbours in +x and +z of [a] are in [L]. *)
Definition forward (L : list (Z * Z * Z)) (a : Z * Z * Z) : nat :=
  (b2n (bool_decide (stepX a ∈ L)) + b2n (bool_decide (stepZ a ∈ L)))%nat.

(** Whether [a] is the neighbour in +x or +z of [b]. *)
Definition backward (a b : Z * Z * Z) : nat :=
  (b2n (bool_decide (stepX b = a)) + b2n (bool_decide (stepZ b = a)))%nat.

(** What a node is, apart from where it hangs. *)
Definition geo (n : Node) : Kind * Vector3 * Angles * list Object3D :=
  (nkind n, nposition n, nrotation n, nmeshes n).

(** A fresh object. *)
Definition freshNode (k : Kind) : Node :=
  mkNode k None [] vec0 (mkAngles 0 0 0) [].

(** The store that [generateNewPiece] leaves, step by step. *)
Definition storeAfterGenerate (data : list Cube) (s : State) : gmap oid Node :=
  let pc := next s in
  let pv := S pc in
  let ch := pieceChildren data in
  let st := match currentPiece s with
            | Some p => removeChild (scene s) p (store s)
            | None => store s
            end in
  let st := <[pc := freshNode KGroup]> st in
  let st := alter (set_nposition (centeredPosition ch)) pc (alter (set_nmeshes ch) pc st) in
  let st := match pivot s with
            | Some v => removeChild (scene s) v st
            | None => st
            end in
  let st := <[pv := freshNode KGroup]> st in
  addChild (scene s) pv (addChild pv pc st).

(** The shape of the scene graph in every state the program reaches: the
    scene is object 0 with the two lights and the ground, objects 1 to 3,
    which have no children; there is either no pivot and no piece yet, or the
    pivot is the last child of the scene and holds the current piece as its
    only child. *)
Definition mounted (s : State) (pv pc : oid) : Prop :=
  (3 < pc)%nat ∧ (pc < pv)%nat ∧ (pv < next s)%nat
  ∧ (∃ n, store s !! 0%nat = Some n ∧ nchildren n = [1; 2; 3; pv]%nat)
  ∧ (∃ n, store s !! pv = Some n ∧ nchildren n = [pc]
          ∧ nkind n = KGroup ∧ nparent n = Some 0%nat)
  ∧ (∃ n, store s !! pc = Some n ∧ nchildren n = []
          ∧ nkind n = KGroup ∧ nparent n = Some pv).

Definition shape (s : State) : Prop :=
  scene s = 0%nat
  ∧ (3 < next s)%nat
  ∧ (∀ o n, store s !! o = Some n → (o < next s)%nat)
  ∧ (∀ b, b ∈ [1; 2; 3]%nat →
          ∃ n, store s !! b = Some n ∧ nchildren n = [] ∧ nkind n ≠ KGroup)
  ∧ match pivot s, currentPiece s with
    | None, None => ∃ n, store s !! 0%nat = Some n ∧ nchildren n = [1; 2; 3]%nat
    | Some pv, Some pc => mounted s pv pc
    | _, _ => False
    end.

(** Where a node hangs and what it is. *)
Definition hang (n : Node) : Kind * option oid * list oid :=
  (nkind n, nparent n, nchildren n).

(** Two states with the same scene graph and the same current objects. *)
Definition sameGraph (s s' : State) : Prop :=
  (∀ x : oid, hang <$> store s' !! x = hang <$> store s !! x)
  ∧ next s' = next s ∧ scene s' = scene s
  ∧ pivot s' = pivot s ∧ currentPiece s' = currentPiece s.

(** Boxes with the same corners as numbers, and a box moved by a vector. *)
Definition beq (a b : Box3.box) : Prop :=
  match a, b with
  | None, None => True
  | Some (lo, hi), Some (lo', hi') => veq lo lo' ∧ veq hi hi'
  | _, _ => False
  end.

Definition bshift (v : Vector3) (b : Box3.box) : Box3.box :=
  match b with
  | None => None
  | Some (lo, hi) => Some (vadd lo v, vadd hi v)
  end.

(** *** Further notions: exposure and counting *)

(** How many of the four side neighbours of a cube, as [exposedFacesFor]
    looks them up, are in the index. *)
Definition occupiedSides (c : Cube) (occ3D : gset string) : nat :=
  (b2n (has occ3D (cx c) (jsAdd (cz c) 1) (ch c))
   + b2n (has occ3D (cx c) (jsSub (cz c) 1) (ch c))
   + b2n (has occ3D (jsSub (cx c) 1) (cz c) (ch c))
   + b2n (has occ3D (jsAdd (cx c) 1) (cz c) (ch c)))%nat.

(** The neighbours in -x and -z. *)
Definition backX (a : Z * Z * Z) : Z * Z * Z := (a.1.1 - 1, a.1.2, a.2).
Definition backZ (a : Z * Z * Z) : Z * Z * Z := (a.1.1, a.1.2 - 1, a.2).

(** The meshes inside the blocks of a piece, and the groups among its
    children. *)
Definition blockMeshes (ch : list Object3D) : list Object3D :=
  flat_map children ch.

Definition isGroupObj (o : Object3D) : bool :=
  match o with
  | Group _ _ _ => true
  | MeshObj _ => false
  end.

(** The faces that [generateNewPiece] computes for a cube of [data]. *)
Definition facesOf (data : list Cube) (c : Cube) : list string :=
  exposedFacesFor (mkCube (cx c) (cz c) (Some (hdef c))) (occupancy data).

(** *** Further notions: frames and drags *)

(** [n] frames of [animate] in a row. *)
Definition frames (n : nat) (s : State) : State := Nat.iter n animate s.

(** A drag: the touch moves through the points [pts], in order. *)
Definition drag (pts : list (Q * Q)) (s : State) : State :=
  fold_left (λ s p, onTouchMove p.1 p.2 s) pts s.

(** What one active frame of [animate] does to the reset flag and the
    angles of the pivot. *)
Definition spinStep (p : bool * Angles) : bool * Angles :=
  let '(rv, a) := p in
  if rv then
    let x' := (ax a + (0 - ax a) * 0.18)%Q in
    if Qlt_le_dec (Qabs x') 0.001
    then (false, mkAngles 0 (ay a + 0.005)%Q (az a))
    else (true, mkAngles x' (ay a + 0.005)%Q (az a))
  else (false, mkAngles (ax a) (ay a + 0.005)%Q (az a)).

(** The events that are not a generation. *)
Definition isInput (e : Event) : bool :=
  match e with
  | EGenerate _ => false
  | _ => true
  end.

(** A node apart from its rotation. *)
Definition unrotated (n : Node) : Kind * option oid * list oid * Vector3 * list Object3D :=
  (nkind n, nparent n, nchildren n, nposition n, nmeshes n).

(** *** Further notions: the extent of a piece *)

(** The world matrix of the children of a group at [pos], unrotated, that
    has no parent. *)
Definition groupWorld (pos : Vector3) (p : Vector3) : Vector3 :=
  localMatrix pos euler0 p.

(** The bounding box of the twelve bars of a block at the origin: the unit
    cube widened by half the thickness of a bar, as a Float32 vertex has
    it. *)
Definition frameHalf : Q := (size / 2 + fround (t / 2))%Q.

Definition barFrame : Box3.box :=
  Some (mkVec (- frameHalf) (- frameHalf) (- frameHalf),
        mkVec frameHalf frameHalf frameHalf)%Q.

(** The span of the cubes of a piece along x, h and z. *)
Record Extent := mkExtent {
  xlo : Z; xhi : Z; hlo : Z; hhi : Z; zlo : Z; zhi : Z }.

Definition extentAt (a : Z * Z * Z) : Extent :=
  mkExtent a.1.1 a.1.1 a.2 a.2 a.1.2 a.1.2.

Definition grow (e : Extent) (a : Z * Z * Z) : Extent :=
  mkExtent (Z.min (xlo e) a.1.1) (Z.max (xhi e) a.1.1)
           (Z.min (hlo e) a.2) (Z.max (hhi e) a.2)
           (Z.min (zlo e) a.1.2) (Z.max (zhi e) a.1.2).

Definition extent (a : Z * Z * Z) (l : list (Z * Z * Z)) : Extent :=
  fold_left grow l (extentAt a).

(** The bar frames of all cubes within an extent. *)
Definition frameAround (e : Extent) : Box3.box :=
  Some (mkVec (inject_Z (xlo e) - frameHalf) (inject_Z (hlo e) - frameHalf)
              (inject_Z (zlo e) - frameHalf),
        mkVec (inject_Z (xhi e) + frameHalf) (inject_Z (hhi e) + frameHalf)
              (inject_Z (zhi e) + frameHalf))%Q.

(** One box holds another. *)
Definition holds (b c : Box3.box) : Prop := beq (Box3.union b c) b.

(** ** Part II: properties *)

(** *** Keys are injective *)

Lemma numeric_app s1 s2 : numeric (s1 +:+ s2) = numeric s1 && numeric s2.
Proof.
  induction s1 as [|c s1 IH]; simpl; [done|].
  rewrite IH. by rewrite andb_assoc.
Qed.

Lemma numericChar_digit n : numericChar (pretty_N_char n) = true.
Proof. unfold pretty_N_char. by repeat case_match. Qed.

Lemma numeric_pretty_N_go n s : numeric s = true → numeric (pretty_N_go n s) = true.
Proof.
  revert s. induction (N.lt_wf_0 n) as [n _ IH]; intros s Hs.
  destruct (decide (n = 0)%N) as [->|Hn]; [by rewrite pretty_N_go_0|].
  rewrite pretty_N_go_step by lia.
  apply IH; [apply N.div_lt; lia|].
  simpl. by rewrite numericChar_digit, Hs.
Qed.

Lemma numeric_pretty_N (n : N) : numeric (pretty n) = true.
Proof.
  unfold pretty, pretty_N. case_decide; [done|].
  by apply numeric_pretty_N_go.
Qed.

Lemma numeric_pretty_Z (n : Z) : numeric (pretty n) = true.
Proof.
  destruct n as [|p|p]; unfold pretty, pretty_Z; [done| |].
  - apply numeric_pretty_N.
  - rewrite numeric_app. simpl. apply numeric_pretty_N.
Qed.

(** A rendered integer holds no comma: the first comma of a key ends its
    first slot. *)
Lemma split_at_comma a a' r r' :
  numeric a = true → numeric a' = true →
  a +:+ "," +:+ r = a' +:+ "," +:+ r' → a = a' ∧ r = r'.
Proof.
  revert a'. induction a as [|c a IH]; intros [|c' a'] Ha Ha' Heq;
    simpl in *; simplify_eq; [done|].
  apply andb_true_iff in Ha as [_ Ha].
  apply andb_true_iff in Ha' as [_ Ha'].
  destruct (IH a' Ha Ha') as [-> ->]; done.
Qed.

Lemma tpl_inj h h' : tpl h = tpl h' → h = h'.
Proof.
  destruct h as [n|], h' as [n'|]; simpl; intros Heq.
  - f_equal. by apply (inj pretty).
  - pose proof (numeric_pretty_Z n) as Hn. rewrite Heq in Hn. done.
  - pose proof (numeric_pretty_Z n') as Hn. rewrite <- Heq in Hn. done.
  - done.
Qed.

Lemma key_inj x z h x' z' h' :
  key x z h = key x' z' h' → x = x' ∧ z = z' ∧ h = h'.
Proof.
  unfold key. intros Heq.
  apply split_at_comma in Heq as [Hx Heq]; [|apply numeric_pretty_Z..].
  apply split_at_comma in Heq as [Hz Hh]; [|apply numeric_pretty_Z..].
  apply (inj pretty) in Hx, Hz. apply tpl_inj in Hh. done.
Qed.

(** *** The occupancy index *)

Lemma elem_of_occupancy data k :
  k ∈ occupancy data ↔ ∃ c, c ∈ data ∧ k = key (cx c) (cz c) (Some (hdef c)).
Proof.
  unfold occupancy. rewrite elem_of_list_to_set, list_elem_of_fmap.
  split; intros (c & H1 & H2); exists c; done.
Qed.

Lemma has_occupancy data a b c :
  has (occupancy data) a b c = true ↔ ∃ h, c = Some h ∧ (a, b, h) ∈ map norm data.
Proof.
  unfold has. rewrite bool_decide_eq_true, elem_of_occupancy. split.
  - intros (q & Hq & Hk). apply key_inj in Hk as (-> & -> & ->).
    exists (hdef q). split; [done|]. apply list_elem_of_fmap. by exists q.
  - intros (h & -> & Hin). apply list_elem_of_fmap in Hin as (q & Hq & Hin).
    exists q. split; [done|]. unfold norm in Hq. by simplify_eq.
Qed.

Lemma has_occupancy_Some data a b h :
  has (occupancy data) a b (Some h) = bool_decide ((a, b, h) ∈ map norm data).
Proof.
  apply eq_true_iff_eq. rewrite has_occupancy, bool_decide_eq_true.
  split; [intros (h' & ? & ?); by simplify_eq | eauto].
Qed.
(** *** Sums of numbers that hold integers *)

Lemma round53_exact n : - 2 ^ 53 <= n <= 2 ^ 53 → round53 n = n.
Proof.
  intros Hn. unfold round53.
  destruct (Z.leb_spec (Z.log2 (Z.abs n) - 52) 0) as [|He]; [done|].
  assert (2 ^ 53 <= Z.abs n) as Hge.
  { destruct (Z.lt_ge_cases (Z.abs n) (2 ^ 53)) as [Hlt|]; [|done].
    destruct (Z.eq_dec (Z.abs n) 0) as [H0|H0].
    - rewrite H0 in He. simpl in He. lia.
    - apply Z.log2_lt_pow2 in Hlt; lia. }
  assert (n = 2 ^ 53 ∨ n = - 2 ^ 53) as [->| ->] by lia; reflexivity.
Qed.

Lemma jsAdd_safe x : safeInt x → jsAdd x 1 = x + 1.
Proof. intros Hx. apply round53_exact. unfold safeInt in Hx. lia. Qed.

Lemma jsSub_safe x : safeInt x → jsSub x 1 = x - 1.
Proof. intros Hx. apply round53_exact. unfold safeInt in Hx. lia. Qed.

Lemma round53_half x : halfExact x → round53 (2 * x + 1) = 2 * x + 1.
Proof.
  intros Hx. apply round53_exact. unfold halfExact in Hx.
  change (2 ^ 53) with (2 * 2 ^ 52). lia.
Qed.

Lemma jsAddHalf_exact x : halfExact x → (jsAddHalf x == inject_Z x + 0.5)%Q.
Proof.
  intros Hx. unfold jsAddHalf. rewrite round53_half by done.
  unfold Qeq, Qdiv, Qmult, Qplus, Qinv, inject_Z. simpl. lia.
Qed.

Lemma jsAddHalf_inj x y :
  halfExact x → halfExact y → jsAddHalf x = jsAddHalf y → x = y.
Proof.
  intros Hx Hy. unfold jsAddHalf. rewrite !round53_half by done.
  unfold Qdiv, Qmult, Qinv, inject_Z. simpl. intros [= H]. lia.
Qed.

Lemma nextX_safe a : safe3 a → nextX a = stepX a.
Proof. intros [Hx _]. unfold nextX, stepX. by rewrite jsAdd_safe. Qed.

Lemma nextZ_safe a : safe3 a → nextZ a = stepZ a.
Proof. intros [_ Hz]. unfold nextZ, stepZ. by rewrite jsAdd_safe. Qed.

Lemma halfExact_safe x : halfExact x → safeInt x.
Proof. unfold halfExact, safeInt. change (2 ^ 53) with (2 * 2 ^ 52). lia. Qed.

Lemma halfExact3_safe a : halfExact3 a → safe3 a.
Proof. intros [??]. split; by apply halfExact_safe. Qed.

Lemma safe3_norm c : safeCube c → safe3 (norm c).
Proof. done. Qed.

Lemma halfExact3_norm c : halfExactCube c → halfExact3 (norm c).
Proof. done. Qed.

Lemma Forall_safe3 data : Forall safeCube data → Forall safe3 (map norm data).
Proof. intros H. apply Forall_fmap. exact H. Qed.

Lemma Forall_halfExact3 data :
  Forall halfExactCube data → Forall halfExact3 (map norm data).
Proof. intros H. apply Forall_fmap. exact H. Qed.

Lemma Forall_halfExact_safe data :
  Forall halfExactCube data → Forall safeCube data.
Proof.
  intros H. eapply Forall_impl; [exact H|].
  intros c [??]. split; by apply halfExact_safe.
Qed.

Lemma smallInt_halfExact x : smallInt x → halfExact x.
Proof.
  unfold smallInt, halfExact.
  change (2 ^ 52) with (2 ^ 29 * 2 ^ 23). change (2 ^ 29) with 536870912. lia.
Qed.

Lemma Forall_boxExact_halfExact data :
  Forall boxExact data → Forall halfExactCube data.
Proof.
  intros H. eapply Forall_impl; [exact H|].
  intros c (? & ? & ?). split; by apply smallInt_halfExact.
Qed.

(** Concrete lists of cubes within the bounds. *)
Ltac bounded_cubes :=
  repeat (apply Forall_cons; split;
          [vm_compute; repeat split; first [reflexivity|discriminate]|]);
  apply Forall_nil_2.

Lemma occupancy_dedup data :
  occupancy data =
  list_to_set (map (λ p : Z * Z * Z, key p.1.1 p.1.2 (Some p.2))
                   (remove_dups (map norm data))).
Proof.
  apply set_eq. intros k. rewrite elem_of_occupancy, elem_of_list_to_set.
  rewrite list_elem_of_fmap. split.
  - intros (c & Hc & ->). exists (norm c). split; [done|].
    apply elem_of_remove_dups, list_elem_of_fmap. by exists c.
  - intros (p & -> & Hp).
    apply elem_of_remove_dups, list_elem_of_fmap in Hp as (c & -> & Hc).
    by exists c.
Qed.

Lemma key_of_triple_inj :
  Inj (=) (=) (λ p : Z * Z * Z, key p.1.1 p.1.2 (Some p.2)).
Proof.
  intros [[x z] h] [[x' z'] h'] Heq. simpl in Heq.
  apply key_inj in Heq as (-> & -> & Hh). by simplify_eq.
Qed.

(** C9.  The occupancy index built from a coordinate sequence answers a
    membership query for [(x,z,h)] with true exactly when some coordinate of
    the sequence is [(x,z,h)] once its height is defaulted to 0; it has one
    entry per distinct coordinate (duplicates collapse) and no entry that
    does not come from the sequence; a coordinate without height is found at
    height 0. *)
Theorem occupancy_index_exact (data : list Cube) :
  (∀ x z h, has (occupancy data) x z (Some h) = true ↔
            ∃ c, c ∈ data ∧ cx c = x ∧ cz c = z ∧ default 0 (ch c) = h)
  ∧ base.size (occupancy data) = length (remove_dups (map norm data))
  ∧ (∀ k, k ∈ occupancy data →
          ∃ c, c ∈ data ∧ k = key (cx c) (cz c) (Some (default 0 (ch c))))
  ∧ (∀ x z, mkCube x z None ∈ data → has (occupancy data) x z (Some 0) = true).
Proof.
  split; [|split; [|split]].
  - intros x z h. rewrite has_occupancy. split.
    + intros (h' & [= <-] & Hin).
      apply list_elem_of_fmap in Hin as (c & Hc & Hin).
      exists c. unfold norm, hdef in Hc. by simplify_eq.
    + intros (c & Hin & <- & <- & <-). exists (hdef c). split; [done|].
      apply list_elem_of_fmap. by exists c.
  - rewrite occupancy_dedup, size_list_to_set.
    + by rewrite length_map.
    + pose proof key_of_triple_inj as Hinj.
      apply (NoDup_fmap_2 _), NoDup_remove_dups.
  - intros k Hk. by apply elem_of_occupancy in Hk.
  - intros x z Hin. apply has_occupancy. exists 0. split; [done|].
    apply list_elem_of_fmap. by exists (mkCube x z None).
Qed.

Lemma occupancy_index_exact_witness :
  mkCube 2 3 None ∈ [mkCube 2 3 None; cube3 2 3 0; cube3 (-1) 3 0]
  ∧ has (occupancy [mkCube 2 3 None; cube3 2 3 0; cube3 (-1) 3 0]) 2 3 (Some 0) = true
  ∧ base.size (occupancy [mkCube 2 3 None; cube3 2 3 0; cube3 (-1) 3 0]) = 2%nat.
Proof.
  assert (mkCube 2 3 None ∈ [mkCube 2 3 None; cube3 2 3 0; cube3 (-1) 3 0]) as Hin
    by left.
  destruct (occupancy_index_exact [mkCube 2 3 None; cube3 2 3 0; cube3 (-1) 3 0])
    as (_ & Hsize & _ & Hdef).
  split; [exact Hin|]. split; [exact (Hdef 2 3 Hin)|].
  rewrite Hsize. vm_compute. reflexivity.
Defined.

(** *** The exposure classifier *)

Lemma exposedFacesFor_unfold c occ3D :
  exposedFacesFor c occ3D =
    (if has occ3D (cx c) (jsAdd (cz c) 1) (ch c) then [] else ["front"])
    ++ (if has occ3D (cx c) (jsSub (cz c) 1) (ch c) then [] else ["back"])
    ++ (if has occ3D (jsSub (cx c) 1) (cz c) (ch c) then [] else ["left"])
    ++ (if has occ3D (jsAdd (cx c) 1) (cz c) (ch c) then [] else ["right"]).
Proof.
  unfold exposedFacesFor, push.
  by destruct (has occ3D (cx c) (jsAdd (cz c) 1) (ch c)),
              (has occ3D (cx c) (jsSub (cz c) 1) (ch c)),
              (has occ3D (jsSub (cx c) 1) (cz c) (ch c)),
              (has occ3D (jsAdd (cx c) 1) (cz c) (ch c)).
Qed.

Lemma elem_of_unless (b : bool) (f g : string) :
  g ∈ (if b then [] else [f]) ↔ b = false ∧ g = f.
Proof.
  destruct b.
  - rewrite elem_of_nil. naive_solver.
  - rewrite list_elem_of_singleton. naive_solver.
Qed.

Lemma elem_of_exposedFacesFor c occ3D g :
  g ∈ exposedFacesFor c occ3D ↔
    (has occ3D (cx c) (jsAdd (cz c) 1) (ch c) = false ∧ g = "front")
    ∨ (has occ3D (cx c) (jsSub (cz c) 1) (ch c) = false ∧ g = "back")
    ∨ (has occ3D (jsSub (cx c) 1) (cz c) (ch c) = false ∧ g = "left")
    ∨ (has occ3D (jsAdd (cx c) 1) (cz c) (ch c) = false ∧ g = "right").
Proof.
  rewrite exposedFacesFor_unfold, !elem_of_app, !elem_of_unless. done.
Qed.

Lemma exposed_faces_iff c occ3D :
  ("front" ∈ exposedFacesFor c occ3D
     ↔ has occ3D (cx c) (jsAdd (cz c) 1) (ch c) = false)
  ∧ ("back" ∈ exposedFacesFor c occ3D
     ↔ has occ3D (cx c) (jsSub (cz c) 1) (ch c) = false)
  ∧ ("left" ∈ exposedFacesFor c occ3D
     ↔ has occ3D (jsSub (cx c) 1) (cz c) (ch c) = false)
  ∧ ("right" ∈ exposedFacesFor c occ3D
     ↔ has occ3D (jsAdd (cx c) 1) (cz c) (ch c) = false).
Proof.
  rewrite !elem_of_exposedFacesFor. repeat split; try naive_solver.
Qed.

(** C1, as amended.  For every cube [(x,z,h)] whose x and z are safe
    integers (below 2^53 in absolute value), the exposed-face list holds a
    side name exactly when the index lacks the neighbour in that direction
    at the same height: front for [(x,z+1,h)], back for [(x,z-1,h)], left
    for [(x-1,z,h)], right for [(x+1,z,h)].  This holds for every set of
    keys, and, for the index built from a coordinate list, lacking a key is
    the same as the list not holding the coordinate. *)
Theorem exposure_correct (x z h : Z) (Hx : safeInt x) (Hz : safeInt z) :
  (∀ occ3D : gset string,
     let faces := exposedFacesFor (mkCube x z (Some h)) occ3D in
     ("front" ∈ faces ↔ key x (z + 1) (Some h) ∉ occ3D)
     ∧ ("back" ∈ faces ↔ key x (z - 1) (Some h) ∉ occ3D)
     ∧ ("left" ∈ faces ↔ key (x - 1) z (Some h) ∉ occ3D)
     ∧ ("right" ∈ faces ↔ key (x + 1) z (Some h) ∉ occ3D))
  ∧ (∀ data : list Cube, exposureAsStated data x z h).
Proof.
  split.
  - intros occ3D faces.
    destruct (exposed_faces_iff (mkCube x z (Some h)) occ3D) as (H1 & H2 & H3 & H4).
    unfold has in *; simpl in *.
    rewrite !jsAdd_safe, !jsSub_safe in * by done.
    rewrite !bool_decide_eq_false in *. done.
  - intros data. unfold exposureAsStated.
    destruct (exposed_faces_iff (mkCube x z (Some h)) (occupancy data))
      as (H1 & H2 & H3 & H4).
    simpl in *. rewrite !jsAdd_safe, !jsSub_safe in * by done.
    rewrite !has_occupancy_Some, !bool_decide_eq_false in *. done.
Qed.

(** The example of the specification: in the piece [[0,0,0],[1,0,0]] the
    cube (0,0,0) exposes front, back and left but not right. *)
Lemma exposure_correct_witness :
  (safeInt 0)
  ∧ ((1, 0, 0) ∈ map norm [cube3 0 0 0; cube3 1 0 0])
  ∧ ("right" ∉ exposedFacesFor (mkCube 0 0 (Some 0))
                               (occupancy [cube3 0 0 0; cube3 1 0 0]))
  ∧ ("left" ∈ exposedFacesFor (mkCube 0 0 (Some 0))
                              (occupancy [cube3 0 0 0; cube3 1 0 0])).
Proof.
  assert (safeInt 0) as H0 by (unfold safeInt; lia).
  assert ((0 + 1, 0, 0) ∈ map norm [cube3 0 0 0; cube3 1 0 0]) as Hin.
  { refine (bool_decide_unpack _ _). vm_compute. exact I. }
  assert ((0 - 1, 0, 0) ∉ map norm [cube3 0 0 0; cube3 1 0 0]) as Hout.
  { refine (bool_decide_unpack _ _). vm_compute. exact I. }
  destruct (exposure_correct 0 0 0 H0 H0) as [_ H].
  destruct (H [cube3 0 0 0; cube3 1 0 0]) as (_ & _ & Hl & Hr).
  split; [exact H0|]. split; [exact Hin|]. split.
  - intros Hf. apply Hr in Hf. exact (Hf Hin).
  - apply Hl. exact Hout.
Defined.

(** C1 as stated, for all integer coordinates, fails at the first integer
    that is not safe: in the piece of the one cube [[2^53, 0, 0]] the sum
    [x + 1] is [x] again, the cube finds its own key, and right is not
    listed although the list has no cube at [(2^53 + 1, 0, 0)]. *)
Lemma exposure_fails_beyond_safe :
  ((2 ^ 53 + 1, 0, 0) ∉ map norm [cube3 (2 ^ 53) 0 0])
  ∧ ("right" ∉ exposedFacesFor (mkCube (2 ^ 53) 0 (Some 0))
                               (occupancy [cube3 (2 ^ 53) 0 0]))
  ∧ ¬ (∀ (x z h : Z) (data : list Cube), exposureAsStated data x z h).
Proof.
  assert ((2 ^ 53 + 1, 0, 0) ∉ map norm [cube3 (2 ^ 53) 0 0]) as Hout.
  { refine (bool_decide_unpack _ _). vm_compute. exact I. }
  assert ("right" ∉ exposedFacesFor (mkCube (2 ^ 53) 0 (Some 0))
                                    (occupancy [cube3 (2 ^ 53) 0 0])) as Hr.
  { refine (bool_decide_unpack _ _). vm_compute. exact I. }
  split; [exact Hout|]. split; [exact Hr|].
  intros H. destruct (H (2 ^ 53) 0 0 [cube3 (2 ^ 53) 0 0]) as (_ & _ & _ & H4).
  apply Hr, H4, Hout.
Qed.

(** *** The block mesh builder *)

Section Block.

Context (material : MeshLambertMaterial).

Lemma is_side_name_iff f : is_side_name f = true ↔ f ∈ sideNames.
Proof.
  unfold is_side_name, sideNames.
  rewrite !orb_true_iff, !bool_decide_eq_true, !elem_of_cons, elem_of_nil.
  tauto.
Qed.

Lemma addFace_sidePanel f g :
  is_side_name f = true →
  addFace (PlaneGeometry size size) (mkMaterial (color material) DoubleSide) f g
  = g ++ [sidePanel material f].
Proof.
  intros Hf. apply is_side_name_iff in Hf.
  unfold sideNames in Hf. rewrite !elem_of_cons, elem_of_nil in Hf.
  destruct Hf as [->|[->|[->|[->|[]]]]]; reflexivity.
Qed.

Lemma faces_loop faces g :
  fold_left (λ g f, if is_side_name f
                    then addFace (PlaneGeometry size size)
                                 (mkMaterial (color material) DoubleSide) f g
                    else g) faces g
  = g ++ map (sidePanel material) (List.filter is_side_name faces).
Proof.
  revert g. induction faces as [|f faces IH]; intros g; simpl.
  - by rewrite app_nil_r.
  - destruct (is_side_name f) eqn:Hf; rewrite IH; [|done].
    rewrite addFace_sidePanel by done. by rewrite <- app_assoc.
Qed.

Lemma createBlock_children faces :
  children (createBlock faces material)
  = addEdgeBars material [] ++ map (sidePanel material) (List.filter is_side_name faces).
Proof. unfold createBlock. simpl. apply faces_loop. Qed.

Lemma filter_side_names faces :
  (∀ f, f ∈ faces → f ∈ sideNames) → List.filter is_side_name faces = faces.
Proof.
  induction faces as [|f faces IH]; intros H; simpl; [done|].
  assert (is_side_name f = true) as ->.
  { apply is_side_name_iff, H. left. }
  f_equal. apply IH. intros g Hg. apply H. by right.
Qed.

Lemma sidePanel_cases f :
  isPanel (sidePanel material f) = true
  ∧ isBar (sidePanel material f) = false
  ∧ isBottomBar (sidePanel material f) = false
  ∧ isTopBar (sidePanel material f) = false
  ∧ isVerticalBar (sidePanel material f) = false
  ∧ isHorizontalPanel (sidePanel material f) = false
  ∧ vy (objPosition (sidePanel material f)) = 0%Q.
Proof.
  unfold sidePanel. repeat case_bool_decide; repeat split; reflexivity.
Qed.

Lemma filter_sidePanels (P : Object3D → bool) fs :
  (∀ f, P (sidePanel material f) = false) →
  List.filter P (map (sidePanel material) fs) = [].
Proof.
  intros H. induction fs as [|f fs IH]; simpl; [done|]. by rewrite H.
Qed.

Lemma filter_isPanel_sidePanels fs :
  List.filter isPanel (map (sidePanel material) fs) = map (sidePanel material) fs.
Proof.
  induction fs as [|f fs IH]; simpl; [done|].
  destruct (sidePanel_cases f) as (-> & _). by rewrite IH.
Qed.

Lemma side_names_at_most_four (faces : list string) :
  NoDup faces → (∀ f, f ∈ faces → f ∈ sideNames) → (length faces ≤ 4)%nat.
Proof.
  intros Hnd Hsub.
  change 4%nat with (length sideNames).
  apply submseteq_length, NoDup_submseteq; done.
Qed.

End Block.

(** C4.  For a face list that is a duplicate-free selection of the four side
    names, the group built by [createBlock] holds exactly 12 edge bars, 4 at
    the bottom, 4 at the top and 4 vertical, the same twelve whatever the
    face list, and exactly one face panel per entry of the list, hence at
    most four. *)
Theorem block_mesh_counts (faces : list string) (material : MeshLambertMaterial) :
  NoDup faces →
  (∀ f, f ∈ faces → f ∈ sideNames) →
  let ch := children (createBlock faces material) in
  length (List.filter isBar ch) = 12%nat
  ∧ length (List.filter isBottomBar ch) = 4%nat
  ∧ length (List.filter isTopBar ch) = 4%nat
  ∧ length (List.filter isVerticalBar ch) = 4%nat
  ∧ List.filter isBar ch = addEdgeBars material []
  ∧ List.filter isPanel ch = map (sidePanel material) faces
  ∧ length (List.filter isPanel ch) = length faces
  ∧ (length faces ≤ 4)%nat
  ∧ length ch = (12 + length faces)%nat.
Proof.
  intros Hnd Hsub ch. subst ch.
  rewrite createBlock_children, (filter_side_names faces Hsub).
  assert (∀ P, (∀ f, P (sidePanel material f) = false) →
               List.filter P (addEdgeBars material [] ++ map (sidePanel material) faces)
               = List.filter P (addEdgeBars material [])) as Hbars.
  { intros P HP. by rewrite List.filter_app, filter_sidePanels, app_nil_r. }
  assert (List.filter isPanel
            (addEdgeBars material [] ++ map (sidePanel material) faces)
          = map (sidePanel material) faces) as Hpanels.
  { by rewrite List.filter_app, filter_isPanel_sidePanels. }
  rewrite Hpanels, !Hbars by (intros f; apply (sidePanel_cases material f)).
  rewrite length_app, !length_map.
  repeat split; try reflexivity.
  by apply side_names_at_most_four.
Qed.

Lemma block_mesh_counts_witness :
  let faces := ["front"; "back"; "left"] in
  let material := mkMaterial 0xe74c3c FrontSide in
  NoDup faces ∧ (∀ f, f ∈ faces → f ∈ sideNames)
  ∧ length (List.filter isBar (children (createBlock faces material))) = 12%nat
  ∧ length (List.filter isPanel (children (createBlock faces material))) = 3%nat.
Proof.
  intros faces material.
  assert (NoDup faces) as Hnd.
  { unfold faces. repeat (apply NoDup_cons; split;
      [rewrite ?elem_of_cons, elem_of_nil; intros H; decompose [or] H; congruence|]).
    apply NoDup_nil. done. }
  assert (∀ f, f ∈ faces → f ∈ sideNames) as Hsub.
  { intros f. unfold faces, sideNames. rewrite !elem_of_cons, !elem_of_nil. tauto. }
  split; [exact Hnd|]. split; [exact Hsub|].
  pose proof (block_mesh_counts faces material Hnd Hsub) as H.
  simpl in H. destruct H as (H1 & _ & _ & _ & _ & _ & H7 & _).
  split; [exact H1 | exact H7].
Defined.

(** C3.  The exposed-face list holds only side names, never top or bottom;
    and whatever the face list given to [createBlock], every panel of the
    block is the panel of one of the four sides, for a side name that occurs
    in the list: it stands upright at mid-height of the block, so that no
    panel closes the top or the bottom.  The names top and bottom themselves
    produce no panel. *)
Theorem no_top_or_bottom :
  (∀ c occ3D f, f ∈ exposedFacesFor c occ3D →
     f ∈ sideNames ∧ f ≠ "top" ∧ f ≠ "bottom")
  ∧ (∀ faces material o,
       o ∈ children (createBlock faces material) → isPanel o = true →
       isHorizontalPanel o = false
       ∧ vy (objPosition o) = 0%Q
       ∧ ∃ f, f ∈ sideNames ∧ f ∈ faces ∧ o = sidePanel material f)
  ∧ (∀ faces material,
       List.filter isHorizontalPanel (children (createBlock faces material)) = [])
  ∧ (∀ material,
       List.filter isPanel (children (createBlock ["top"; "bottom"] material)) = []).
Proof.
  split; [|split; [|split]].
  - intros c occ3D f Hf. apply elem_of_exposedFacesFor in Hf.
    unfold sideNames. rewrite !elem_of_cons, elem_of_nil.
    destruct Hf as [[_ ->]|[[_ ->]|[[_ ->]|[_ ->]]]]; repeat split; auto; done.
  - intros faces material o Ho Hp.
    rewrite createBlock_children in Ho. apply elem_of_app in Ho as [Ho|Ho].
    + exfalso. unfold addEdgeBars, addBar, push in Ho. simpl in Ho.
      rewrite !elem_of_cons, elem_of_nil in Ho.
      decompose [or] Ho; subst; simpl in Hp; congruence.
    + apply list_elem_of_fmap in Ho as (f & -> & Hf).
      apply list_elem_of_In, List.filter_In in Hf as [Hf Hs].
      destruct (sidePanel_cases material f) as (_ & _ & _ & _ & _ & H6 & H7).
      repeat split; [done..|].
      exists f. repeat split; [by apply is_side_name_iff | by apply list_elem_of_In].
  - intros faces material. rewrite createBlock_children, List.filter_app.
    rewrite (filter_sidePanels material)
      by (intros f; apply (sidePanel_cases material f)).
    reflexivity.
  - intros material. reflexivity.
Qed.

Lemma no_top_or_bottom_witness :
  sidePanel (mkMaterial 0xe74c3c FrontSide) "front"
    ∈ children (createBlock ["top"; "front"; "bottom"] (mkMaterial 0xe74c3c FrontSide))
  ∧ isPanel (sidePanel (mkMaterial 0xe74c3c FrontSide) "front") = true
  ∧ isHorizontalPanel (sidePanel (mkMaterial 0xe74c3c FrontSide) "front") = false
  ∧ length (List.filter isPanel
              (children (createBlock ["top"; "front"; "bottom"]
                                     (mkMaterial 0xe74c3c FrontSide)))) = 1%nat.
Proof.
  assert (sidePanel (mkMaterial 0xe74c3c FrontSide) "front"
            ∈ children (createBlock ["top"; "front"; "bottom"]
                                    (mkMaterial 0xe74c3c FrontSide))) as Hin.
  { rewrite createBlock_children. apply elem_of_app. right. left. }
  assert (isPanel (sidePanel (mkMaterial 0xe74c3c FrontSide) "front") = true) as Hp
    by reflexivity.
  destruct no_top_or_bottom as (_ & Hpanel & _ & _).
  destruct (Hpanel _ _ _ Hin Hp) as (Hh & _ & _).
  split; [exact Hin|]. split; [exact Hp|]. split; [exact Hh|]. reflexivity.
Defined.

(** *** The internal partition builder *)

Section Partitions.

Context (colorMat : MeshLambertMaterial).

Lemma wallsStep_eq data g c :
  wallsStep (occupancy data) (PlaneGeometry 1.0 1.0)
            (mkMaterial (color colorMat) DoubleSide) g c
  = g ++ wallsOf (map norm data) colorMat (norm c).
Proof.
  unfold wallsStep, wallsOf, nextX, nextZ, push.
  rewrite !has_occupancy_Some.
  change (norm c) with (cx c, cz c, hdef c). cbn [fst snd].
  repeat case_bool_decide; try done;
    cbn [app]; rewrite <- ?app_assoc, ?app_nil_r; reflexivity.
Qed.

Lemma addInternalWalls_eq data g :
  addInternalWalls data g colorMat
  = g ++ flat_map (wallsOf (map norm data) colorMat) (map norm data).
Proof.
  unfold addInternalWalls.
  assert (∀ cs g,
    fold_left (wallsStep (occupancy data) (PlaneGeometry 1.0 1.0)
                         (mkMaterial (color colorMat) DoubleSide)) cs g
    = g ++ flat_map (wallsOf (map norm data) colorMat) (map norm cs)) as H.
  { clear. induction cs as [|c cs IH]; intros g; simpl.
    - by rewrite app_nil_r.
    - rewrite wallsStep_eq, IH. by rewrite <- app_assoc. }
  apply H.
Qed.

Lemma walls_eq data :
  walls data colorMat = flat_map (wallsOf (map norm data) colorMat) (map norm data).
Proof. unfold walls. by rewrite addInternalWalls_eq. Qed.

Lemma length_wallsOf L a :
  safe3 a → length (wallsOf L colorMat a) = forward L a.
Proof.
  intros Ha. unfold wallsOf, forward. rewrite nextX_safe, nextZ_safe by done.
  by repeat case_bool_decide.
Qed.

Lemma length_flat_map_wallsOf L M :
  Forall safe3 M →
  length (flat_map (wallsOf L colorMat) M) = sum_list_with (forward L) M.
Proof.
  induction 1 as [|a M Ha HM IH]; simpl; [done|].
  by rewrite length_app, length_wallsOf, IH.
Qed.

End Partitions.

(** Counting the pairs. *)

Section Counting.

Implicit Types (a b c : Z * Z * Z) (L M t : list (Z * Z * Z)).

Lemma adjacent_b2n a b :
  b2n (adjacent a b)
  = (b2n (bool_decide (b = stepX a)) + b2n (bool_decide (b = stepZ a))
     + backward a b)%nat.
Proof.
  destruct a as [[x z] h], b as [[x' z'] h'].
  unfold adjacent, backward, stepX, stepZ. cbn [fst snd].
  destruct (Z.eqb_spec h h'), (Z.eqb_spec (Z.abs (x - x')) 1), (Z.eqb_spec z z'),
           (Z.eqb_spec x x'), (Z.eqb_spec (Z.abs (z - z')) 1); cbn [andb orb b2n];
    destruct (decide (x' = x + 1)), (decide (x = x' + 1)),
             (decide (z' = z + 1)), (decide (z = z' + 1)); try lia;
    repeat match goal with
    | |- context [bool_decide ?P] =>
        first [ rewrite (bool_decide_eq_true_2 P) by (repeat f_equal; lia)
              | rewrite (bool_decide_eq_false_2 P) by (intros [=]; lia) ]
    end; cbn [b2n]; lia.
Qed.

Lemma sum_list_with_add {A} (f g : A → nat) l :
  sum_list_with (λ x, f x + g x)%nat l
  = (sum_list_with f l + sum_list_with g l)%nat.
Proof. induction l as [|x l IH]; simpl; [done|]. rewrite IH. lia. Qed.

Lemma sum_list_with_ext {A} (f g : A → nat) l :
  (∀ x, f x = g x) → sum_list_with f l = sum_list_with g l.
Proof. intros H. induction l as [|x l IH]; simpl; [done|]. by rewrite H, IH. Qed.

Lemma sum_indicator (c : Z * Z * Z) t :
  NoDup t →
  sum_list_with (λ b, b2n (bool_decide (b = c))) t = b2n (bool_decide (c ∈ t)).
Proof.
  induction 1 as [|b t Hb Hnd IH].
  - rewrite bool_decide_eq_false_2; [done|apply not_elem_of_nil].
  - cbn [sum_list_with]. rewrite IH. destruct (decide (b = c)) as [->|Hne].
    + rewrite (bool_decide_eq_true_2 (c = c)) by done.
      rewrite (bool_decide_eq_false_2 (c ∈ t)) by done.
      rewrite (bool_decide_eq_true_2 (c ∈ c :: t)) by left. done.
    + rewrite (bool_decide_eq_false_2 (b = c)) by done.
      cbn [b2n Nat.add]. f_equal. apply bool_decide_ext.
      rewrite elem_of_cons. naive_solver.
Qed.

Lemma indicator_cons (c a : Z * Z * Z) t :
  a ∉ t →
  b2n (bool_decide (c ∈ a :: t))
  = (b2n (bool_decide (c ∈ t)) + b2n (bool_decide (c = a)))%nat.
Proof.
  intros Ha. destruct (decide (c = a)) as [->|Hne].
  - rewrite (bool_decide_eq_true_2 (a ∈ a :: t)) by left.
    rewrite (bool_decide_eq_false_2 (a ∈ t)) by done.
    by rewrite (bool_decide_eq_true_2 (a = a)).
  - rewrite (bool_decide_eq_false_2 (c = a)) by done.
    rewrite Nat.add_0_r. f_equal. apply bool_decide_ext.
    rewrite elem_of_cons. naive_solver.
Qed.

Lemma forward_cons a t b :
  a ∉ t → forward (a :: t) b = (forward t b + backward a b)%nat.
Proof.
  intros Ha. unfold forward, backward. rewrite !indicator_cons by done. lia.
Qed.

Lemma backward_self a : backward a a = 0%nat.
Proof.
  destruct a as [[x z] h]. unfold backward, stepX, stepZ. cbn [fst snd].
  rewrite !bool_decide_eq_false_2; [done|intros [=]; lia..].
Qed.

Lemma length_filter_b2n {A} (P : A → bool) l :
  length (List.filter P l) = sum_list_with (λ x, b2n (P x)) l.
Proof.
  induction l as [|x l IH]; simpl; [done|]. destruct (P x); simpl; by rewrite IH.
Qed.

Lemma pairs_with a t :
  NoDup t →
  length (List.filter (λ p, adjacent p.1 p.2) (map (pair a) t))
  = (forward t a + sum_list_with (backward a) t)%nat.
Proof.
  intros Hnd. rewrite length_filter_b2n.
  assert (∀ l : list (Z * Z * Z),
            sum_list_with (λ p : (Z * Z * Z) * (Z * Z * Z), b2n (adjacent p.1 p.2))
                          (map (pair a) l)
            = sum_list_with (λ b, b2n (adjacent a b)) l) as ->.
  { induction l as [|b l IH]; simpl; [done|]. by rewrite IH. }
  rewrite (sum_list_with_ext _ _ _ (adjacent_b2n a)).
  rewrite !sum_list_with_add, !sum_indicator by done.
  reflexivity.
Qed.

(** In a piece without repeated cube, the neighbours found by the scan in +x
    and +z are as many as the unordered pairs of adjacent cubes. *)
Lemma forward_scan_counts_pairs L :
  NoDup L → sum_list_with (forward L) L = length (adjacentPairs L).
Proof.
  induction 1 as [|a t Ha Hnd IH]; [done|].
  unfold adjacentPairs in *. cbn [unorderedPairs sum_list_with].
  rewrite List.filter_app, length_app, pairs_with, <- IH by done.
  rewrite (sum_list_with_ext _ _ t (λ b, forward_cons a t b Ha)).
  rewrite sum_list_with_add, forward_cons, backward_self by done.
  lia.
Qed.

End Counting.

(** The partitions, one by one. *)

Section Panels.

Context (colorMat : MeshLambertMaterial).

Lemma elem_of_wallsOf L a p :
  p ∈ wallsOf L colorMat a ↔
    (nextX a ∈ L ∧ p = wallX colorMat a) ∨ (nextZ a ∈ L ∧ p = wallZ colorMat a).
Proof.
  unfold wallsOf. rewrite elem_of_app.
  repeat case_bool_decide;
    rewrite ?list_elem_of_singleton, ?elem_of_nil; naive_solver.
Qed.

Lemma elem_of_walls data p :
  p ∈ walls data colorMat ↔
    ∃ a, a ∈ map norm data
         ∧ ((nextX a ∈ map norm data ∧ p = wallX colorMat a)
            ∨ (nextZ a ∈ map norm data ∧ p = wallZ colorMat a)).
Proof.
  rewrite walls_eq, list_elem_of_In, in_flat_map.
  setoid_rewrite <- list_elem_of_In. setoid_rewrite elem_of_wallsOf. done.
Qed.

(** Among safe cubes the lookups are those of the neighbours. *)
Lemma elem_of_walls_safe data p :
  Forall safeCube data →
  p ∈ walls data colorMat ↔
    ∃ a, a ∈ map norm data
         ∧ ((stepX a ∈ map norm data ∧ p = wallX colorMat a)
            ∨ (stepZ a ∈ map norm data ∧ p = wallZ colorMat a)).
Proof.
  intros Hs. apply Forall_safe3 in Hs. rewrite Forall_forall in Hs.
  rewrite elem_of_walls. split; intros (a & Ha & H); exists a; (split; [done|]).
  - by rewrite <- (nextX_safe a), <- (nextZ_safe a) by auto.
  - by rewrite (nextX_safe a), (nextZ_safe a) by auto.
Qed.

Lemma wallX_inj a b :
  halfExact3 a → halfExact3 b → wallX colorMat a = wallX colorMat b → a = b.
Proof.
  destruct a as [[x z] h], b as [[x' z'] h']. intros [Ha1 Ha2] [Hb1 Hb2] H.
  cbn [fst snd] in *.
  pose proof (f_equal (λ o, vx (objPosition o)) H) as Hp.
  pose proof (f_equal (λ o, vy (objPosition o)) H) as Hh.
  pose proof (f_equal (λ o, vz (objPosition o)) H) as Ho.
  cbn [wallX objPosition position vx vy vz] in Hp, Hh, Ho.
  apply jsAddHalf_inj in Hp; [|done..]. unfold inject_Z in *.
  repeat f_equal; congruence.
Qed.

Lemma wallZ_inj a b :
  halfExact3 a → halfExact3 b → wallZ colorMat a = wallZ colorMat b → a = b.
Proof.
  destruct a as [[x z] h], b as [[x' z'] h']. intros [Ha1 Ha2] [Hb1 Hb2] H.
  cbn [fst snd] in *.
  pose proof (f_equal (λ o, vz (objPosition o)) H) as Hp.
  pose proof (f_equal (λ o, vy (objPosition o)) H) as Hh.
  pose proof (f_equal (λ o, vx (objPosition o)) H) as Ho.
  cbn [wallZ objPosition position vx vy vz] in Hp, Hh, Ho.
  apply jsAddHalf_inj in Hp; [|done..]. unfold inject_Z in *.
  repeat f_equal; congruence.
Qed.

Lemma wallX_wallZ a b : wallX colorMat a ≠ wallZ colorMat b.
Proof. destruct a as [[x z] h], b as [[x' z'] h']. unfold wallX, wallZ. intros [=]. Qed.

Lemma NoDup_wallsOf L a : NoDup (wallsOf L colorMat a).
Proof.
  unfold wallsOf. repeat case_bool_decide; cbn [app];
    repeat (apply NoDup_cons; split); try apply NoDup_nil_2;
    rewrite ?list_elem_of_singleton; try apply not_elem_of_nil.
  apply wallX_wallZ.
Qed.

Lemma NoDup_flat_map_wallsOf L M :
  Forall halfExact3 M → NoDup M → NoDup (flat_map (wallsOf L colorMat) M).
Proof.
  intros Hh. induction 1 as [|a t Ha Hnd IH]; simpl; [apply NoDup_nil_2|].
  apply Forall_cons in Hh as [Hha Hht].
  apply NoDup_app. split; [apply NoDup_wallsOf|]. split; [|by apply IH].
  intros p Hp Hp'.
  apply list_elem_of_In, in_flat_map in Hp' as (b & Hb & Hp').
  apply list_elem_of_In in Hb, Hp'.
  assert (halfExact3 b) as Hhb by (rewrite Forall_forall in Hht; auto).
  apply elem_of_wallsOf in Hp as [[_ ->]|[_ ->]];
    apply elem_of_wallsOf in Hp' as [[_ Hp']|[_ Hp']].
  - apply wallX_inj in Hp' as ->; done.
  - by apply wallX_wallZ in Hp'.
  - symmetry in Hp'. by apply wallX_wallZ in Hp'.
  - apply wallZ_inj in Hp' as ->; done.
Qed.

End Panels.

Lemma adjacent_cases a b :
  adjacent a b = true ↔ b = stepX a ∨ b = stepZ a ∨ a = stepX b ∨ a = stepZ b.
Proof.
  pose proof (adjacent_b2n a b) as Hsum. unfold backward in Hsum. split.
  - intros Hadj. rewrite Hadj in Hsum. cbn [b2n] in Hsum.
    repeat case_bool_decide; cbn [b2n] in Hsum; auto; lia.
  - intros Hc. destruct (adjacent a b); [done|]. cbn [b2n] in Hsum.
    repeat case_bool_decide; cbn [b2n] in Hsum; try lia.
    naive_solver.
Qed.

Lemma partition_stepX (colorMat : MeshLambertMaterial) a : partition colorMat a (stepX a) = wallX colorMat a.
Proof. unfold partition. by rewrite bool_decide_eq_true_2. Qed.

Lemma partition_stepZ (colorMat : MeshLambertMaterial) a : partition colorMat a (stepZ a) = wallZ colorMat a.
Proof.
  unfold partition. rewrite bool_decide_eq_false_2, bool_decide_eq_true_2; [done..|].
  destruct a as [[x z] h]. unfold stepX, stepZ. cbn [fst snd]. intros [=]. lia.
Qed.

Lemma partition_sym (colorMat : MeshLambertMaterial) a b :
  adjacent a b = true → partition colorMat b a = partition colorMat a b.
Proof.
  intros Hadj. apply adjacent_cases in Hadj.
  destruct a as [[x z] h], b as [[x' z'] h'].
  unfold partition, stepX, stepZ in *. cbn [fst snd] in *.
  repeat case_bool_decide; simplify_eq; try done; try lia;
    destruct Hadj as [Hc|[Hc|[Hc|Hc]]]; simplify_eq; try done; lia.
Qed.

Lemma wall_not_horizontal (colorMat : MeshLambertMaterial) a :
  isHorizontalPanel (wallX colorMat a) = false
  ∧ isHorizontalPanel (wallZ colorMat a) = false.
Proof. destruct a as [[x z] h]. split; reflexivity. Qed.


(** *** The partitions are those of the pairs, one each *)

Section PairPanels.

Context (colorMat : MeshLambertMaterial).

Implicit Types (a b c : Z * Z * Z) (L M t : list (Z * Z * Z)).

(** The partitions that start at [a] when the neighbours are found. *)
Let ahead L a : list Object3D :=
  (if bool_decide (stepX a ∈ L) then [wallX colorMat a] else [])
  ++ (if bool_decide (stepZ a ∈ L) then [wallZ colorMat a] else []).

(** The partitions that start at [b] and end at [a]. *)
Let behind a b : list Object3D :=
  (if bool_decide (stepX b = a) then [wallX colorMat b] else [])
  ++ (if bool_decide (stepZ b = a) then [wallZ colorMat b] else []).

Let between a b : list Object3D :=
  if adjacent a b then [partition colorMat a b] else [].

Lemma wallsOf_ahead L M :
  Forall safe3 M → flat_map (wallsOf L colorMat) M = flat_map (ahead L) M.
Proof.
  induction 1 as [|a M Ha HM IH]; [done|]. cbn [flat_map]. rewrite IH. f_equal.
  unfold wallsOf, ahead. by rewrite nextX_safe, nextZ_safe.
Qed.

Lemma flat_map_split {A B} (f g : A → list B) (l : list A) :
  flat_map (λ x, f x ++ g x) l ≡ₚ flat_map f l ++ flat_map g l.
Proof.
  induction l as [|x l IH]; [done|]. cbn [flat_map]. rewrite IH.
  rewrite <- !app_assoc. apply Permutation_app_head.
  rewrite !app_assoc. apply Permutation_app_tail, Permutation_app_comm.
Qed.

Lemma flat_map_perm_ext {A B} (f g : A → list B) (l : list A) :
  (∀ x, f x ≡ₚ g x) → flat_map f l ≡ₚ flat_map g l.
Proof.
  intros H. induction l as [|x l IH]; [done|]. cbn [flat_map]. by rewrite H, IH.
Qed.

Lemma flat_map_indicator (w : Object3D) c t :
  NoDup t →
  flat_map (λ b, if bool_decide (b = c) then [w] else []) t
  = if bool_decide (c ∈ t) then [w] else [].
Proof.
  induction 1 as [|b t Hb Hnd IH].
  - by rewrite bool_decide_eq_false_2 by apply not_elem_of_nil.
  - cbn [flat_map]. rewrite IH. destruct (decide (b = c)) as [->|Hne].
    + rewrite (bool_decide_eq_true_2 (c = c)) by done.
      rewrite (bool_decide_eq_false_2 (c ∈ t)) by done.
      by rewrite (bool_decide_eq_true_2 (c ∈ c :: t)) by left.
    + rewrite (bool_decide_eq_false_2 (b = c)) by done. cbn [app].
      rewrite (bool_decide_ext (c ∈ b :: t) (c ∈ t)); [done|].
      rewrite elem_of_cons. naive_solver.
Qed.

Lemma ahead_cons a t b : a ∉ t → ahead (a :: t) b ≡ₚ ahead t b ++ behind a b.
Proof.
  intros Ha. unfold ahead, behind.
  assert (∀ c (w : Object3D),
            (if bool_decide (c ∈ a :: t) then [w] else [])
            = (if bool_decide (c ∈ t) then [w] else [])
              ++ (if bool_decide (c = a) then [w] else [])) as Hsplit.
  { intros c w. destruct (decide (c = a)) as [->|Hne].
    - rewrite (bool_decide_eq_true_2 (a ∈ a :: t)) by left.
      rewrite (bool_decide_eq_false_2 (a ∈ t)) by done.
      by rewrite (bool_decide_eq_true_2 (a = a)).
    - rewrite (bool_decide_eq_false_2 (c = a)) by done. rewrite app_nil_r.
      rewrite (bool_decide_ext (c ∈ a :: t) (c ∈ t)); [done|].
      rewrite elem_of_cons. naive_solver. }
  rewrite !Hsplit. rewrite <- !app_assoc. apply Permutation_app_head.
  rewrite !app_assoc. apply Permutation_app_tail, Permutation_app_comm.
Qed.

Lemma behind_self a : behind a a = [].
Proof.
  destruct a as [[x z] h]. unfold behind, stepX, stepZ. cbn [fst snd].
  rewrite !bool_decide_eq_false_2; [done|intros [=]; lia..].
Qed.

Lemma between_cases a b :
  between a b
  = (if bool_decide (b = stepX a) then [wallX colorMat a] else [])
    ++ (if bool_decide (b = stepZ a) then [wallZ colorMat a] else [])
    ++ behind a b.
Proof.
  unfold between, behind.
  pose proof (adjacent_cases a b) as Hadj.
  destruct a as [[x z] h], b as [[x' z'] h'].
  unfold partition, stepX, stepZ in *. cbn [fst snd] in *.
  destruct (adjacent (x, z, h) (x', z', h')).
  - destruct (proj1 Hadj eq_refl) as [Hc|[Hc|[Hc|Hc]]]; simplify_eq;
      repeat case_bool_decide; simplify_eq; try done; lia.
  - repeat case_bool_decide; try done; exfalso;
      assert (false = true) by (apply Hadj; auto); done.
Qed.

Lemma pairs_of a t :
  NoDup t →
  map (λ pr : (Z * Z * Z) * (Z * Z * Z), partition colorMat pr.1 pr.2)
      (List.filter (λ pr, adjacent pr.1 pr.2) (map (pair a) t))
  ≡ₚ ahead t a ++ flat_map (behind a) t.
Proof.
  intros Hnd.
  assert (∀ l, map (λ pr : (Z * Z * Z) * (Z * Z * Z), partition colorMat pr.1 pr.2)
                   (List.filter (λ pr, adjacent pr.1 pr.2) (map (pair a) l))
               = flat_map (between a) l) as ->.
  { induction l as [|b l IH]; [done|]. cbn [map List.filter flat_map fst snd].
    unfold between at 1. destruct (adjacent a b); cbn [map app fst snd]; by rewrite IH. }
  rewrite (flat_map_ext (between a) _ (between_cases a)).
  rewrite flat_map_split, flat_map_split, !flat_map_indicator by done.
  by rewrite app_assoc.
Qed.

(** In a piece without repeated cube, the partitions found by the scan in
    +x and +z are, up to their order, the partitions of the unordered pairs
    of adjacent cubes, one for each pair. *)
Lemma scan_is_pairs L :
  NoDup L →
  flat_map (ahead L) L
  ≡ₚ map (λ pr : (Z * Z * Z) * (Z * Z * Z), partition colorMat pr.1 pr.2)
         (adjacentPairs L).
Proof.
  induction 1 as [|a t Ha Hnd IH]; [done|].
  unfold adjacentPairs in *. cbn [unorderedPairs flat_map].
  rewrite List.filter_app, map_app, pairs_of, <- IH by done.
  rewrite (flat_map_perm_ext (ahead (a :: t)) (λ b, ahead t b ++ behind a b))
    by (intros b; by apply ahead_cons).
  rewrite flat_map_split, ahead_cons, behind_self, app_nil_r by done.
  rewrite <- !app_assoc. apply Permutation_app_head, Permutation_app_comm.
Qed.

Lemma walls_are_pairs data :
  NoDup (map norm data) → Forall safeCube data →
  walls data colorMat
  ≡ₚ map (λ pr : (Z * Z * Z) * (Z * Z * Z), partition colorMat pr.1 pr.2)
         (adjacentPairs (map norm data)).
Proof.
  intros Hnd Hsafe.
  rewrite walls_eq, wallsOf_ahead by by apply Forall_safe3.
  by apply scan_is_pairs.
Qed.

End PairPanels.

(** C2, as the code has it.  For a coordinate list in which no cube is
    repeated (heights defaulted) and whose x and z are safe integers (below
    2^53 in absolute value), [addInternalWalls] appends exactly one
    partition per unordered pair of same-height axis-adjacent cubes: the
    panels are as many as the pairs, the panel of every such pair is there,
    and every panel is the panel of such a pair.  No panel is horizontal:
    height neighbours get none.  The panels are, up to their order, the
    partitions of the pairs, one for each pair.  Where the half-steps are
    doubles too (x and z from -2^52 up to 2^52 - 1) no two panels are
    alike. *)
Theorem partitions_one_per_pair (data : list Cube) (colorMat : MeshLambertMaterial) :
  NoDup (map norm data) →
  Forall safeCube data →
  (∀ g, addInternalWalls data g colorMat = g ++ walls data colorMat)
  ∧ length (walls data colorMat) = length (adjacentPairs (map norm data))
  ∧ walls data colorMat
    ≡ₚ map (λ pr : (Z * Z * Z) * (Z * Z * Z), partition colorMat pr.1 pr.2)
           (adjacentPairs (map norm data))
  ∧ (Forall halfExactCube data → NoDup (walls data colorMat))
  ∧ (∀ a b, a ∈ map norm data → b ∈ map norm data → adjacent a b = true →
            partition colorMat a b ∈ walls data colorMat)
  ∧ (∀ p, p ∈ walls data colorMat →
          isHorizontalPanel p = false
          ∧ ∃ a b, a ∈ map norm data ∧ b ∈ map norm data
                   ∧ adjacent a b = true ∧ p = partition colorMat a b).
Proof.
  intros Hnd Hsafe. split; [|split; [|split; [|split; [|split]]]].
  - intros g. unfold walls. by rewrite !addInternalWalls_eq.
  - rewrite walls_eq, length_flat_map_wallsOf by by apply Forall_safe3.
    by apply forward_scan_counts_pairs.
  - by apply walls_are_pairs.
  - intros Hhalf. rewrite walls_eq.
    apply NoDup_flat_map_wallsOf; [by apply Forall_halfExact3|done].
  - assert (∀ a b, a ∈ map norm data → b ∈ map norm data →
                   b = stepX a ∨ b = stepZ a →
                   partition colorMat a b ∈ walls data colorMat) as Hfwd.
    { intros a b Ha Hb [->| ->]; apply elem_of_walls_safe; try done;
        exists a; split; try done.
      - left. split; [done|apply partition_stepX].
      - right. split; [done|apply partition_stepZ]. }
    intros a b Ha Hb Hadj.
    destruct (proj1 (adjacent_cases a b) Hadj) as [H|[H|[H|H]]].
    + apply Hfwd; auto.
    + apply Hfwd; auto.
    + rewrite <- partition_sym by done. apply Hfwd; auto.
    + rewrite <- partition_sym by done. apply Hfwd; auto.
  - intros p Hp.
    apply elem_of_walls_safe in Hp as (a & Ha & [[Hb ->]|[Hb ->]]); [| |done].
    + split; [apply wall_not_horizontal|].
      exists a, (stepX a). repeat split; try done.
      * apply adjacent_cases. by left.
      * by rewrite partition_stepX.
    + split; [apply wall_not_horizontal|].
      exists a, (stepZ a). repeat split; try done.
      * apply adjacent_cases. right. by left.
      * by rewrite partition_stepZ.
Qed.

Lemma partitions_one_per_pair_witness :
  let data := [cube3 0 0 0; cube3 1 0 0; cube3 1 1 0; cube3 1 0 1] in
  let colorMat := mkMaterial 0xe74c3c FrontSide in
  NoDup (map norm data)
  ∧ Forall safeCube data
  ∧ length (walls data colorMat) = 2%nat
  ∧ length (adjacentPairs (map norm data)) = 2%nat.
Proof.
  intros data colorMat.
  assert (NoDup (map norm data)) as Hnd.
  { refine (bool_decide_unpack _ _). vm_compute. exact I. }
  assert (Forall safeCube data) as Hsafe by bounded_cubes.
  split; [exact Hnd|]. split; [exact Hsafe|].
  destruct (partitions_one_per_pair data colorMat Hnd Hsafe) as (_ & Hlen & _).
  split; [|reflexivity].
  rewrite Hlen. reflexivity.
Defined.

(** C2 as stated fails on a list that repeats cubes: with the cubes (0,0,0)
    and (1,0,0) listed twice each, the one adjacent pair gets two panels,
    which are neither as many as the pairs of distinct cubes (1) nor as many
    as the pairs of list entries (4), and the same panel occurs twice.  It
    fails also past the safe integers: the one cube [[2^53, 0, 0]] is its
    own neighbour in +x, since [x + 1] is [x] there, and gets a panel though
    the list has no pair at all. *)
Lemma partitions_not_one_per_pair :
  let data := [cube3 0 0 0; cube3 0 0 0; cube3 1 0 0; cube3 1 0 0] in
  let far := [cube3 (2 ^ 53) 0 0] in
  let colorMat := mkMaterial 0xe74c3c FrontSide in
  length (walls data colorMat) = 2%nat
  ∧ length (adjacentPairs (remove_dups (map norm data))) = 1%nat
  ∧ length (adjacentPairs (map norm data)) = 4%nat
  ∧ ¬ NoDup (walls data colorMat)
  ∧ NoDup (map norm far)
  ∧ length (walls far colorMat) = 1%nat
  ∧ length (adjacentPairs (map norm far)) = 0%nat
  ∧ ¬ (∀ data colorMat,
         length (walls data colorMat) = length (adjacentPairs (map norm data)))
  ∧ ¬ (∀ data colorMat,
         NoDup (map norm data) →
         length (walls data colorMat) = length (adjacentPairs (map norm data))).
Proof.
  intros data far colorMat.
  assert (length (walls data colorMat) = 2%nat) as H2 by (vm_compute; reflexivity).
  assert (NoDup (map norm far)) as Hnd.
  { refine (bool_decide_unpack _ _). vm_compute. exact I. }
  assert (length (walls far colorMat) = 1%nat) as H1 by (vm_compute; reflexivity).
  split; [exact H2|].
  split; [vm_compute; reflexivity|].
  split; [vm_compute; reflexivity|].
  split; [|split; [exact Hnd|split; [exact H1|split; [reflexivity|split]]]].
  - assert (walls data colorMat
            = [wallX colorMat (0, 0, 0); wallX colorMat (0, 0, 0)]) as ->
      by (vm_compute; reflexivity).
    intros Hd. apply NoDup_cons in Hd as [Hin _]. apply Hin. left.
  - intros H. specialize (H data colorMat). rewrite H2 in H.
    vm_compute in H. discriminate H.
  - intros H. specialize (H far colorMat Hnd). rewrite H1 in H.
    vm_compute in H. discriminate H.
Qed.

Lemma groupWorld_unrotated pos p : groupWorld pos p = vadd p pos.
Proof. reflexivity. Qed.

(** C5, as amended.  For a pair of cubes of the list adjacent in x at the
    same height (a missing height counting as 0), [(x,z,h)] and
    [(x+1,z,h)], with x from -2^52 up to 2^52 - 1, [addInternalWalls] adds
    a panel whose position in the group it is added to is [(x+0.5, h, z)],
    the midpoint of the two cubes, and whose normal is the x axis: it lies
    in the Y-Z plane.  For a pair adjacent in z, [(x,z,h)] and [(x,z+1,h)],
    with z from -2^52 up to 2^52 - 1, it adds a panel at [(x, h, z+0.5)],
    the midpoint, whose normal is the z axis: it lies in the X-Y plane.  The
    world position is the position in the group moved by the position of
    the group (unrotated, without parent): it is the position above while
    the group is at the origin, as it is when the panel is added. *)
Theorem partition_placement (data : list Cube) (g : list Object3D)
    (colorMat : MeshLambertMaterial) (c c' : Cube) :
  c ∈ data → c' ∈ data →
  default 0 (ch c') = default 0 (ch c) →
  let x := cx c in
  let z := cz c in
  let h := default 0 (ch c) in
  (cx c' = x + 1 → cz c' = z → halfExact x →
     let p := wallX colorMat (x, z, h) in
     let mid := mkVec (inject_Z x + 0.5)%Q (inject_Z h) (inject_Z z) in
     p ∈ addInternalWalls data g colorMat
     ∧ isPanel p = true
     ∧ veq (objPosition p) mid
     ∧ veq mid (midpoint (blockPosition (x, z, h))
                         (blockPosition (cx c', cz c', default 0 (ch c'))))
     ∧ veq (normal p) (mkVec 1 0 0)
     ∧ (∀ pos, veq (groupWorld pos (objPosition p)) (vadd pos mid))
     ∧ veq (groupWorld vec0 (objPosition p)) mid)
  ∧ (cx c' = x → cz c' = z + 1 → halfExact z →
     let p := wallZ colorMat (x, z, h) in
     let mid := mkVec (inject_Z x) (inject_Z h) (inject_Z z + 0.5)%Q in
     p ∈ addInternalWalls data g colorMat
     ∧ isPanel p = true
     ∧ veq (objPosition p) mid
     ∧ veq mid (midpoint (blockPosition (x, z, h))
                         (blockPosition (cx c', cz c', default 0 (ch c'))))
     ∧ veq (normal p) (mkVec 0 0 1)
     ∧ (∀ pos, veq (groupWorld pos (objPosition p)) (vadd pos mid))
     ∧ veq (groupWorld vec0 (objPosition p)) mid).
Proof.
  intros Hc Hc' Hh x z h.
  assert ((x, z, h) ∈ map norm data) as Ha.
  { apply list_elem_of_fmap. by exists c. }
  assert ((cx c', cz c', h) ∈ map norm data) as Hb.
  { apply list_elem_of_fmap. exists c'. split; [|done].
    unfold norm, hdef. by rewrite Hh. }
  split; intros Hx Hz Hhalf p mid; subst p mid; rewrite Hx, Hz, Hh; fold h.
  - rewrite Hx, Hz in Hb. pose proof (jsAddHalf_exact x Hhalf) as Ex.
    assert (veq (objPosition (wallX colorMat (x, z, h)))
                (mkVec (inject_Z x + 0.5)%Q (inject_Z h) (inject_Z z))) as Hpos.
    { unfold veq, wallX, objPosition. cbn [position vx vy vz].
      split; [exact Ex|]. split; reflexivity. }
    split; [|split; [done|split; [done|split; [|split; [done|split]]]]].
    + rewrite addInternalWalls_eq, elem_of_app. right.
      rewrite <- walls_eq. apply elem_of_walls. exists (x, z, h). split; [done|].
      left. split; [|done]. unfold nextX. cbn [fst snd].
      rewrite jsAdd_safe by by apply halfExact_safe. done.
    + unfold veq, midpoint, blockPosition, vscale, vadd.
      cbn [vx vy vz]. rewrite !inject_Z_plus.
      repeat split; field.
    + intros pos. rewrite groupWorld_unrotated. destruct Hpos as (P1 & P2 & P3).
      unfold veq, vadd in *. cbn [vx vy vz] in *. repeat split; lra.
    + rewrite groupWorld_unrotated. destruct Hpos as (P1 & P2 & P3).
      unfold veq, vadd, vec0 in *. cbn [vx vy vz] in *. repeat split; lra.
  - rewrite Hx, Hz in Hb. pose proof (jsAddHalf_exact z Hhalf) as Ez.
    assert (veq (objPosition (wallZ colorMat (x, z, h)))
                (mkVec (inject_Z x) (inject_Z h) (inject_Z z + 0.5)%Q)) as Hpos.
    { unfold veq, wallZ, objPosition. cbn [position vx vy vz].
      split; [reflexivity|]. split; [reflexivity|exact Ez]. }
    split; [|split; [done|split; [done|split; [|split; [done|split]]]]].
    + rewrite addInternalWalls_eq, elem_of_app. right.
      rewrite <- walls_eq. apply elem_of_walls. exists (x, z, h). split; [done|].
      right. split; [|done]. unfold nextZ. cbn [fst snd].
      rewrite jsAdd_safe by by apply halfExact_safe. done.
    + unfold veq, midpoint, blockPosition, vscale, vadd.
      cbn [vx vy vz]. rewrite !inject_Z_plus.
      repeat split; field.
    + intros pos. rewrite groupWorld_unrotated. destruct Hpos as (P1 & P2 & P3).
      unfold veq, vadd in *. cbn [vx vy vz] in *. repeat split; lra.
    + rewrite groupWorld_unrotated. destruct Hpos as (P1 & P2 & P3).
      unfold veq, vadd, vec0 in *. cbn [vx vy vz] in *. repeat split; lra.
Qed.

(** Two cubes at height 1, adjacent in z, in a list with a cube without
    height: the panel is at (0, 1, 0.5). *)
Lemma partition_placement_witness :
  let data := [mkCube 0 0 None; cube3 1 0 0; cube3 0 0 1; cube3 0 1 1] in
  let colorMat := mkMaterial 0xe74c3c FrontSide in
  cube3 0 0 1 ∈ data ∧ cube3 0 1 1 ∈ data ∧ halfExact 0
  ∧ wallZ colorMat (0, 0, 1) ∈ addInternalWalls data [] colorMat
  ∧ veq (objPosition (wallZ colorMat (0, 0, 1))) (mkVec 0 1 0.5%Q).
Proof.
  intros data colorMat.
  assert (cube3 0 0 1 ∈ data) as Ha.
  { do 2 apply list_elem_of_further. apply list_elem_of_here. }
  assert (cube3 0 1 1 ∈ data) as Hb.
  { do 3 apply list_elem_of_further. apply list_elem_of_here. }
  assert (halfExact 0) as Hh by (unfold halfExact; lia).
  split; [exact Ha|]. split; [exact Hb|]. split; [exact Hh|].
  destruct (partition_placement data [] colorMat (cube3 0 0 1) (cube3 0 1 1)
              Ha Hb eq_refl) as [_ Hz].
  destruct (Hz eq_refl eq_refl Hh) as (Hin & _ & Hpos & _).
  split; [exact Hin|exact Hpos].
Defined.

(** *** Piece assembly: what [generateNewPiece] leaves in the store *)

Lemma generateWith_unfold data s :
  generateWith data s =
  mkState (storeAfterGenerate data s) (S (S (next s))) (scene s)
          (Some (next s)) (Some (S (next s)))
          (resetVertical s) (rotationPaused s) (isDragging s)
          (lastX s) (lastY s) (dragDeltaY s).
Proof.
  destruct s as [st nx sc [pc|] [pv|] rv rp dr lx ly dd]; reflexivity.
Qed.

Lemma alter_geo (f : Node → Node) (i : oid) (st : gmap oid Node) (x : oid) :
  (∀ n, geo (f n) = geo n) → geo <$> alter f i st !! x = geo <$> st !! x.
Proof.
  intros Hf. rewrite lookup_alter. case_decide; [subst|done].
  destruct (st !! x); simpl; [|done]. by rewrite Hf.
Qed.

Lemma removeChild_geo (p o : oid) (st : gmap oid Node) (x : oid) :
  geo <$> removeChild p o st !! x = geo <$> st !! x.
Proof.
  unfold removeChild. destruct (st !! p); [|done].
  case_bool_decide; [|done]. by rewrite !alter_geo.
Qed.

Lemma addChild_geo (p o : oid) (st : gmap oid Node) (x : oid) :
  geo <$> addChild p o st !! x = geo <$> st !! x.
Proof.
  unfold addChild. case_bool_decide; [done|].
  rewrite !alter_geo by done.
  destruct (st !! o) as [n|]; [|done].
  destruct (nparent n); [|done]. apply removeChild_geo.
Qed.

Lemma geo_new_piece data s :
  geo <$> storeAfterGenerate data s !! next s
  = Some (KGroup, centeredPosition (pieceChildren data), mkAngles 0 0 0,
          pieceChildren data).
Proof.
  unfold storeAfterGenerate. rewrite !addChild_geo.
  rewrite lookup_insert_ne by lia.
  assert (∀ st : gmap oid Node,
    geo <$> alter (set_nposition (centeredPosition (pieceChildren data))) (next s)
              (alter (set_nmeshes (pieceChildren data)) (next s)
                 (<[next s := freshNode KGroup]> st)) !! next s
    = Some (KGroup, centeredPosition (pieceChildren data), mkAngles 0 0 0,
            pieceChildren data)) as H.
  { intros st. by rewrite !lookup_alter_eq, lookup_insert_eq. }
  destruct (pivot s); [rewrite removeChild_geo|]; apply H.
Qed.

Lemma geo_new_pivot data s :
  geo <$> storeAfterGenerate data s !! S (next s)
  = Some (KGroup, vec0, mkAngles 0 0 0, []).
Proof.
  unfold storeAfterGenerate. rewrite !addChild_geo.
  by rewrite lookup_insert_eq.
Qed.

Lemma pieceObject_generateWith data s :
  pieceObject (generateWith data s)
  = Some (Group (centeredPosition (pieceChildren data)) euler0 (pieceChildren data)).
Proof.
  rewrite generateWith_unfold. unfold pieceObject. cbn [currentPiece store].
  pose proof (geo_new_piece data s) as H.
  destruct (storeAfterGenerate data s !! next s) as [n|]; [|done].
  cbv [fmap option_fmap option_map geo] in H. congruence.
Qed.

Lemma pivotRotation_generateWith data s :
  pivotRotation (generateWith data s) = Some (mkAngles 0 0 0).
Proof.
  rewrite generateWith_unfold.
  change (nrotation <$> storeAfterGenerate data s !! S (next s)
          = Some (mkAngles 0 0 0)).
  pose proof (geo_new_pivot data s) as H.
  destruct (storeAfterGenerate data s !! S (next s)) as [n|]; [|done].
  cbv [fmap option_fmap option_map geo] in H |- *. congruence.
Qed.

Lemma generateNewPiece_total r s :
  validDraw r → ∃ data, pieces !! r = Some data ∧ data ∈ pieces
                        ∧ generateNewPiece r s = Some (generateWith data s).
Proof.
  intros Hr. unfold validDraw in Hr.
  destruct (lookup_lt_is_Some_2 pieces r Hr) as [data Hd].
  exists data. split; [done|]. split; [by eapply list_elem_of_lookup_2|].
  unfold generateNewPiece. by rewrite Hd.
Qed.

(** *** The scene graph across events *)

Lemma removeChild_absent (p o : oid) (st : gmap oid Node) (pn : Node) :
  st !! p = Some pn → o ∉ nchildren pn → removeChild p o st = st.
Proof.
  intros Hp Ho. unfold removeChild. rewrite Hp. by rewrite bool_decide_eq_false_2.
Qed.

Lemma removeChild_present (p o : oid) (st : gmap oid Node) (pn : Node) :
  st !! p = Some pn → o ∈ nchildren pn →
  removeChild p o st
  = alter (set_nchildren (spliceOut o)) p (alter (set_nparent None) o st).
Proof.
  intros Hp Ho. unfold removeChild. rewrite Hp. by rewrite bool_decide_eq_true_2.
Qed.

Lemma addChild_orphan (p o : oid) (st : gmap oid Node) (n : Node) :
  o ≠ p → st !! o = Some n → nparent n = None →
  addChild p o st
  = alter (set_nchildren (λ l, push l o)) p (alter (set_nparent (Some p)) o st).
Proof.
  intros Hne Ho Hn. unfold addChild.
  rewrite bool_decide_eq_false_2 by done. by rewrite Ho, Hn.
Qed.

Lemma geo_old data s (x : oid) :
  x ≠ next s → x ≠ S (next s) →
  geo <$> storeAfterGenerate data s !! x = geo <$> store s !! x.
Proof.
  intros H1 H2. unfold storeAfterGenerate. rewrite !addChild_geo.
  rewrite lookup_insert_ne by done.
  assert (∀ st : gmap oid Node,
    geo <$> alter (set_nposition (centeredPosition (pieceChildren data))) (next s)
              (alter (set_nmeshes (pieceChildren data)) (next s)
                 (<[next s := freshNode KGroup]> st)) !! x
    = geo <$> st !! x) as H.
  { intros st. by rewrite !lookup_alter_ne, lookup_insert_ne. }
  destruct (pivot s); [rewrite removeChild_geo|]; rewrite H;
    destruct (currentPiece s); by rewrite ?removeChild_geo.
Qed.

Lemma storeAfterGenerate_dom data s (x : oid) (n : Node) :
  (∀ o m, store s !! o = Some m → (o < next s)%nat) →
  storeAfterGenerate data s !! x = Some n → (x < S (S (next s)))%nat.
Proof.
  intros Hdom Hx.
  destruct (decide (x = next s)) as [->|H1]; [lia|].
  destruct (decide (x = S (next s))) as [->|H2]; [lia|].
  pose proof (geo_old data s x H1 H2) as Hg. rewrite Hx in Hg.
  destruct (store s !! x) as [m|] eqn:Hm; [|done].
  apply Hdom in Hm. lia.
Qed.

Ltac store_simpl :=
  repeat first
    [ rewrite lookup_alter_eq
    | rewrite lookup_alter_ne by lia
    | rewrite lookup_insert_eq
    | rewrite lookup_insert_ne by lia ].

(** The store after [generateNewPiece], when there was no piece yet. *)
Lemma storeAfterGenerate_first data s (n0 : Node) :
  scene s = 0%nat → (0 < next s)%nat →
  pivot s = None → currentPiece s = None →
  store s !! 0%nat = Some n0 →
  storeAfterGenerate data s
  = alter (set_nchildren (λ l, push l (S (next s)))) 0%nat
      (alter (set_nparent (Some 0%nat)) (S (next s))
        (alter (set_nchildren (λ l, push l (next s))) (S (next s))
          (alter (set_nparent (Some (S (next s)))) (next s)
            (<[S (next s) := freshNode KGroup]>
              (alter (set_nposition (centeredPosition (pieceChildren data))) (next s)
                (alter (set_nmeshes (pieceChildren data)) (next s)
                  (<[next s := freshNode KGroup]> (store s)))))))).
Proof.
  intros Hsc Hnx Hpv Hpc H0. unfold storeAfterGenerate. rewrite Hsc, Hpv, Hpc.
  erewrite (addChild_orphan (S (next s)) (next s)); [|lia|store_simpl; reflexivity|done].
  erewrite (addChild_orphan 0%nat (S (next s))); [|lia|store_simpl; reflexivity|done].
  reflexivity.
Qed.

(** The store after [generateNewPiece], when a piece was mounted. *)
Lemma storeAfterGenerate_next data s (pv pc : oid) :
  scene s = 0%nat →
  pivot s = Some pv → currentPiece s = Some pc →
  mounted s pv pc →
  storeAfterGenerate data s
  = alter (set_nchildren (λ l, push l (S (next s)))) 0%nat
      (alter (set_nparent (Some 0%nat)) (S (next s))
        (alter (set_nchildren (λ l, push l (next s))) (S (next s))
          (alter (set_nparent (Some (S (next s)))) (next s)
            (<[S (next s) := freshNode KGroup]>
              (alter (set_nchildren (spliceOut pv)) 0%nat
                (alter (set_nparent None) pv
                  (alter (set_nposition (centeredPosition (pieceChildren data))) (next s)
                    (alter (set_nmeshes (pieceChildren data)) (next s)
                      (<[next s := freshNode KGroup]> (store s)))))))))).
Proof.
  intros Hsc Hpv Hpc (H3 & Hlt & Hnx & (n0 & H0 & Hch0) & _ & _).
  unfold storeAfterGenerate. rewrite Hsc, Hpv, Hpc.
  rewrite (removeChild_absent 0%nat pc (store s) n0 H0).
  2:{ rewrite Hch0, !elem_of_cons, elem_of_nil. lia. }
  erewrite (removeChild_present 0%nat pv); [|store_simpl; exact H0|].
  2:{ rewrite Hch0, !elem_of_cons. auto. }
  erewrite (addChild_orphan (S (next s)) (next s)); [|lia|store_simpl; reflexivity|done].
  erewrite (addChild_orphan 0%nat (S (next s))); [|lia|store_simpl; reflexivity|done].
  reflexivity.
Qed.

Lemma spliceOut_pivot (pv : oid) :
  (3 < pv)%nat → spliceOut pv [1; 2; 3; pv]%nat = [1; 2; 3]%nat.
Proof.
  intros H. unfold spliceOut.
  rewrite !bool_decide_eq_false_2 by lia. by rewrite bool_decide_eq_true_2.
Qed.

Lemma mounted_generateWith data s :
  shape s → mounted (generateWith data s) (S (next s)) (next s).
Proof.
  intros (Hsc & Hnx & Hdom & Hbase & Hm). rewrite generateWith_unfold.
  unfold mounted. cbn [store next].
  split; [lia|]. split; [lia|]. split; [lia|].
  destruct (pivot s) as [pv|] eqn:Hpv, (currentPiece s) as [pc|] eqn:Hpc; try done.
  - pose proof Hm as (H3 & Hlt & Hpvn & (n0 & H0 & Hch0) & _ & _).
    rewrite (storeAfterGenerate_next data s pv pc Hsc Hpv Hpc Hm).
    split; [|split].
    + store_simpl. rewrite H0. eexists. split; [reflexivity|].
      cbn [set_nchildren nchildren fmap option_fmap option_map].
      rewrite Hch0, spliceOut_pivot by lia. reflexivity.
    + store_simpl. eexists. split; [reflexivity|]. done.
    + store_simpl. eexists. split; [reflexivity|]. done.
  - destruct Hm as (n0 & H0 & Hch0).
    rewrite (storeAfterGenerate_first data s n0 Hsc ltac:(lia) Hpv Hpc H0).
    split; [|split].
    + store_simpl. rewrite H0. eexists. split; [reflexivity|].
      cbn [set_nchildren nchildren fmap option_fmap option_map].
      rewrite Hch0. reflexivity.
    + store_simpl. eexists. split; [reflexivity|]. done.
    + store_simpl. eexists. split; [reflexivity|]. done.
Qed.

Lemma hang_old data s (x : oid) :
  shape s → x ≠ 0%nat → (x < next s)%nat →
  pivot s ≠ Some x →
  hang <$> storeAfterGenerate data s !! x = hang <$> store s !! x.
Proof.
  intros Hsh Hx0 Hxn Hxp. pose proof Hsh as (Hsc & Hnx & Hdom & Hbase & Hm).
  destruct (pivot s) as [pv|] eqn:Hpv, (currentPiece s) as [pc|] eqn:Hpc; try done.
  - rewrite (storeAfterGenerate_next data s pv pc Hsc Hpv Hpc Hm).
    assert (pv ≠ x) by congruence.
    rewrite !lookup_alter_ne, lookup_insert_ne, !lookup_alter_ne, lookup_insert_ne
      by lia. done.
  - destruct Hm as (n0 & H0 & Hch0).
    rewrite (storeAfterGenerate_first data s n0 Hsc ltac:(lia) Hpv Hpc H0).
    rewrite !lookup_alter_ne, lookup_insert_ne, !lookup_alter_ne, lookup_insert_ne
      by lia. done.
Qed.

Lemma shape_generateWith data s : shape s → shape (generateWith data s).
Proof.
  intros Hsh. pose proof (mounted_generateWith data s Hsh) as Hmt.
  pose proof Hsh as (Hsc & Hnx & Hdom & Hbase & Hm).
  rewrite generateWith_unfold in *. unfold shape. cbn [store next scene pivot currentPiece].
  split; [done|]. split; [lia|]. split; [|split; [|done]].
  - intros o n Ho. by eapply storeAfterGenerate_dom.
  - intros b Hb. destruct (Hbase b Hb) as (n & Hn & Hch & Hk).
    assert (b ≠ 0 ∧ b < next s)%nat as [Hb0 Hbn].
    { rewrite !elem_of_cons, elem_of_nil in Hb. lia. }
    assert (pivot s ≠ Some b) as Hbp.
    { intros Hpv. rewrite Hpv in Hm. destruct (currentPiece s); [|done].
      destruct Hm as (? & ? & _). rewrite !elem_of_cons, elem_of_nil in Hb. lia. }
    pose proof (hang_old data s b Hsh Hb0 Hbn Hbp) as Hh. rewrite Hn in Hh.
    destruct (storeAfterGenerate data s !! b) as [n'|]; [|done].
    exists n'. split; [done|].
    cbv [fmap option_fmap option_map hang] in Hh. split; congruence.
Qed.

Lemma alter_hang (f : Node → Node) (i : oid) (st : gmap oid Node) (x : oid) :
  (∀ n, hang (f n) = hang n) → hang <$> alter f i st !! x = hang <$> st !! x.
Proof.
  intros Hf. rewrite lookup_alter. case_decide; [subst|done].
  destruct (st !! x); simpl; [|done]. by rewrite Hf.
Qed.

(** A state with the same graph has the same shape. *)
Lemma shape_same_graph s s' :
  (∀ x : oid, hang <$> store s' !! x = hang <$> store s !! x) →
  next s' = next s → scene s' = scene s →
  pivot s' = pivot s → currentPiece s' = currentPiece s →
  shape s → shape s'.
Proof.
  intros Hst Hnx Hsc Hpv Hpc (H1 & H2 & Hdom & Hbase & Hm).
  assert (∀ (x : oid) (n : Node), store s !! x = Some n →
            ∃ n', store s' !! x = Some n' ∧ nkind n' = nkind n
                  ∧ nparent n' = nparent n ∧ nchildren n' = nchildren n) as Hfw.
  { intros x n Hx. specialize (Hst x). rewrite Hx in Hst.
    destruct (store s' !! x) as [n'|]; [|done]. exists n'.
    cbv [fmap option_fmap option_map hang] in Hst. repeat split; congruence. }
  unfold shape, mounted in *. rewrite Hnx, Hsc, Hpv, Hpc.
  split; [done|]. split; [done|]. split; [|split].
  - intros o n Ho. specialize (Hst o). rewrite Ho in Hst.
    destruct (store s !! o) as [m|] eqn:Hm'; [|done]. by eapply Hdom.
  - intros b Hb. destruct (Hbase b Hb) as (n & Hn & Hch & Hk).
    destruct (Hfw b n Hn) as (n' & Hn' & Hk' & _ & Hc'). exists n'.
    split; [done|]. split; congruence.
  - destruct (pivot s) as [pv|], (currentPiece s) as [pc|]; try done.
    + destruct Hm as (? & ? & ? & (n0 & H0 & Hc0) & (nv & Hv & Hcv & Hkv & Hpvv)
                      & (np & Hp & Hcp & Hkp & Hpp)).
      destruct (Hfw _ _ H0) as (n0' & -> & ? & ? & ?).
      destruct (Hfw _ _ Hv) as (nv' & -> & ? & ? & ?).
      destruct (Hfw _ _ Hp) as (np' & -> & ? & ? & ?).
      repeat split; try done; eexists; (split; [reflexivity|]);
        repeat split; congruence.
    + destruct Hm as (n0 & H0 & Hc0).
      destruct (Hfw _ _ H0) as (n0' & -> & ? & ? & ?).
      eexists. split; [reflexivity|]. congruence.
Qed.

Lemma shape_sameGraph s s' : sameGraph s s' → shape s → shape s'.
Proof. intros (? & ? & ? & ? & ?). by apply shape_same_graph. Qed.

Lemma animate_sameGraph s : sameGraph s (animate s).
Proof.
  unfold sameGraph, animate.
  destruct s as [st nx sc pc [pv|] rv rp dr lx ly dd]; cbn; [|done].
  destruct dr, rp, rv; cbn; try done;
    repeat case_match; cbn; repeat split; try done;
    intros x; by rewrite ?alter_hang.
Qed.

Lemma onTouchStart_sameGraph x y s : sameGraph s (onTouchStart x y s).
Proof. done. Qed.

Lemma onTouchMove_sameGraph x y s : sameGraph s (onTouchMove x y s).
Proof.
  unfold sameGraph, onTouchMove.
  destruct s as [st nx sc pc [pv|] rv rp dr lx ly dd]; cbn; [|done].
  destruct dr; cbn; repeat split; try done.
  intros z. by rewrite ?alter_hang.
Qed.

Lemma onTouchEnd_sameGraph s : sameGraph s (onTouchEnd s).
Proof. done. Qed.

Lemma onPauseClick_sameGraph s : sameGraph s (onPauseClick s).
Proof. done. Qed.

Lemma shape_initScene : shape initScene.
Proof.
  unfold shape. split; [reflexivity|]. split; [vm_compute; lia|].
  split; [|split].
  - apply map_Forall_lookup. refine (bool_decide_unpack _ _). vm_compute. exact I.
  - intros b Hb. rewrite !elem_of_cons, elem_of_nil in Hb.
    destruct Hb as [->|[->|[->|[]]]]; eexists; (split; [vm_compute; reflexivity|]);
      split; done.
  - cbn. eexists. split; [vm_compute; reflexivity|]. reflexivity.
Qed.

Lemma shape_step e s s' : shape s → step e s = Some s' → shape s'.
Proof.
  intros Hsh Hstep. destruct e as [r| |x y|x y| |]; cbn in Hstep.
  - unfold generateNewPiece in Hstep. destruct (pieces !! r); [|done].
    simplify_eq. by apply shape_generateWith.
  - simplify_eq. eapply shape_sameGraph; [apply animate_sameGraph|done].
  - simplify_eq. eapply shape_sameGraph; [apply onTouchStart_sameGraph|done].
  - simplify_eq. eapply shape_sameGraph; [apply onTouchMove_sameGraph|done].
  - simplify_eq. eapply shape_sameGraph; [apply onTouchEnd_sameGraph|done].
  - simplify_eq. eapply shape_sameGraph; [apply onPauseClick_sameGraph|done].
Qed.

Lemma shape_run es s s' : shape s → run es s = Some s' → shape s'.
Proof.
  revert s. induction es as [|e es IH]; intros s Hsh Hrun; cbn in Hrun.
  - by simplify_eq.
  - destruct (step e s) as [s1|] eqn:Hstep; [|done].
    eapply IH; [|done]. by eapply shape_step.
Qed.

Lemma shape_reachable s : reachable s → shape s.
Proof. intros [es Hes]. eapply shape_run; [apply shape_initScene|done]. Qed.

(** What hangs below the scene when a piece is mounted. *)
Lemma attached_mounted s pv pc :
  shape s → pivot s = Some pv → currentPiece s = Some pc →
  ∀ o, attached s o ↔ o ∈ [1; 2; 3; pv; pc]%nat.
Proof.
  intros (Hsc & Hnx & Hdom & Hbase & Hm) Hpv Hpc. rewrite Hpv, Hpc in Hm.
  destruct Hm as (H3 & Hlt & Hpvn & (n0 & H0 & Hc0) & (nv & Hv & Hcv & Hkv & Hpvv)
                  & (np & Hp & Hcp & Hkp & Hpp)).
  assert (childrenOf s 0%nat = [1; 2; 3; pv]%nat) as Hch0
    by (unfold childrenOf; by rewrite H0).
  assert (childrenOf s pv = [pc]) as Hchv by (unfold childrenOf; by rewrite Hv).
  assert (childrenOf s pc = []) as Hchp by (unfold childrenOf; by rewrite Hp).
  assert (∀ b, b ∈ [1; 2; 3]%nat → childrenOf s b = []) as Hchb.
  { intros b Hb. destruct (Hbase b Hb) as (n & Hn & Hc & _).
    unfold childrenOf. by rewrite Hn. }
  intros o. split.
  - induction 1 as [o Ho|p o Hp' IH Ho].
    + rewrite Hsc, Hch0 in Ho. rewrite !elem_of_cons, elem_of_nil in *. tauto.
    + rewrite !elem_of_cons, elem_of_nil in IH.
      destruct IH as [->|[->|[->|[->|[->|[]]]]]].
      * rewrite Hchb in Ho; [by apply elem_of_nil in Ho|]. by left.
      * rewrite Hchb in Ho; [by apply elem_of_nil in Ho|]. right. by left.
      * rewrite Hchb in Ho; [by apply elem_of_nil in Ho|]. right. right. by left.
      * rewrite Hchv in Ho. apply list_elem_of_singleton in Ho as ->.
        rewrite !elem_of_cons. tauto.
      * rewrite Hchp in Ho. by apply elem_of_nil in Ho.
  - rewrite !elem_of_cons, elem_of_nil.
    assert (∀ b, b ∈ [1; 2; 3; pv]%nat → attached s b) as Htop.
    { intros b Hb. apply attached_child. by rewrite Hsc, Hch0. }
    intros [->|[->|[->|[->|[->|[]]]]]]; try (apply Htop; rewrite !elem_of_cons; tauto).
    apply (attached_below s pv); [apply Htop; rewrite !elem_of_cons; tauto|].
    rewrite Hchv. by left.
Qed.

Lemma generateMany_app rs1 rs2 s :
  generateMany (rs1 ++ rs2) s
  = match generateMany rs1 s with
    | Some s1 => generateMany rs2 s1
    | None => None
    end.
Proof.
  unfold generateMany. revert s.
  induction rs1 as [|r rs1 IH]; intros s; cbn; [done|].
  destruct (generateNewPiece r s); [apply IH|done].
Qed.

(** After at least one call, the current piece and its pivot are objects
    created by the last call. *)
Lemma generateMany_last rs s :
  rs ≠ [] → Forall validDraw rs → shape s →
  ∃ s', generateMany rs s = Some s' ∧ shape s'
        ∧ ∃ pv pc, pivot s' = Some pv ∧ currentPiece s' = Some pc
                   ∧ mounted s' pv pc ∧ (next s ≤ pc)%nat ∧ pv = S pc.
Proof.
  revert s. induction rs as [|r rs IH]; intros s Hne Hall Hsh; [done|].
  apply Forall_cons in Hall as [Hr Hall].
  destruct (generateNewPiece_total r s Hr) as (data & _ & _ & Hgen).
  unfold generateMany. cbn. rewrite Hgen.
  pose proof (shape_generateWith data s Hsh) as Hsh1.
  destruct rs as [|r' rs].
  - eexists. split; [reflexivity|]. split; [done|].
    exists (S (next s)), (next s).
    pose proof (mounted_generateWith data s Hsh) as Hmt.
    rewrite generateWith_unfold in *. cbn [pivot currentPiece next].
    split; [done|]. split; [done|]. split; [exact Hmt|]. split; [lia|done].
  - destruct (IH (generateWith data s) ltac:(done) Hall Hsh1)
      as (s' & Hrun & Hsh' & pv & pc & Hpv & Hpc & Hmt & Hle & Hpvc).
    exists s'. split; [exact Hrun|]. split; [done|].
    exists pv, pc. split; [done|]. split; [done|]. split; [done|]. split; [|done].
    rewrite generateWith_unfold in Hle. cbn [next] in Hle. lia.
Qed.

(** [scene.remove(currentPiece)] finds nothing to remove: the piece hangs
    under its pivot, not under the scene. *)
Lemma scene_remove_piece s pc :
  shape s → currentPiece s = Some pc →
  removeChild (scene s) pc (store s) = store s.
Proof.
  intros (Hsc & _ & _ & _ & Hm) Hpc. rewrite Hpc in Hm.
  destruct (pivot s) as [pv|]; [|done].
  destruct Hm as (H3 & Hlt & _ & (n0 & H0 & Hc0) & _).
  rewrite Hsc. apply (removeChild_absent _ _ _ n0 H0).
  rewrite Hc0, !elem_of_cons, elem_of_nil. lia.
Qed.

(** *** Bounding boxes move with the object *)

Section Centering.

Open Scope Q_scope.

Lemma veq_refl a : veq a a.
Proof. unfold veq. repeat split; reflexivity. Qed.

Lemma veq_trans a b c : veq a b → veq b c → veq a c.
Proof.
  unfold veq. intros (H1 & H2 & H3) (H4 & H5 & H6).
  repeat split; etransitivity; eassumption.
Qed.

Lemma vmin_shift a b a' b' v :
  veq a' (vadd a v) → veq b' (vadd b v) → veq (vmin a' b') (vadd (vmin a b) v).
Proof.
  unfold veq, vmin, vadd. cbn [vx vy vz].
  intros (H1 & H2 & H3) (H4 & H5 & H6).
  repeat split; rewrite <- Q.plus_min_distr_r; by apply Q.min_compat.
Qed.

Lemma vmax_shift a b a' b' v :
  veq a' (vadd a v) → veq b' (vadd b v) → veq (vmax a' b') (vadd (vmax a b) v).
Proof.
  unfold veq, vmax, vadd. cbn [vx vy vz].
  intros (H1 & H2 & H3) (H4 & H5 & H6).
  repeat split; rewrite <- Q.plus_max_distr_r; by apply Q.max_compat.
Qed.

Lemma expandByPoint_shift b b' p p' v :
  beq b' (bshift v b) → veq p' (vadd p v) →
  beq (Box3.expandByPoint b' p') (bshift v (Box3.expandByPoint b p)).
Proof.
  destruct b as [[lo hi]|], b' as [[lo' hi']|]; cbn; try done.
  intros [Hlo Hhi] Hp. split; [by apply vmin_shift|by apply vmax_shift].
Qed.

Lemma expandByPoints_shift ps (m m' : Vector3 → Vector3) b b' v :
  (∀ p, veq (m' p) (vadd (m p) v)) → beq b' (bshift v b) →
  beq (fold_left Box3.expandByPoint (map m' ps) b')
      (bshift v (fold_left Box3.expandByPoint (map m ps) b)).
Proof.
  intros Hm. revert b b'. induction ps as [|p ps IH]; intros b b' Hb; cbn; [done|].
  apply IH. by apply expandByPoint_shift.
Qed.

Lemma applyMatrix4_shift (m m' : Vector3 → Vector3) g v :
  (∀ p, veq (m' p) (vadd (m p) v)) →
  beq (Box3.applyMatrix4 m' g) (bshift v (Box3.applyMatrix4 m g)).
Proof. intros Hm. unfold Box3.applyMatrix4. by apply expandByPoints_shift. Qed.

Lemma union_shift a a' b b' v :
  beq a' (bshift v a) → beq b' (bshift v b) →
  beq (Box3.union a' b') (bshift v (Box3.union a b)).
Proof.
  destruct a as [[lo hi]|], a' as [[lo' hi']|], b as [[l h]|], b' as [[l' h']|];
    cbn; try done.
  intros [H1 H2] [H3 H4]. split; [by apply vmin_shift|by apply vmax_shift].
Qed.

Lemma Object3D_nested_ind (P : Object3D → Prop) :
  (∀ m, P (MeshObj m)) →
  (∀ pos rot ch, Forall P ch → P (Group pos rot ch)) →
  ∀ o, P o.
Proof.
  intros Hm Hg. fix IH 1. intros [pos rot ch|m]; [|apply Hm].
  apply Hg. induction ch as [|c ch IHch]; constructor; [apply IH|apply IHch].
Qed.

(** If the world matrix of the parent is moved by [v], so is the box. *)
Lemma expandByObject_shift o :
  ∀ (w w' : Vector3 → Vector3) b b' v,
    (∀ p, veq (w' p) (vadd (w p) v)) → beq b' (bshift v b) →
    beq (Box3.expandByObject w' o b') (bshift v (Box3.expandByObject w o b)).
Proof.
  induction o as [m|pos rot ch IH] using Object3D_nested_ind; intros w w' b b' v Hw Hb.
  - cbn [Box3.expandByObject]. apply union_shift; [exact Hb|].
    apply (applyMatrix4_shift
             (λ p, w (localMatrix (position m) (rotation m) p))
             (λ p, w' (localMatrix (position m) (rotation m) p))).
    intros p. apply Hw.
  - cbn [Box3.expandByObject]. revert b b' Hb.
    induction IH as [|c ch Hc _ IHch]; intros b b' Hb; cbn [fold_left]; [exact Hb|].
    apply IHch.
    apply (Hc (λ p, w (localMatrix pos rot p)) (λ p, w' (localMatrix pos rot p)));
      [|exact Hb].
    intros p. apply Hw.
Qed.

Lemma getCenter_shift b b' v :
  b ≠ None → beq b' (bshift v b) →
  veq (Box3.getCenter b') (vadd (Box3.getCenter b) v).
Proof.
  destruct b as [[lo hi]|], b' as [[lo' hi']|]; cbn; try done.
  unfold veq, vscale, vadd. cbn [vx vy vz].
  intros _ [(H1 & H2 & H3) (H4 & H5 & H6)].
  rewrite H1, H2, H3, H4, H5, H6. repeat split; field.
Qed.

(** Whatever the children of a group, moving the group by the negative of
    the centre of its bounding box puts the centre at the origin. *)
Lemma centered_group ch :
  veq (Box3.getCenter (Box3.setFromObject (Group (centeredPosition ch) euler0 ch)))
      vec0.
Proof.
  unfold centeredPosition.
  set (b := Box3.setFromObject (Group vec0 euler0 ch)).
  set (v := vsub vec0 (Box3.getCenter b)).
  assert (beq (Box3.setFromObject (Group v euler0 ch)) (bshift v b)) as Hb.
  { unfold b, Box3.setFromObject. cbn [Box3.expandByObject].
    assert (∀ cs b1 b2, beq b2 (bshift v b1) →
      beq (fold_left (λ b c, Box3.expandByObject (λ p, localMatrix v euler0 p) c b) cs b2)
          (bshift v (fold_left
             (λ b c, Box3.expandByObject (λ p, localMatrix vec0 euler0 p) c b) cs b1)))
      as Hfold.
    { induction cs as [|c cs IH]; intros b1 b2 H12; cbn [fold_left]; [done|].
      apply IH.
      apply (expandByObject_shift c (λ p, localMatrix vec0 euler0 p)
                                    (λ p, localMatrix v euler0 p)); [|exact H12].
      intros p. unfold localMatrix, veq, vadd, vec0. cbn [vx vy vz].
      repeat split; ring. }
    apply Hfold. exact I. }
  destruct b as [[lo hi]|] eqn:Hbe.
  - eapply veq_trans; [apply (getCenter_shift (Some (lo, hi))); [done|exact Hb]|].
    unfold v, veq, vsub, vadd, vec0. cbn [vx vy vz]. repeat split; ring.
  - destruct (Box3.setFromObject (Group v euler0 ch)) as [[lo hi]|]; [done|].
    apply veq_refl.
Qed.

End Centering.

(** *** Piece assembly *)

(** The I piece: its bounding box spans the four blocks and the half
    thickness of the bars (0.025 as a Float32, which is
    13421773 / 2^29), and the translation is by (-1.5, 0, 0). *)
Example centre_of_I :
  Box3.setFromObject (Group vec0 euler0 (pieceChildren [cube3 0 0 0; cube3 1 0 0; cube3 2 0 0; cube3 3 0 0]))
  = Some (mkVec (-5637144580 # 10737418240) (-5637144580 # 10737418240)
                (-5637144580 # 10737418240),
          mkVec (37849399300 # 10737418240) (5637144580 # 10737418240)
                (5637144580 # 10737418240))
  ∧ veq (centeredPosition (pieceChildren [cube3 0 0 0; cube3 1 0 0; cube3 2 0 0; cube3 3 0 0]))
        (mkVec (-1.5) 0 0).
Proof. split; [vm_compute; reflexivity|]. vm_compute. repeat split; reflexivity. Qed.

(** C6.  For every piece of the catalog that the random draw can choose,
    [generateNewPiece] returns, and the piece it leaves, moved by the
    negative of the centre of the bounding box of its blocks and partitions,
    has a bounding box centred at the origin.  Lengths are exact rationals
    here and the rotations exact quarter turns, so the centre is the origin
    exactly. *)
Theorem centering_at_origin (r : nat) (s : State) :
  validDraw r →
  ∃ s' g data,
    pieces !! r = Some data
    ∧ generateNewPiece r s = Some s'
    ∧ pieceObject s' = Some g
    ∧ g = Group (vsub vec0 (Box3.getCenter
                              (Box3.setFromObject (Group vec0 euler0 (pieceChildren data)))))
                euler0 (pieceChildren data)
    ∧ veq (Box3.getCenter (Box3.setFromObject g)) vec0.
Proof.
  intros Hr. destruct (generateNewPiece_total r s Hr) as (data & Hd & Hin & Hgen).
  eexists _, _, data. split; [exact Hd|]. split; [exact Hgen|].
  split; [apply pieceObject_generateWith|]. split; [reflexivity|].
  apply centered_group.
Qed.

Lemma centering_at_origin_witness :
  validDraw 5 ∧
  ∃ s' g, generateNewPiece 5 initScene = Some s'
          ∧ pieceObject s' = Some g
          ∧ veq (Box3.getCenter (Box3.setFromObject g)) vec0.
Proof.
  assert (validDraw 5) as Hr by (unfold validDraw; simpl; lia).
  split; [exact Hr|].
  destruct (centering_at_origin 5 initScene Hr) as (s' & g & data & _ & H1 & H2 & _ & H3).
  exists s', g. auto.
Defined.

Lemma blockStep_loop occ3D material data g :
  fold_left (blockStep occ3D material) data g
  = g ++ map (λ c, set_gposition
                     (createBlock (exposedFacesFor (mkCube (cx c) (cz c) (Some (hdef c)))
                                                   occ3D) material)
                     (blockPosition (norm c))) data.
Proof.
  revert g. induction data as [|c data IH]; intros g; cbn [fold_left map].
  - by rewrite app_nil_r.
  - rewrite IH. unfold blockStep, push. by rewrite <- app_assoc.
Qed.

(** The piece is one block per cube, in the order of the list, followed by
    the partitions. *)
Lemma pieceChildren_eq data :
  pieceChildren data
  = map (λ c, set_gposition
                (createBlock (exposedFacesFor (mkCube (cx c) (cz c) (Some (hdef c)))
                                              (occupancy data))
                             (mkMaterial 0xe74c3c FrontSide))
                (blockPosition (norm c))) data
    ++ walls data (mkMaterial 0xe74c3c FrontSide).
Proof.
  unfold pieceChildren, walls. rewrite !addInternalWalls_eq, blockStep_loop. done.
Qed.

(** C8.  For a fixed piece definition, the piece that the generation leaves
    does not depend on the state it starts from: two invocations, from any
    two states or one after the other, leave the same object, with the same
    position after centring and the same children.  The children are the
    blocks of the cubes, each built from the exposed faces of its cube, and
    the partitions; with them the bar and panel counts, the partition
    positions and the bounding box are the same. *)
Theorem generation_deterministic (data : list Cube) (s1 s2 : State) :
  let g := Group (centeredPosition (pieceChildren data)) euler0 (pieceChildren data) in
  pieceObject (generateWith data s1) = Some g
  ∧ pieceObject (generateWith data s2) = Some g
  ∧ pieceObject (generateWith data (generateWith data s1)) = Some g
  ∧ Box3.setFromObject <$> pieceObject (generateWith data s1)
    = Box3.setFromObject <$> pieceObject (generateWith data s2)
  ∧ pieceChildren data
    = map (λ c, set_gposition
                  (createBlock (exposedFacesFor (mkCube (cx c) (cz c) (Some (hdef c)))
                                                (occupancy data))
                               (mkMaterial 0xe74c3c FrontSide))
                  (blockPosition (norm c))) data
      ++ walls data (mkMaterial 0xe74c3c FrontSide).
Proof.
  intros g. rewrite !pieceObject_generateWith.
  repeat split; try reflexivity. apply pieceChildren_eq.
Qed.

(** C7.  From any state the program reaches, after N >= 1 successive calls
    of [generateNewPiece] the groups that hang below the scene are exactly
    the pivot and the current piece, the piece as the only child of the
    pivot and the pivot as a child of the scene; both were created by the
    last call, and the piece and the pivot of the state before each of the
    calls no longer hang below the scene. *)
Theorem single_current_piece (s0 : State) (rs : list nat) :
  reachable s0 → rs ≠ [] → Forall validDraw rs →
  ∃ s pv pc,
    generateMany rs s0 = Some s
    ∧ pivot s = Some pv ∧ currentPiece s = Some pc ∧ pv ≠ pc
    ∧ (∀ o, attached s o ∧ isGroup s o = true ↔ o = pv ∨ o = pc)
    ∧ pv ∈ childrenOf s (scene s) ∧ childrenOf s pv = [pc]
    ∧ (∀ n, descendants (S (S n)) s (scene s) = [1; 2; 3; pv; pc]%nat)
    ∧ (∀ k sk, (k < length rs)%nat → generateMany (take k rs) s0 = Some sk →
         store sk !! pv = None ∧ store sk !! pc = None
         ∧ (∀ p, currentPiece sk = Some p → ¬ attached s p)
         ∧ (∀ v, pivot sk = Some v → ¬ attached s v)).
Proof.
  intros Hreach Hne Hall. pose proof (shape_reachable s0 Hreach) as Hsh0.
  destruct (generateMany_last rs s0 Hne Hall Hsh0)
    as (s & Hrun & Hsh & pv & pc & Hpv & Hpc & Hmt & Hle & ->).
  exists s, (S pc), pc. split; [exact Hrun|]. split; [done|]. split; [done|].
  split; [lia|].
  pose proof (attached_mounted s (S pc) pc Hsh Hpv Hpc) as Hatt.
  pose proof Hsh as (Hsc & Hnx & Hdom & Hbase & _).
  pose proof Hmt as (H3 & _ & Hpvn & (n0 & H0 & Hc0) & (nv & Hv & Hcv & Hkv & Hpvv)
                     & (np & Hp & Hcp & Hkp & Hpp)).
  assert (childrenOf s 0%nat = [1; 2; 3; S pc]%nat) as Hch0
    by (unfold childrenOf; by rewrite H0).
  assert (childrenOf s (S pc) = [pc]) as Hchv by (unfold childrenOf; by rewrite Hv).
  assert (childrenOf s pc = []) as Hchp by (unfold childrenOf; by rewrite Hp).
  assert (∀ b, b ∈ [1; 2; 3]%nat → childrenOf s b = [] ∧ isGroup s b = false) as Hchb.
  { intros b Hb. destruct (Hbase b Hb) as (n & Hn & Hc & Hk).
    unfold childrenOf, isGroup. rewrite Hn. split; [done|]. by destruct (nkind n). }
  split; [|split; [|split; [|split]]].
  - intros o. rewrite Hatt, !elem_of_cons, elem_of_nil. split.
    + intros [[->|[->|[->|[->|[->|[]]]]]] Hg]; auto; exfalso;
        match goal with
        | Hg : isGroup s ?b = true |- _ =>
            destruct (Hchb b) as [_ Hf]; [rewrite !elem_of_cons; tauto|congruence]
        end.
    + unfold isGroup. intros [->| ->].
      * rewrite Hv, Hkv. tauto.
      * rewrite Hp, Hkp. tauto.
  - rewrite Hsc, Hch0, !elem_of_cons. tauto.
  - done.
  - intros n.
    assert (∀ m b, b ∈ [1; 2; 3; pc]%nat → descendants m s b = []) as Hleaf.
    { intros [|m] b Hb; [done|]. cbn [descendants].
      apply elem_of_cons in Hb as [->|Hb];
        [destruct (Hchb 1%nat) as [-> _]; [rewrite !elem_of_cons; tauto|done]|].
      apply elem_of_cons in Hb as [->|Hb];
        [destruct (Hchb 2%nat) as [-> _]; [rewrite !elem_of_cons; tauto|done]|].
      apply elem_of_cons in Hb as [->|Hb];
        [destruct (Hchb 3%nat) as [-> _]; [rewrite !elem_of_cons; tauto|done]|].
      apply list_elem_of_singleton in Hb as ->. by rewrite Hchp. }
    rewrite Hsc.
    change (descendants (S (S n)) s 0%nat)
      with (flat_map (λ c, c :: descendants (S n) s c) (childrenOf s 0%nat)).
    rewrite Hch0. cbn [flat_map].
    change (descendants (S n) s (S pc))
      with (flat_map (λ c, c :: descendants n s c) (childrenOf s (S pc))).
    rewrite Hchv. cbn [flat_map].
    rewrite !Hleaf by (rewrite !elem_of_cons; tauto). reflexivity.
  - intros k sk Hk Hsk.
    assert (shape sk) as Hshk.
    { eapply shape_run; [exact Hsh0|]. exact Hsk. }
    assert (drop k rs ≠ []) as Hdrop.
    { intros Hnil. apply (f_equal length) in Hnil.
      rewrite length_drop in Hnil. simpl in Hnil. lia. }
    assert (Forall validDraw (drop k rs)) as Halld by by apply Forall_drop.
    destruct (generateMany_last (drop k rs) sk Hdrop Halld Hshk)
      as (s' & Hrun' & _ & pv' & pc' & Hpv' & Hpc' & _ & Hle' & ->).
    assert (s' = s) as ->.
    { rewrite <- (take_drop k rs), generateMany_app, Hsk, Hrun' in Hrun. congruence. }
    assert (pc' = pc) as -> by congruence.
    pose proof Hshk as (_ & _ & Hdomk & _ & Hmk).
    split; [|split; [|split]].
    + destruct (store sk !! S pc) as [n|] eqn:Hn; [|done].
      apply Hdomk in Hn. lia.
    + destruct (store sk !! pc) as [n|] eqn:Hn; [|done].
      apply Hdomk in Hn. lia.
    + intros p Hp'. rewrite Hatt, !elem_of_cons, elem_of_nil.
      rewrite Hp' in Hmk. destruct (pivot sk) as [v|]; [|done].
      destruct Hmk as (? & ? & ? & _). lia.
    + intros v Hv'. rewrite Hatt, !elem_of_cons, elem_of_nil.
      rewrite Hv' in Hmk. destruct (currentPiece sk) as [p|]; [|done].
      destruct Hmk as (? & ? & ? & _). lia.
Qed.

Lemma single_current_piece_witness :
  reachable initScene ∧ [0; 3; 6]%nat ≠ [] ∧ Forall validDraw [0; 3; 6]%nat
  ∧ ∃ s pv pc,
      generateMany [0; 3; 6]%nat initScene = Some s
      ∧ pivot s = Some pv ∧ currentPiece s = Some pc
      ∧ descendants 3 s (scene s) = [1; 2; 3; pv; pc]%nat.
Proof.
  assert (reachable initScene) as H1 by (exists []; reflexivity).
  assert ([0; 3; 6]%nat ≠ []) as H2 by discriminate.
  assert (Forall validDraw [0; 3; 6]%nat) as H3.
  { unfold validDraw. simpl. repeat constructor; lia. }
  split; [exact H1|]. split; [exact H2|]. split; [exact H3|].
  destruct (single_current_piece initScene [0; 3; 6]%nat H1 H2 H3)
    as (s & pv & pc & Hrun & Hpv & Hpc & _ & _ & _ & _ & Hdesc & _).
  exists s, pv, pc. split; [exact Hrun|]. split; [exact Hpv|].
  split; [exact Hpc|]. exact (Hdesc 1%nat).
Defined.

(** C10.  In every state the program reaches, whatever the rotation that
    drags and frames have given to the pivot, [generateNewPiece] mounts the
    new piece as the only child of a pivot that did not exist before the
    call and whose rotation is zero about every axis. *)
Theorem new_pivot_unrotated (s : State) (r : nat) :
  reachable s → validDraw r →
  ∃ s' pv pc,
    generateNewPiece r s = Some s'
    ∧ pivot s' = Some pv ∧ currentPiece s' = Some pc
    ∧ store s !! pv = None ∧ pivot s ≠ Some pv
    ∧ pivotRotation s' = Some (mkAngles 0 0 0)
    ∧ nrotation <$> store s' !! pc = Some (mkAngles 0 0 0)
    ∧ childrenOf s' pv = [pc]
    ∧ pv ∈ childrenOf s' (scene s')
    ∧ (∀ v, pivot s = Some v → ¬ attached s' v).
Proof.
  intros Hreach Hr. pose proof (shape_reachable s Hreach) as Hsh.
  destruct (generateNewPiece_total r s Hr) as (data & _ & _ & Hgen).
  pose proof (shape_generateWith data s Hsh) as Hsh'.
  pose proof (mounted_generateWith data s Hsh) as Hmt.
  pose proof (pivotRotation_generateWith data s) as Hrot.
  assert (pivot (generateWith data s) = Some (S (next s))
          ∧ currentPiece (generateWith data s) = Some (next s)
          ∧ scene (generateWith data s) = scene s) as (Hpv & Hpc & Hsc').
  { by rewrite generateWith_unfold. }
  pose proof (attached_mounted _ _ _ Hsh' Hpv Hpc) as Hatt.
  pose proof Hsh as (Hsc & Hnx & Hdom & _ & Hm).
  destruct Hmt as (_ & _ & _ & (n0 & H0 & Hc0) & (nv & Hv & Hcv & _) & _).
  exists (generateWith data s), (S (next s)), (next s).
  split; [exact Hgen|]. split; [done|]. split; [done|].
  assert (store s !! S (next s) = None) as Hnone.
  { destruct (store s !! S (next s)) as [n|] eqn:Hn; [|done].
    apply Hdom in Hn. lia. }
  split; [done|]. split.
  { intros Hp. rewrite Hp in Hm. destruct (currentPiece s); [|done].
    destruct Hm as (_ & _ & ? & _). lia. }
  split; [done|]. split.
  { pose proof (geo_new_piece data s) as Hg. rewrite generateWith_unfold.
    cbn [store]. destruct (storeAfterGenerate data s !! next s) as [n|]; [|done].
    cbv [fmap option_fmap option_map geo] in Hg |- *. congruence. }
  split; [unfold childrenOf; by rewrite Hv|]. split.
  { rewrite Hsc', Hsc. unfold childrenOf. rewrite H0, Hc0, !elem_of_cons. tauto. }
  intros v Hv'. rewrite Hatt, !elem_of_cons, elem_of_nil.
  rewrite Hv' in Hm. destruct (currentPiece s); [|done].
  destruct Hm as (? & ? & ? & _). lia.
Qed.

Lemma new_pivot_unrotated_witness :
  let es := [EGenerate 0; EAnimate; ETouchStart 0 0; ETouchMove 10 10] in
  ∃ s, run es initScene = Some s
       ∧ pivotRotation s = Some (mkAngles (0 + (10 - 0) * 0.01) (0 + 0.005 + (10 - 0) * 0.01) 0)
       ∧ validDraw 2
       ∧ ∃ s', generateNewPiece 2 s = Some s'
               ∧ pivotRotation s' = Some (mkAngles 0 0 0).
Proof.
  intros es.
  destruct (run es initScene) as [s|] eqn:Hrun; [|vm_compute in Hrun; discriminate].
  assert (reachable s) as Hreach by (exists es; exact Hrun).
  assert (validDraw 2) as Hr by (unfold validDraw; simpl; lia).
  exists s. split; [reflexivity|].
  split; [vm_compute in Hrun; injection Hrun as <-; reflexivity|].
  split; [exact Hr|].
  destruct (new_pivot_unrotated s 2 Hreach Hr)
    as (s' & pv & pc & Hgen & _ & _ & _ & _ & Hrot & _).
  exists s'. split; [exact Hgen | exact Hrot].
Defined.

(** *** Partitions in the world *)

(** C5 as stated fails for the world position: in the I piece, which
    [generateNewPiece] centres by (-1.5, 0, 0), the partition between the
    cubes (0,0,0) and (1,0,0) has the world position (-1, 0, 0), not
    (0.5, 0, 0).  It fails also where [x + 0.5] is not a double: between
    the cubes (2^52+1, 0, 0) and (2^52+2, 0, 0) the panel is at x = 2^52+2
    even in the group it is added to. *)
Lemma partition_not_at_world_midpoint :
  let data := [cube3 0 0 0; cube3 1 0 0; cube3 2 0 0; cube3 3 0 0] in
  let far := [cube3 (2 ^ 52 + 1) 0 0; cube3 (2 ^ 52 + 2) 0 0] in
  let colorMat := mkMaterial 0xe74c3c FrontSide in
  let p := wallX colorMat (0, 0, 0) in
  let q := wallX colorMat (2 ^ 52 + 1, 0, 0) in
  (∃ s' pos children,
     generateNewPiece 0 initScene = Some s'
     ∧ pieceObject s' = Some (Group pos euler0 children)
     ∧ pivotRotation s' = Some (mkAngles 0 0 0)
     ∧ p ∈ children
     ∧ veq (groupWorld pos (objPosition p)) (mkVec (-1) 0 0)
     ∧ ¬ veq (groupWorld pos (objPosition p)) (mkVec 0.5%Q 0 0))
  ∧ walls far colorMat = [q]
  ∧ veq (objPosition q) (mkVec (inject_Z (2 ^ 52 + 2)) 0 0)
  ∧ ¬ veq (objPosition q) (mkVec (inject_Z (2 ^ 52 + 1) + 0.5)%Q 0 0).
Proof.
  intros data far colorMat p q. split; [|split; [|split]].
  - exists (generateWith data initScene), (centeredPosition (pieceChildren data)),
      (pieceChildren data).
    split; [reflexivity|]. split; [apply pieceObject_generateWith|].
    split; [apply pivotRotation_generateWith|].
    split; [vm_compute; do 4 apply list_elem_of_further; apply list_elem_of_here|].
    split; [vm_compute; repeat split; reflexivity|].
    intros [H _]. vm_compute in H. discriminate H.
  - vm_compute. reflexivity.
  - vm_compute. repeat split; reflexivity.
  - intros [H _]. vm_compute in H. discriminate H.
Qed.

(** ** Part III: further properties of the code *)

(** *** Keys and exposure *)

(** X1.  The template-literal key of a coordinate determines the coordinate:
    two keys are the same string only for the same x, z and height slot,
    negative numbers and a missing height included. *)
Theorem key_no_collision (x z : Z) (h : option Z) (x' z' : Z) (h' : option Z) :
  key x z h = key x' z' h' ↔ x = x' ∧ z = z' ∧ h = h'.
Proof.
  split; [apply key_inj|]. by intros (-> & -> & ->).
Qed.

(** X2.  A cube passed to [exposedFacesFor] without its height is looked up
    under the key ending in "undefined", which no index built from a
    coordinate list holds: all four sides are reported exposed. *)
Theorem exposure_without_height (data : list Cube) (x z : Z) :
  exposedFacesFor (mkCube x z None) (occupancy data)
  = ["front"; "back"; "left"; "right"].
Proof.
  assert (∀ a b, has (occupancy data) a b None = false) as Hno.
  { intros a b. destruct (has (occupancy data) a b None) eqn:Hh; [|done].
    apply has_occupancy in Hh as (h & Hh & _). discriminate Hh. }
  rewrite exposedFacesFor_unfold. cbn [cx cz ch]. by rewrite !Hno.
Qed.

(** X3.  The exposed-face list of any cube against any set of keys is a
    selection of front, back, left, right in that order, without repetition,
    and it has one entry for each of the four side neighbours that is not in
    the set. *)
Theorem exposed_faces_shape (c : Cube) (occ3D : gset string) :
  sublist (exposedFacesFor c occ3D) sideNames
  ∧ NoDup (exposedFacesFor c occ3D)
  ∧ (∀ f, f ∈ exposedFacesFor c occ3D → f ∈ sideNames)
  ∧ (length (exposedFacesFor c occ3D) + occupiedSides c occ3D = 4)%nat.
Proof.
  rewrite exposedFacesFor_unfold. unfold occupiedSides, sideNames.
  destruct (has occ3D (cx c) (jsAdd (cz c) 1) (ch c)),
           (has occ3D (cx c) (jsSub (cz c) 1) (ch c)),
           (has occ3D (jsSub (cx c) 1) (cz c) (ch c)),
           (has occ3D (jsAdd (cx c) 1) (cz c) (ch c)); cbn [app b2n length Nat.add];
    (split; [repeat first [apply sublist_nil|apply sublist_skip|apply sublist_cons]|]);
    (split; [refine (bool_decide_unpack _ _); vm_compute; exact I|]);
    (split; [|reflexivity]);
    intros f; rewrite !elem_of_cons, !elem_of_nil; tauto.
Qed.

(** *** What a piece is made of *)

Lemma block_bars faces material :
  List.filter isBar (children (createBlock faces material)) = addEdgeBars material [].
Proof.
  rewrite createBlock_children, List.filter_app, filter_sidePanels, app_nil_r.
  - reflexivity.
  - intros f. apply (sidePanel_cases material f).
Qed.

Lemma block_panels faces material :
  (∀ f, f ∈ faces → f ∈ sideNames) →
  List.filter isPanel (children (createBlock faces material))
  = map (sidePanel material) faces.
Proof.
  intros Hsub.
  rewrite createBlock_children, (filter_side_names faces Hsub), List.filter_app.
  by rewrite filter_isPanel_sidePanels.
Qed.

Lemma exposed_are_sides c occ3D f : f ∈ exposedFacesFor c occ3D → f ∈ sideNames.
Proof.
  rewrite elem_of_exposedFacesFor. unfold sideNames.
  rewrite !elem_of_cons, elem_of_nil. naive_solver.
Qed.

Lemma length_exposedFacesFor c occ3D :
  (length (exposedFacesFor c occ3D) + occupiedSides c occ3D = 4)%nat.
Proof.
  rewrite exposedFacesFor_unfold. unfold occupiedSides.
  by destruct (has occ3D (cx c) (jsAdd (cz c) 1) (ch c)),
              (has occ3D (cx c) (jsSub (cz c) 1) (ch c)),
              (has occ3D (jsSub (cx c) 1) (cz c) (ch c)),
              (has occ3D (jsAdd (cx c) 1) (cz c) (ch c)).
Qed.

Lemma walls_are_meshes L colorMat M :
  flat_map children (flat_map (wallsOf L colorMat) M) = []
  ∧ List.filter isPanel (flat_map (wallsOf L colorMat) M)
    = flat_map (wallsOf L colorMat) M
  ∧ List.filter isBar (flat_map (wallsOf L colorMat) M) = []
  ∧ List.filter isGroupObj (flat_map (wallsOf L colorMat) M) = [].
Proof.
  induction M as [|a M (IH1 & IH2 & IH3 & IH4)]; [done|].
  cbn [flat_map]. rewrite !flat_map_app, !List.filter_app, IH1, IH2, IH3, IH4.
  destruct a as [[x z] h]. unfold wallsOf.
  repeat case_bool_decide; done.
Qed.

Section Blocks.

Context (F : Cube → list string) (P : Cube → Vector3)
        (material : MeshLambertMaterial).

Lemma blocks_generic cs :
  let blocks := map (λ c, set_gposition (createBlock (F c) material) (P c)) cs in
  List.filter isGroupObj blocks = blocks
  ∧ List.filter isPanel blocks = []
  ∧ List.filter isBar blocks = []
  ∧ blockMeshes blocks = flat_map (λ c, children (createBlock (F c) material)) cs.
Proof.
  cbn zeta. unfold blockMeshes.
  assert (∀ c, set_gposition (createBlock (F c) material) (P c)
               = Group (P c) euler0 (children (createBlock (F c) material))) as Hblock
    by reflexivity.
  repeat split; (induction cs as [|c cs IH]; [done|]);
    cbn [map flat_map List.filter]; rewrite Hblock;
    cbn [isGroupObj isPanel isBar children]; by rewrite IH.
Qed.

Lemma bars_generic cs :
  length (List.filter isBar (flat_map (λ c, children (createBlock (F c) material)) cs))
  = (12 * length cs)%nat.
Proof.
  induction cs as [|c cs IH]; [done|].
  cbn [flat_map length]. rewrite List.filter_app, length_app, IH, block_bars.
  change (length (addEdgeBars material [])) with 12%nat. lia.
Qed.

Lemma panels_generic cs :
  (∀ c f, f ∈ F c → f ∈ sideNames) →
  length (List.filter isPanel (flat_map (λ c, children (createBlock (F c) material)) cs))
  = sum_list_with (λ c, length (F c)) cs.
Proof.
  intros HF. induction cs as [|c cs IH]; [done|].
  cbn [flat_map sum_list_with]. rewrite List.filter_app, length_app, IH.
  rewrite block_panels by apply HF. by rewrite length_map.
Qed.

End Blocks.

Lemma block_of_cube data c :
  set_gposition
    (createBlock (exposedFacesFor (mkCube (cx c) (cz c) (Some (hdef c)))
                                  (occupancy data))
                 (mkMaterial 0xe74c3c FrontSide))
    (blockPosition (norm c))
  = Group (mkVec (inject_Z (cx c)) (inject_Z (default 0 (ch c))) (inject_Z (cz c)))
          euler0
          (addEdgeBars (mkMaterial 0xe74c3c FrontSide) []
           ++ map (sidePanel (mkMaterial 0xe74c3c FrontSide)) (facesOf data c)).
Proof.
  pose proof (createBlock_children (mkMaterial 0xe74c3c FrontSide)
                (exposedFacesFor (mkCube (cx c) (cz c) (Some (hdef c)))
                                 (occupancy data))) as Hc.
  rewrite filter_side_names in Hc by (intros f; apply exposed_are_sides).
  unfold facesOf. rewrite <- Hc. reflexivity.
Qed.

(** X4.  Whatever the coordinate list, the children of the piece are one
    group per list entry, in the order of the list, followed by the
    partition panels; the group of a cube sits at [(x, h, z)] (a missing
    height counting as 0) and holds the twelve bars followed by one face
    panel per exposed face of that cube, and the piece has no bar and no
    face panel of its own. *)
Theorem piece_structure (data : list Cube) :
  let material := mkMaterial 0xe74c3c FrontSide in
  let kids := pieceChildren data in
  let block c :=
    Group (mkVec (inject_Z (cx c)) (inject_Z (default 0 (ch c))) (inject_Z (cz c)))
          euler0
          (addEdgeBars material [] ++ map (sidePanel material) (facesOf data c)) in
  kids = map block data ++ walls data material
  ∧ (∀ k c, data !! k = Some c → kids !! k = Some (block c))
  ∧ drop (length data) kids = walls data material
  ∧ (∀ c, List.filter isBar (children (block c)) = addEdgeBars material []
          ∧ length (addEdgeBars material []) = 12%nat
          ∧ List.filter isPanel (children (block c))
            = map (sidePanel material) (facesOf data c))
  ∧ length (List.filter isGroupObj kids) = length data
  ∧ List.filter isPanel kids = walls data material
  ∧ List.filter isBar kids = []
  ∧ length kids = (length data + length (walls data material))%nat
  ∧ length (List.filter isBar (blockMeshes kids)) = (12 * length data)%nat
  ∧ length (List.filter isPanel (blockMeshes kids))
    = sum_list_with (λ c, length (facesOf data c)) data.
Proof.
  intros material kids block.
  assert (kids = map block data ++ walls data material) as Hkids.
  { subst kids. rewrite pieceChildren_eq. fold material. f_equal.
    apply map_ext. intros c. apply block_of_cube. }
  assert (∀ c, children (block c)
               = children (createBlock (facesOf data c) material)) as Hblock.
  { intros c. subst block. cbn [children].
    rewrite createBlock_children, filter_side_names; [done|].
    intros f. apply exposed_are_sides. }
  split; [exact Hkids|]. split; [|split; [|split]].
  - intros k c Hk. rewrite Hkids, lookup_app_l.
    + by rewrite list_lookup_fmap, Hk.
    + rewrite length_map. by apply lookup_lt_Some in Hk.
  - rewrite Hkids. rewrite <- (length_map block data). apply drop_app_length.
  - intros c. rewrite Hblock. split; [apply block_bars|]. split; [reflexivity|].
    apply block_panels. intros f. apply exposed_are_sides.
  - clear Hkids Hblock block. subst kids.
    destruct (blocks_generic (facesOf data) (λ c, blockPosition (norm c)) material data)
      as (Hg & Hp & Hb & Hm).
    destruct (walls_are_meshes (map norm data) material (map norm data))
      as (Hw1 & Hw2 & Hw3 & Hw4).
    cbn zeta in Hg, Hp, Hb, Hm.
    rewrite pieceChildren_eq. fold material. rewrite (walls_eq material data).
    change (λ c, set_gposition
                   (createBlock (exposedFacesFor (mkCube (cx c) (cz c) (Some (hdef c)))
                                                 (occupancy data)) material)
                   (blockPosition (norm c)))
      with (λ c, set_gposition (createBlock (facesOf data c) material)
                               (blockPosition (norm c))).
    unfold blockMeshes in *.
    rewrite !List.filter_app, !flat_map_app, Hg, Hp, Hb, Hm, Hw1, Hw2, Hw3, Hw4.
    rewrite !app_nil_r, length_app, length_map.
    repeat split; try reflexivity.
    + apply bars_generic.
    + apply panels_generic. intros c f. apply exposed_are_sides.
Qed.

(** Every side of every cube is either covered or shared. *)

Section FaceAccounting.

Implicit Types (a b : Z * Z * Z) (L M : list (Z * Z * Z)).

Lemma sum_list_with_zero {A} (l : list A) : sum_list_with (λ _, 0%nat) l = 0%nat.
Proof. induction l as [|x l IH]; simpl; [done|]. by rewrite IH. Qed.

Lemma sum_list_with_swap {A B} (f : A → B → nat) (l : list A) (k : list B) :
  sum_list_with (λ x, sum_list_with (f x) k) l
  = sum_list_with (λ y, sum_list_with (λ x, f x y) l) k.
Proof.
  induction l as [|x l IH]; cbn [sum_list_with].
  - by rewrite sum_list_with_zero.
  - by rewrite IH, sum_list_with_add.
Qed.

(** The cubes with a neighbour behind are as many as those with a neighbour
    ahead. *)
Lemma behind_ahead (step back : Z * Z * Z → Z * Z * Z) L :
  (∀ a b, b = back a ↔ a = step b) →
  NoDup L →
  sum_list_with (λ a, b2n (bool_decide (back a ∈ L))) L
  = sum_list_with (λ a, b2n (bool_decide (step a ∈ L))) L.
Proof.
  intros Hinv Hnd.
  rewrite (sum_list_with_ext _ (λ a, sum_list_with (λ b, b2n (bool_decide (a = step b))) L)).
  2:{ intros a. rewrite <- (sum_indicator (back a) L Hnd).
      apply sum_list_with_ext. intros b. f_equal. apply bool_decide_ext, Hinv. }
  rewrite sum_list_with_swap. apply sum_list_with_ext. intros b.
  by apply sum_indicator.
Qed.

Lemma occupiedSides_norm data c :
  safeCube c →
  occupiedSides (mkCube (cx c) (cz c) (Some (hdef c))) (occupancy data)
  = (forward (map norm data) (norm c)
     + (b2n (bool_decide (backX (norm c) ∈ map norm data))
        + b2n (bool_decide (backZ (norm c) ∈ map norm data))))%nat.
Proof.
  intros [Hx Hz]. unfold occupiedSides, forward, stepX, stepZ, backX, backZ.
  change (norm c) with (cx c, cz c, hdef c).
  cbn [cx cz ch fst snd]. rewrite !jsAdd_safe, !jsSub_safe by done.
  rewrite !has_occupancy_Some. lia.
Qed.

Lemma sum_occupiedSides data :
  NoDup (map norm data) →
  Forall safeCube data →
  sum_list_with (λ c, occupiedSides (mkCube (cx c) (cz c) (Some (hdef c)))
                                    (occupancy data)) data
  = (2 * length (adjacentPairs (map norm data)))%nat.
Proof.
  intros Hnd Hsafe. set (L := map norm data) in *.
  assert (∀ cs : list Cube,
            Forall safeCube cs →
            sum_list_with (λ c, occupiedSides (mkCube (cx c) (cz c) (Some (hdef c)))
                                              (occupancy data)) cs
            = sum_list_with (λ a, forward L a
                                  + (b2n (bool_decide (backX a ∈ L))
                                     + b2n (bool_decide (backZ a ∈ L))))%nat
                            (map norm cs)) as Hmap.
  { induction 1 as [|c cs Hc Hcs IH]; [done|]. cbn [map sum_list_with].
    by rewrite occupiedSides_norm, IH. }
  rewrite Hmap by done. fold L.
  rewrite !sum_list_with_add.
  rewrite (behind_ahead stepX backX L), (behind_ahead stepZ backZ L); try done.
  - rewrite <- sum_list_with_add.
    change (λ x, b2n (bool_decide (stepX x ∈ L)) + b2n (bool_decide (stepZ x ∈ L)))%nat
      with (forward L).
    rewrite forward_scan_counts_pairs by done. lia.
  - intros [[x z] h] [[x' z'] h']. unfold stepZ, backZ. cbn [fst snd].
    split; intros [=]; subst; repeat (first [lia|f_equal]).
  - intros [[x z] h] [[x' z'] h']. unfold stepX, backX. cbn [fst snd].
    split; intros [=]; subst; repeat (first [lia|f_equal]).
Qed.

End FaceAccounting.

(** X5.  In a piece without repeated cube whose x and z are safe integers
    (below 2^53 in absolute value), the four sides of every cube are
    accounted for: the face panels of all blocks, plus two for every
    partition (the side it stands for on either cube), are four per cube. *)
Theorem face_accounting (data : list Cube) :
  NoDup (map norm data) →
  Forall safeCube data →
  (length (List.filter isPanel (blockMeshes (pieceChildren data)))
   + 2 * length (walls data (mkMaterial 0xe74c3c FrontSide))
   = 4 * length data)%nat.
Proof.
  intros Hnd Hsafe.
  destruct (blocks_generic (facesOf data) (λ c, blockPosition (norm c))
                           (mkMaterial 0xe74c3c FrontSide) data) as (_ & _ & _ & Hm).
  destruct (walls_are_meshes (map norm data) (mkMaterial 0xe74c3c FrontSide)
                             (map norm data)) as (Hw1 & _).
  cbn zeta in Hm. unfold blockMeshes in *.
  rewrite pieceChildren_eq, flat_map_app.
  rewrite (walls_eq (mkMaterial 0xe74c3c FrontSide) data) at 1. rewrite Hw1, app_nil_r.
  change (λ c, set_gposition
                 (createBlock (exposedFacesFor (mkCube (cx c) (cz c) (Some (hdef c)))
                                               (occupancy data))
                              (mkMaterial 0xe74c3c FrontSide))
                 (blockPosition (norm c)))
    with (λ c, set_gposition (createBlock (facesOf data c) (mkMaterial 0xe74c3c FrontSide))
                             (blockPosition (norm c))).
  rewrite Hm, panels_generic by (intros c f; apply exposed_are_sides).
  rewrite walls_eq, length_flat_map_wallsOf by by apply Forall_safe3.
  rewrite forward_scan_counts_pairs by done.
  pose proof (sum_occupiedSides data Hnd Hsafe) as Hocc.
  assert (∀ cs : list Cube,
            (sum_list_with (λ c, length (facesOf data c)) cs
             + sum_list_with (λ c, occupiedSides (mkCube (cx c) (cz c) (Some (hdef c)))
                                                 (occupancy data)) cs
             = 4 * length cs)%nat) as Hsum.
  { induction cs as [|c cs IH]; [done|]. cbn [sum_list_with length].
    pose proof (length_exposedFacesFor (mkCube (cx c) (cz c) (Some (hdef c)))
                                       (occupancy data)) as Hc.
    unfold facesOf in *. lia. }
  specialize (Hsum data). lia.
Qed.

Lemma face_accounting_witness :
  NoDup (map norm [cube3 0 0 0; cube3 1 0 0; cube3 1 1 0; cube3 1 0 1])
  ∧ Forall safeCube [cube3 0 0 0; cube3 1 0 0; cube3 1 1 0; cube3 1 0 1]
  ∧ (length (List.filter isPanel
       (blockMeshes (pieceChildren [cube3 0 0 0; cube3 1 0 0; cube3 1 1 0; cube3 1 0 1])))
     = 12)%nat.
Proof.
  assert (NoDup (map norm [cube3 0 0 0; cube3 1 0 0; cube3 1 1 0; cube3 1 0 1])) as Hnd.
  { refine (bool_decide_unpack _ _). vm_compute. exact I. }
  assert (Forall safeCube [cube3 0 0 0; cube3 1 0 0; cube3 1 1 0; cube3 1 0 1])
    as Hsafe by bounded_cubes.
  split; [exact Hnd|]. split; [exact Hsafe|].
  pose proof (face_accounting _ Hnd Hsafe) as H.
  assert (length (walls [cube3 0 0 0; cube3 1 0 0; cube3 1 1 0; cube3 1 0 1]
                        (mkMaterial 0xe74c3c FrontSide)) = 2%nat) as Hw
    by (vm_compute; reflexivity).
  rewrite Hw in H. cbn [length] in H. lia.
Defined.

(** *** The scene graph and the input handlers *)

(** X6.  In every state the program reaches, [scene.remove(currentPiece)]
    removes nothing, since the piece hangs under its pivot; a generation
    takes the former pivot out of the scene and leaves the former piece as
    the child of that pivot. *)
Theorem former_piece_stays_under_its_pivot (s : State) (data : list Cube) (pv pc : oid) :
  reachable s → pivot s = Some pv → currentPiece s = Some pc →
  removeChild (scene s) pc (store s) = store s
  ∧ childrenOf (generateWith data s) pv = [pc]
  ∧ (nparent <$> store (generateWith data s) !! pc) = Some (Some pv)
  ∧ (nparent <$> store (generateWith data s) !! pv) = Some None
  ∧ pv ∉ childrenOf (generateWith data s) (scene s).
Proof.
  intros Hreach Hpv Hpc. pose proof (shape_reachable s Hreach) as Hsh.
  pose proof Hsh as (Hsc & Hnx & Hdom & Hbase & Hm). rewrite Hpv, Hpc in Hm.
  pose proof Hm as (H3 & Hlt & Hpvn & (n0 & H0 & Hc0) & (nv & Hv & Hcv & Hkv & Hpvv)
                    & (np & Hp & Hcp & Hkp & Hpp)).
  split.
  { rewrite Hsc. apply (removeChild_absent _ _ _ n0 H0).
    rewrite Hc0, !elem_of_cons, elem_of_nil. lia. }
  rewrite generateWith_unfold. unfold childrenOf. cbn [store].
  rewrite (storeAfterGenerate_next data s pv pc Hsc Hpv Hpc Hm), Hsc.
  split; [|split; [|split]].
  - store_simpl. rewrite Hv. cbn. exact Hcv.
  - store_simpl. rewrite Hp. cbn. by rewrite Hpp.
  - store_simpl. rewrite Hv. reflexivity.
  - store_simpl. rewrite H0.
    cbn [fmap option_fmap option_map set_nchildren nchildren].
    rewrite Hc0, spliceOut_pivot by lia. unfold push. cbn [app].
    rewrite !elem_of_cons, elem_of_nil. lia.
Qed.

Lemma former_piece_stays_under_its_pivot_witness :
  ∃ s pv pc,
    generateMany [0%nat] initScene = Some s
    ∧ pivot s = Some pv ∧ currentPiece s = Some pc
    ∧ childrenOf (generateWith [cube3 0 0 0] s) pv = [pc].
Proof.
  destruct (generateMany [0%nat] initScene) as [s|] eqn:Hrun;
    [|vm_compute in Hrun; discriminate].
  assert (reachable s) as Hreach by (exists [EGenerate 0]; exact Hrun).
  assert (pivot s = Some 5%nat) as Hpv
    by (vm_compute in Hrun; injection Hrun as <-; reflexivity).
  assert (currentPiece s = Some 4%nat) as Hpc
    by (vm_compute in Hrun; injection Hrun as <-; reflexivity).
  exists s, 5%nat, 4%nat. split; [reflexivity|]. split; [exact Hpv|].
  split; [exact Hpc|].
  exact (proj1 (proj2 (former_piece_stays_under_its_pivot s [cube3 0 0 0] 5%nat 4%nat
                         Hreach Hpv Hpc))).
Defined.

(** X7.  Through every sequence of generations, frames, touches and pause
    clicks, the children of the scene are the two lights and the ground, in
    this order, followed by the pivot once there is one; [pivot] and
    [currentPiece] are unset together or set together, and then the piece is
    the only child of the pivot and has no child in the scene graph. *)
Theorem scene_graph_invariant (es : list Event) (s : State) :
  run es initScene = Some s →
  (pivot s = None ∧ currentPiece s = None
   ∧ childrenOf s (scene s) = [1; 2; 3]%nat)
  ∨ (∃ pv pc, pivot s = Some pv ∧ currentPiece s = Some pc ∧ pv ≠ pc
              ∧ childrenOf s (scene s) = [1; 2; 3; pv]%nat
              ∧ childrenOf s pv = [pc] ∧ childrenOf s pc = []).
Proof.
  intros Hrun.
  assert (shape s) as (Hsc & _ & _ & _ & Hm)
    by (eapply shape_run; [apply shape_initScene|exact Hrun]).
  unfold childrenOf. rewrite Hsc.
  destruct (pivot s) as [pv|], (currentPiece s) as [pc|]; try done.
  - right. exists pv, pc.
    destruct Hm as (H3 & Hlt & _ & (n0 & -> & Hc0) & (nv & -> & Hcv & _)
                    & (np & -> & Hcp & _)).
    repeat split; try done. lia.
  - left. destruct Hm as (n0 & -> & Hc0). done.
Qed.

Lemma scene_graph_invariant_witness :
  ∃ s, run [EGenerate 1; ETouchStart 3 4; ETouchMove 5 6; ETouchEnd; EAnimate;
            EPauseClick; EGenerate 2] initScene = Some s
       ∧ childrenOf s (scene s) = [1; 2; 3; 7]%nat.
Proof.
  destruct (run [EGenerate 1; ETouchStart 3 4; ETouchMove 5 6; ETouchEnd; EAnimate;
                 EPauseClick; EGenerate 2] initScene) as [s|] eqn:Hrun;
    [|vm_compute in Hrun; discriminate].
  exists s. split; [reflexivity|].
  destruct (scene_graph_invariant _ s Hrun)
    as [(Hpv & _)|(pv & pc & Hpv & _ & _ & Hch & _)].
  - vm_compute in Hrun. injection Hrun as <-. discriminate Hpv.
  - rewrite Hch. vm_compute in Hrun. injection Hrun as <-.
    injection Hpv as <-. reflexivity.
Defined.

Lemma alter_unrotated (f : Angles → Angles) (i : oid) (st : gmap oid Node) (x : oid) :
  unrotated <$> alter (set_nrotation f) i st !! x = unrotated <$> st !! x.
Proof.
  rewrite lookup_alter. case_decide; [subst|done]. by destruct (st !! x).
Qed.

Lemma input_step_store e s s' :
  isInput e = true → step e s = Some s' →
  (∀ o, unrotated <$> store s' !! o = unrotated <$> store s !! o)
  ∧ (∀ o, pivot s ≠ Some o → store s' !! o = store s !! o)
  ∧ next s' = next s ∧ scene s' = scene s
  ∧ pivot s' = pivot s ∧ currentPiece s' = currentPiece s.
Proof.
  intros He Hstep. destruct e as [r| |x y|x y| |]; try done;
    cbn in Hstep; simplify_eq.
  - unfold animate.
    destruct s as [st nx sc pc [pv|] rv rp dr lx ly dd]; cbn; [|done].
    destruct dr, rp, rv; cbn; try done; repeat case_match; cbn;
      repeat split; try done; intros o;
      rewrite ?alter_unrotated; try done;
      intros Ho; by rewrite !lookup_alter_ne by congruence.
  - done.
  - unfold onTouchMove.
    destruct s as [st nx sc pc [pv|] rv rp dr lx ly dd]; cbn; [|done].
    destruct dr; cbn; repeat split; try done; intros o;
      rewrite ?alter_unrotated; try done;
      intros Ho; by rewrite !lookup_alter_ne by congruence.
  - done.
  - done.
Qed.

(** X8.  A frame, a touch or a pause click changes no object but the pivot,
    and of the pivot only its rotation: the scene graph, the positions and
    the meshes of all objects, and with them the current piece, stay as they
    are. *)
Theorem input_changes_only_pivot_rotation (e : Event) (s s' : State) :
  isInput e = true → step e s = Some s' →
  (∀ o, pivot s ≠ Some o → store s' !! o = store s !! o)
  ∧ (∀ o, unrotated <$> store s' !! o = unrotated <$> store s !! o)
  ∧ pivot s' = pivot s ∧ currentPiece s' = currentPiece s
  ∧ pieceObject s' = pieceObject s
  ∧ (∀ o, childrenOf s' o = childrenOf s o).
Proof.
  intros He Hstep.
  destruct (input_step_store e s s' He Hstep) as (Hun & Hoth & _ & _ & Hpv & Hpc).
  split; [exact Hoth|]. split; [exact Hun|]. split; [exact Hpv|]. split; [exact Hpc|].
  split.
  - unfold pieceObject. rewrite Hpc. destruct (currentPiece s) as [pc|]; [|done].
    specialize (Hun pc).
    destruct (store s' !! pc) as [n'|], (store s !! pc) as [n|]; try done.
    cbv [fmap option_fmap option_map unrotated] in Hun. congruence.
  - intros o. unfold childrenOf. specialize (Hun o).
    destruct (store s' !! o) as [n'|], (store s !! o) as [n|]; try done.
    cbv [fmap option_fmap option_map unrotated] in Hun. congruence.
Qed.

Lemma input_changes_only_pivot_rotation_witness :
  ∃ s s',
    generateMany [3%nat] initScene = Some s
    ∧ isInput EAnimate = true ∧ step EAnimate s = Some s'
    ∧ pieceObject s' = pieceObject s
    ∧ pivotRotation s' ≠ pivotRotation s.
Proof.
  destruct (generateMany [3%nat] initScene) as [s|] eqn:Hrun;
    [|vm_compute in Hrun; discriminate].
  exists s, (animate s). split; [reflexivity|]. split; [reflexivity|].
  split; [reflexivity|].
  split.
  - exact (proj1 (proj2 (proj2 (proj2 (proj2
      (input_changes_only_pivot_rotation EAnimate s (animate s) eq_refl eq_refl)))))).
  - vm_compute in Hrun. injection Hrun as <-. vm_compute. discriminate.
Defined.

(** *** Frames, pause and drag *)

Lemma animate_idle s :
  isDragging s = true ∨ rotationPaused s = true ∨ pivot s = None → animate s = s.
Proof.
  destruct s as [st nx sc pc [pv|] rv rp dr lx ly dd]; cbn;
    intros [->|[->|H]]; try done; by destruct dr.
Qed.

Lemma frames_idle n s :
  isDragging s = true ∨ rotationPaused s = true ∨ pivot s = None → frames n s = s.
Proof.
  intros H. induction n as [|n IH]; [done|].
  change (frames (S n) s) with (animate (frames n s)).
  rewrite IH. by apply animate_idle.
Qed.

(** X9.  While the rotation is paused, and while a drag is under way, frames
    change nothing at all; pausing, letting any number of frames pass and
    clicking again gives back the state before the pause. *)
Theorem pause_and_drag_freeze_frames (n : nat) (s : State) :
  (rotationPaused s = true → frames n s = s)
  ∧ (isDragging s = true → frames n s = s)
  ∧ (rotationPaused s = false → onPauseClick (frames n (onPauseClick s)) = s).
Proof.
  split; [|split].
  - intros H. apply frames_idle. auto.
  - intros H. apply frames_idle. auto.
  - intros H. rewrite frames_idle by (right; left; cbn; by rewrite H).
    destruct s as [st nx sc pc pv rv rp dr lx ly dd]. cbn in *. by subst.
Qed.

Lemma pause_and_drag_freeze_frames_witness :
  ∃ s, generateMany [4%nat] initScene = Some s
       ∧ rotationPaused s = false
       ∧ onPauseClick (frames 7 (onPauseClick s)) = s.
Proof.
  destruct (generateMany [4%nat] initScene) as [s|] eqn:Hrun;
    [|vm_compute in Hrun; discriminate].
  assert (rotationPaused s = false) as Hp
    by (vm_compute in Hrun; injection Hrun as <-; reflexivity).
  exists s. split; [reflexivity|]. split; [exact Hp|].
  exact (proj2 (proj2 (pause_and_drag_freeze_frames 7 s)) Hp).
Defined.

Lemma animate_active s (pv : oid) (m : Node) :
  pivot s = Some pv → store s !! pv = Some m →
  isDragging s = false → rotationPaused s = false →
  store (animate s) !! pv
  = Some (set_nrotation (λ _, (spinStep (resetVertical s, nrotation m)).2) m)
  ∧ resetVertical (animate s) = (spinStep (resetVertical s, nrotation m)).1
  ∧ pivot (animate s) = Some pv
  ∧ isDragging (animate s) = false ∧ rotationPaused (animate s) = false.
Proof.
  destruct s as [st nx sc pc pv' rv rp dr lx ly dd]. cbn [pivot store isDragging
    rotationPaused resetVertical]. intros -> Hm -> ->.
  unfold animate, spinStep. cbn [pivot store isDragging rotationPaused resetVertical
    negb andb]. rewrite Hm. destruct m as [k p c ps [x y z] ms].
  cbn [nrotation ax ay az].
  destruct rv; [destruct (Qlt_le_dec _ _)|];
    cbn [with_store set_resetVertical store resetVertical pivot isDragging
         rotationPaused snd fst];
    rewrite !lookup_alter_eq, Hm; repeat split; reflexivity.
Qed.

Lemma frames_active n s (pv : oid) (m : Node) :
  pivot s = Some pv → store s !! pv = Some m →
  isDragging s = false → rotationPaused s = false →
  store (frames n s) !! pv
  = Some (set_nrotation (λ _, (Nat.iter n spinStep (resetVertical s, nrotation m)).2) m)
  ∧ resetVertical (frames n s) = (Nat.iter n spinStep (resetVertical s, nrotation m)).1
  ∧ pivot (frames n s) = Some pv
  ∧ isDragging (frames n s) = false ∧ rotationPaused (frames n s) = false.
Proof.
  intros Hpv Hm Hd Hp. induction n as [|n (IH1 & IH2 & IH3 & IH4 & IH5)].
  - cbn. rewrite Hm. by destruct m as [k p c ps [x y z] ms].
  - change (frames (S n) s) with (animate (frames n s)).
    destruct (animate_active _ pv _ IH3 IH1 IH4 IH5) as (H1 & H2 & H3 & H4 & H5).
    rewrite H1, H2, IH2, Nat.iter_succ. cbn [set_nrotation nrotation].
    destruct (Nat.iter n spinStep (resetVertical s, nrotation m)) as [rv a].
    by destruct m.
Qed.

Section Spin.

Open Scope Q_scope.

Lemma spin_steady n a :
  (Nat.iter n spinStep (false, a)).1 = false
  ∧ ax (Nat.iter n spinStep (false, a)).2 = ax a
  ∧ az (Nat.iter n spinStep (false, a)).2 = az a
  ∧ ay (Nat.iter n spinStep (false, a)).2 == ay a + inject_Z (Z.of_nat n) * 0.005.
Proof.
  induction n as [|n (IH1 & IH2 & IH3 & IH4)].
  - cbn. repeat split; try done. ring.
  - rewrite Nat.iter_succ. destruct (Nat.iter n spinStep (false, a)) as [rv b].
    cbn [fst snd] in *. subst rv. cbn [spinStep fst snd ax ay az].
    repeat split; try done.
    rewrite IH4, Nat2Z.inj_succ, <- Z.add_1_r, inject_Z_plus. ring.
Qed.

Lemma decay_abs x : Qabs (x + (0 - x) * 0.18) == Qabs x * 0.82.
Proof.
  assert (x + (0 - x) * 0.18 == x * 0.82) as -> by ring.
  rewrite Qabs_Qmult. reflexivity.
Qed.

Lemma spin_settles n : ∀ a,
  Qabs (ax a) <= inject_Z (Z.of_nat n) * 0.00018 →
  ∃ k, (k ≤ S n)%nat ∧ (0 < k)%nat
       ∧ (Nat.iter k spinStep (true, a)).1 = false
       ∧ ax (Nat.iter k spinStep (true, a)).2 = 0
       ∧ az (Nat.iter k spinStep (true, a)).2 = az a.
Proof.
  induction n as [|n IH]; intros a Ha.
  - exists 1%nat. split; [lia|]. split; [lia|].
    change (Nat.iter 1 spinStep (true, a)) with (spinStep (true, a)). cbn [spinStep].
    destruct (Qlt_le_dec _ _) as [Hlt|Hge]; [done|]. exfalso.
    pose proof (decay_abs (ax a)) as Habs.
    pose proof (Qabs_nonneg (ax a)) as Hnn.
    change (inject_Z (Z.of_nat 0)) with 0 in Ha. lra.
  - cbn [spinStep].
    destruct (Qlt_le_dec (Qabs (ax a + (0 - ax a) * 0.18)) 0.001) as [Hlt|Hge] eqn:Hdec.
    + exists 1%nat. split; [lia|]. split; [lia|].
      change (Nat.iter 1 spinStep (true, a)) with (spinStep (true, a)).
      cbn [spinStep]. by rewrite Hdec.
    + pose proof (decay_abs (ax a)) as Habs.
      destruct (IH (mkAngles (ax a + (0 - ax a) * 0.18) (ay a + 0.005) (az a)))
        as (k & Hk & Hk0 & H1 & H2 & H3).
      { cbn [ax].
        rewrite Nat2Z.inj_succ, <- Z.add_1_r, inject_Z_plus in Ha.
        change (inject_Z 1) with 1 in Ha. lra. }
      exists (S k). split; [lia|]. split; [lia|].
      rewrite Nat.iter_succ_r. cbn [spinStep]. rewrite Hdec. done.
Qed.

Lemma angle_within_reach (x : Q) :
  Qabs x <= inject_Z (Z.of_nat (Z.to_nat (Z.abs (Qnum x) * 10000))) * 0.00018.
Proof.
  rewrite Z2Nat.id by lia. destruct x as [p q].
  unfold Qabs, Qle, inject_Z, Qmult. cbn [Qnum Qden]. nia.
Qed.

End Spin.

(** X10.  Once the vertical reset is over, and while no drag and no pause
    hold the pivot, [n] frames add exactly [n] times 0.005 to the rotation
    about the vertical axis and leave the other two angles as they are. *)
Theorem auto_spin_is_linear (n : nat) (s : State) (pv : oid) (m : Node) :
  pivot s = Some pv → store s !! pv = Some m →
  isDragging s = false → rotationPaused s = false → resetVertical s = false →
  ∃ m', store (frames n s) !! pv = Some m'
        ∧ ax (nrotation m') = ax (nrotation m)
        ∧ az (nrotation m') = az (nrotation m)
        ∧ (ay (nrotation m') == ay (nrotation m) + inject_Z (Z.of_nat n) * 0.005)%Q
        ∧ resetVertical (frames n s) = false
        ∧ unrotated m' = unrotated m.
Proof.
  intros Hpv Hm Hd Hp Hrv.
  destruct (frames_active n s pv m Hpv Hm Hd Hp) as (H1 & H2 & _).
  rewrite Hrv in H1, H2.
  destruct (spin_steady n (nrotation m)) as (S1 & S2 & S3 & S4).
  eexists. split; [exact H1|]. cbn [set_nrotation nrotation].
  split; [exact S2|]. split; [exact S3|]. split; [exact S4|].
  split; [by rewrite H2|]. by destruct m.
Qed.

Lemma auto_spin_is_linear_witness :
  ∃ s m m',
    generateMany [6%nat] initScene = Some s
    ∧ store s !! 5%nat = Some m
    ∧ store (frames 200 s) !! 5%nat = Some m'
    ∧ (ay (nrotation m') == 1)%Q.
Proof.
  destruct (generateMany [6%nat] initScene) as [s|] eqn:Hrun;
    [|vm_compute in Hrun; discriminate].
  assert (pivot s = Some 5%nat ∧ isDragging s = false ∧ rotationPaused s = false
          ∧ resetVertical s = false) as (Hpv & Hd & Hp & Hrv)
    by (vm_compute in Hrun; injection Hrun as <-; repeat split; reflexivity).
  destruct (store s !! 5%nat) as [m|] eqn:Hm;
    [|vm_compute in Hrun; injection Hrun as <-; vm_compute in Hm; discriminate].
  assert (ay (nrotation m) = 0%Q) as Hy.
  { vm_compute in Hrun. injection Hrun as <-. vm_compute in Hm.
    injection Hm as <-. reflexivity. }
  destruct (auto_spin_is_linear 200 s 5%nat m Hpv Hm Hd Hp Hrv)
    as (m' & Hm' & _ & _ & Hay & _).
  exists s, m, m'. split; [reflexivity|]. split; [exact Hm|]. split; [exact Hm'|].
  rewrite Hay, Hy. reflexivity.
Defined.

(** X11.  After a touch ends, the frames bring the rotation about the
    horizontal axis back to zero: whatever the angle, after finitely many
    frames without drag or pause the angle is exactly 0 and the reset is
    switched off, and from then on it stays so. *)
Theorem vertical_reset_terminates (s : State) (pv : oid) (m : Node) :
  pivot s = Some pv → store s !! pv = Some m →
  isDragging s = false → rotationPaused s = false → resetVertical s = true →
  ∃ k, (0 < k)%nat ∧
    ∀ j, ∃ m', store (frames (j + k) s) !! pv = Some m'
               ∧ ax (nrotation m') = 0%Q
               ∧ az (nrotation m') = az (nrotation m)
               ∧ resetVertical (frames (j + k) s) = false.
Proof.
  intros Hpv Hm Hd Hp Hrv.
  destruct (spin_settles _ (nrotation m) (angle_within_reach (ax (nrotation m))))
    as (k & _ & Hk0 & K1 & K2 & K3).
  exists k. split; [exact Hk0|]. intros j.
  destruct (frames_active (j + k) s pv m Hpv Hm Hd Hp) as (H1 & H2 & _).
  rewrite Hrv, Nat.iter_add in H1, H2.
  destruct (Nat.iter k spinStep (true, nrotation m)) as [rv a] eqn:Hit.
  cbn [fst snd] in K1, K2, K3. subst rv.
  destruct (spin_steady j a) as (S1 & S2 & S3 & _).
  eexists. split; [exact H1|]. cbn [set_nrotation nrotation].
  split; [by rewrite S2|]. split; [by rewrite S3|]. by rewrite H2.
Qed.

Lemma vertical_reset_terminates_witness :
  ∃ s m,
    run [EGenerate 0; ETouchStart 0 0; ETouchMove 0 50; ETouchEnd] initScene = Some s
    ∧ store s !! 5%nat = Some m ∧ (ax (nrotation m) == 0.5)%Q
    ∧ ∃ k m', store (frames k s) !! 5%nat = Some m' ∧ ax (nrotation m') = 0%Q.
Proof.
  destruct (run [EGenerate 0; ETouchStart 0 0; ETouchMove 0 50; ETouchEnd] initScene)
    as [s|] eqn:Hrun; [|vm_compute in Hrun; discriminate].
  assert (pivot s = Some 5%nat ∧ isDragging s = false ∧ rotationPaused s = false
          ∧ resetVertical s = true) as (Hpv & Hd & Hp & Hrv)
    by (vm_compute in Hrun; injection Hrun as <-; repeat split; reflexivity).
  destruct (store s !! 5%nat) as [m|] eqn:Hm;
    [|vm_compute in Hrun; injection Hrun as <-; vm_compute in Hm; discriminate].
  assert (ax (nrotation m) == 0.5)%Q as Hx.
  { vm_compute in Hrun. injection Hrun as <-. vm_compute in Hm.
    injection Hm as <-. reflexivity. }
  destruct (vertical_reset_terminates s 5%nat m Hpv Hm Hd Hp Hrv) as (k & _ & Hk).
  destruct (Hk 0%nat) as (m' & Hm' & Hax & _).
  exists s, m. split; [reflexivity|]. split; [exact Hm|]. split; [exact Hx|].
  exists (0 + k)%nat, m'. split; [exact Hm'|exact Hax].
Defined.

Lemma onTouchMove_active x y s (pv : oid) (m : Node) :
  pivot s = Some pv → store s !! pv = Some m → isDragging s = true →
  store (onTouchMove x y s) !! pv
  = Some (set_nrotation
            (λ a, mkAngles (ax a + (y - lastY s) * 0.01)%Q
                           (ay a + (x - lastX s) * 0.01)%Q (az a)) m)
  ∧ lastX (onTouchMove x y s) = x ∧ lastY (onTouchMove x y s) = y
  ∧ pivot (onTouchMove x y s) = Some pv ∧ isDragging (onTouchMove x y s) = true.
Proof.
  destruct s as [st nx sc pc pv' rv rp dr lx ly dd].
  cbn [pivot store isDragging lastX lastY]. intros -> Hm ->.
  unfold onTouchMove. cbn [pivot isDragging negb lastX lastY with_store set_drag store
    dragDeltaY]. rewrite !lookup_alter_eq, Hm.
  by destruct m as [k p c ps [a b c'] ms].
Qed.

Lemma last_cons {A} (p d : A) l : List.last (p :: l) d = List.last l p.
Proof.
  revert p d. induction l as [|q l IH]; intros p d; [done|].
  change (List.last (p :: q :: l) d) with (List.last (q :: l) d).
  by rewrite (IH q d), (IH q p).
Qed.

Lemma drag_active pts : ∀ s (pv : oid) (m : Node),
  pivot s = Some pv → store s !! pv = Some m → isDragging s = true →
  ∃ m', store (drag pts s) !! pv = Some m'
        ∧ (ay (nrotation m')
           == ay (nrotation m) + ((List.last pts (lastX s, lastY s)).1 - lastX s) * 0.01)%Q
        ∧ (ax (nrotation m')
           == ax (nrotation m) + ((List.last pts (lastX s, lastY s)).2 - lastY s) * 0.01)%Q
        ∧ az (nrotation m') = az (nrotation m)
        ∧ unrotated m' = unrotated m
        ∧ lastX (drag pts s) = (List.last pts (lastX s, lastY s)).1
        ∧ lastY (drag pts s) = (List.last pts (lastX s, lastY s)).2
        ∧ isDragging (drag pts s) = true.
Proof.
  induction pts as [|p pts IH]; intros s pv m Hpv Hm Hd.
  - exists m. cbn. repeat split; try done; ring.
  - destruct (onTouchMove_active p.1 p.2 s pv m Hpv Hm Hd) as (H1 & H2 & H3 & H4 & H5).
    destruct (IH _ pv _ H4 H1 H5) as (m' & G1 & G2 & G3 & G4 & G5 & G6 & G7 & G8).
    rewrite H2, H3 in G2, G3, G6, G7. rewrite <- surjective_pairing in G2, G3, G6, G7.
    exists m'. rewrite last_cons. change (drag (p :: pts) s) with (drag pts (onTouchMove p.1 p.2 s)).
    split; [exact G1|]. destruct m as [k ps c pp [a b c'] ms].
    cbn [set_nrotation nrotation ax ay az] in *.
    split; [rewrite G2; ring|]. split; [rewrite G3; ring|].
    repeat split; done.
Qed.

(** X12.  A drag turns the pivot by the net displacement of the touch: from
    a touch start at [(x0, y0)] through any points to a last point
    [(x, y)], the rotation about the vertical axis has grown by
    [0.01 * (x - x0)] and the one about the horizontal axis by
    [0.01 * (y - y0)], whatever the path; nothing else of the pivot
    changes. *)
Theorem drag_turns_by_net_displacement (s : State) (pv : oid) (m : Node)
    (x0 y0 : Q) (pts : list (Q * Q)) :
  pivot s = Some pv → store s !! pv = Some m →
  ∃ m', store (drag pts (onTouchStart x0 y0 s)) !! pv = Some m'
        ∧ (ay (nrotation m')
           == ay (nrotation m) + ((List.last pts (x0, y0)).1 - x0) * 0.01)%Q
        ∧ (ax (nrotation m')
           == ax (nrotation m) + ((List.last pts (x0, y0)).2 - y0) * 0.01)%Q
        ∧ az (nrotation m') = az (nrotation m)
        ∧ unrotated m' = unrotated m.
Proof.
  intros Hpv Hm.
  destruct (drag_active pts (onTouchStart x0 y0 s) pv m)
    as (m' & H1 & H2 & H3 & H4 & H5 & _); try done.
  exists m'. done.
Qed.

Lemma drag_turns_by_net_displacement_witness :
  ∃ s m m',
    generateMany [2%nat] initScene = Some s
    ∧ pivot s = Some 5%nat ∧ store s !! 5%nat = Some m
    ∧ store (drag [(10, 3); (-4, 8); (30, 20)]%Q (onTouchStart 1 2 s)) !! 5%nat = Some m'
    ∧ (ay (nrotation m') == 0.29)%Q ∧ (ax (nrotation m') == 0.18)%Q.
Proof.
  destruct (generateMany [2%nat] initScene) as [s|] eqn:Hrun;
    [|vm_compute in Hrun; discriminate].
  assert (pivot s = Some 5%nat) as Hpv
    by (vm_compute in Hrun; injection Hrun as <-; reflexivity).
  destruct (store s !! 5%nat) as [m|] eqn:Hm;
    [|vm_compute in Hrun; injection Hrun as <-; vm_compute in Hm; discriminate].
  assert (ay (nrotation m) = 0%Q ∧ ax (nrotation m) = 0%Q) as [Hy Hx].
  { vm_compute in Hrun. injection Hrun as <-. vm_compute in Hm.
    injection Hm as <-. split; reflexivity. }
  destruct (drag_turns_by_net_displacement s 5%nat m 1 2
              [(10, 3); (-4, 8); (30, 20)]%Q Hpv Hm)
    as (m' & Hm' & Hay & Hax & _).
  exists s, m, m'. split; [reflexivity|]. split; [exact Hpv|]. split; [exact Hm|].
  split; [exact Hm'|]. rewrite Hay, Hax, Hy, Hx. split; reflexivity.
Defined.

(** *** The bounding box of a block and of a piece *)

Section BoxAlgebra.

Open Scope Q_scope.

Lemma veq_sym a b : veq a b → veq b a.
Proof. unfold veq. intros (H1 & H2 & H3). repeat split; by symmetry. Qed.

Lemma beq_refl b : beq b b.
Proof. destruct b as [[lo hi]|]; cbn; [|done]. split; apply veq_refl. Qed.

Lemma beq_sym a b : beq a b → beq b a.
Proof.
  destruct a as [[lo hi]|], b as [[lo' hi']|]; cbn; try done.
  intros [H1 H2]. split; by apply veq_sym.
Qed.

Lemma beq_trans a b c : beq a b → beq b c → beq a c.
Proof.
  destruct a as [[l1 h1]|], b as [[l2 h2]|], c as [[l3 h3]|]; cbn; try done.
  intros [H1 H2] [H3 H4]. split; eapply veq_trans; eassumption.
Qed.

Lemma vmin_proper a a' b b' : veq a a' → veq b b' → veq (vmin a b) (vmin a' b').
Proof.
  unfold veq, vmin. cbn [vx vy vz]. intros (H1 & H2 & H3) (H4 & H5 & H6).
  repeat split; by apply Q.min_compat.
Qed.

Lemma vmax_proper a a' b b' : veq a a' → veq b b' → veq (vmax a b) (vmax a' b').
Proof.
  unfold veq, vmax. cbn [vx vy vz]. intros (H1 & H2 & H3) (H4 & H5 & H6).
  repeat split; by apply Q.max_compat.
Qed.

Lemma union_proper a a' b b' :
  beq a a' → beq b b' → beq (Box3.union a b) (Box3.union a' b').
Proof.
  destruct a as [[l1 h1]|], a' as [[l2 h2]|], b as [[l3 h3]|], b' as [[l4 h4]|];
    cbn; try done.
  intros [H1 H2] [H3 H4]. split; [by apply vmin_proper|by apply vmax_proper].
Qed.

Lemma union_assoc a b c :
  beq (Box3.union (Box3.union a b) c) (Box3.union a (Box3.union b c)).
Proof.
  destruct a as [[l1 h1]|], b as [[l2 h2]|], c as [[l3 h3]|]; cbn;
    try (split; apply veq_refl); try done.
  unfold veq, vmin, vmax. cbn [vx vy vz].
  repeat split; (symmetry; apply Q.min_assoc) || (symmetry; apply Q.max_assoc).
Qed.

Lemma union_comm a b : beq (Box3.union a b) (Box3.union b a).
Proof.
  destruct a as [[l1 h1]|], b as [[l2 h2]|]; cbn; try (split; apply veq_refl); try done.
  unfold veq, vmin, vmax. cbn [vx vy vz].
  repeat split; apply Q.min_comm || apply Q.max_comm.
Qed.

Lemma union_idem a : beq (Box3.union a a) a.
Proof.
  destruct a as [[l1 h1]|]; cbn; [|done].
  unfold veq, vmin, vmax. cbn [vx vy vz].
  repeat split; apply Q.min_id || apply Q.max_id.
Qed.

Lemma union_None_r a : Box3.union a None = a.
Proof. by destruct a as [[l h]|]. Qed.

Lemma bshift_proper v v' b b' : veq v v' → beq b b' → beq (bshift v b) (bshift v' b').
Proof.
  destruct b as [[l h]|], b' as [[l' h']|]; cbn; try done.
  unfold veq, vadd. cbn [vx vy vz].
  intros (V1 & V2 & V3) [(H1 & H2 & H3) (H4 & H5 & H6)].
  rewrite V1, V2, V3, H1, H2, H3, H4, H5, H6. repeat split; reflexivity.
Qed.

Lemma holds_union_l b c d : holds b d → holds (Box3.union b c) d.
Proof.
  unfold holds. intros H.
  eapply beq_trans; [apply union_assoc|].
  eapply beq_trans; [apply union_proper; [apply beq_refl|apply union_comm]|].
  eapply beq_trans; [apply beq_sym, union_assoc|].
  apply union_proper; [exact H|apply beq_refl].
Qed.

Lemma holds_union_r b c : holds (Box3.union b c) c.
Proof.
  unfold holds. eapply beq_trans; [apply union_assoc|].
  apply union_proper; [apply beq_refl|apply union_idem].
Qed.

Lemma holds_proper b b' c c' : beq b b' → beq c c' → holds b c → holds b' c'.
Proof.
  unfold holds. intros Hb Hc H.
  eapply beq_trans; [apply union_proper; apply beq_sym; eassumption|].
  eapply beq_trans; eassumption.
Qed.

Lemma holds_trans b c d : holds b c → holds c d → holds b d.
Proof.
  unfold holds. intros H1 H2.
  eapply beq_trans; [apply union_proper; [apply beq_sym, H1|apply beq_refl]|].
  eapply beq_trans; [apply union_assoc|].
  eapply beq_trans; [apply union_proper; [apply beq_refl|exact H2]|].
  exact H1.
Qed.

Lemma holds_shift v b c : holds b c → holds (bshift v b) (bshift v c).
Proof.
  unfold holds. intros H.
  eapply beq_trans; [apply (union_shift b (bshift v b) c (bshift v c) v);
                     apply beq_refl|].
  apply bshift_proper; [apply veq_refl|exact H].
Qed.

(** Expanding a box by an object is the union with the box of the object. *)
Lemma expandByObject_union o :
  ∀ (w : Vector3 → Vector3) bx,
    beq (Box3.expandByObject w o bx) (Box3.union bx (Box3.expandByObject w o None)).
Proof.
  induction o as [m|pos rot ch IH] using Object3D_nested_ind; intros w bx.
  - cbn [Box3.expandByObject]. apply union_proper; [apply beq_refl|].
    destruct (Box3.applyMatrix4 _ _) as [[l h]|]; apply beq_refl.
  - cbn [Box3.expandByObject].
    set (w' := λ p, w (localMatrix pos rot p)).
    assert (∀ acc, beq (fold_left (λ b c, Box3.expandByObject w' c b) ch acc)
                       (Box3.union acc
                          (fold_left (λ b c, Box3.expandByObject w' c b) ch None)))
      as Hfold; [|apply Hfold].
    induction IH as [|c ch Hc _ IHch]; intros acc; cbn [fold_left].
    + rewrite union_None_r. apply beq_refl.
    + eapply beq_trans; [apply IHch|].
      eapply beq_trans; [apply union_proper; [apply Hc|apply beq_refl]|].
      eapply beq_trans; [apply union_assoc|].
      apply union_proper; [apply beq_refl|]. apply beq_sym, IHch.
Qed.

Lemma expandChildren_union ch (w : Vector3 → Vector3) acc :
  beq (fold_left (λ b c, Box3.expandByObject w c b) ch acc)
      (Box3.union acc (fold_left (λ b c, Box3.expandByObject w c b) ch None)).
Proof.
  revert acc. induction ch as [|c ch IH]; intros acc; cbn [fold_left].
  - rewrite union_None_r. apply beq_refl.
  - eapply beq_trans; [apply IH|].
    eapply beq_trans; [apply union_proper; [apply expandByObject_union|apply beq_refl]|].
    eapply beq_trans; [apply union_assoc|].
    apply union_proper; [apply beq_refl|]. apply beq_sym, IH.
Qed.

Lemma expandChildren_shift ch (w w' : Vector3 → Vector3) b b' v :
  (∀ p, veq (w' p) (vadd (w p) v)) → beq b' (bshift v b) →
  beq (fold_left (λ b c, Box3.expandByObject w' c b) ch b')
      (bshift v (fold_left (λ b c, Box3.expandByObject w c b) ch b)).
Proof.
  intros Hw. revert b b'. induction ch as [|c ch IH]; intros b b' Hb; cbn [fold_left].
  - exact Hb.
  - apply IH. by apply (expandByObject_shift c w w').
Qed.

End BoxAlgebra.

Lemma bars_box material :
  beq (fold_left (λ b c, Box3.expandByObject (groupWorld vec0) c b)
                 (addEdgeBars material []) None)
      barFrame.
Proof. vm_compute. repeat split; reflexivity. Qed.

Lemma panel_inside_frame material f :
  holds barFrame (Box3.expandByObject (groupWorld vec0) (sidePanel material f) None).
Proof.
  unfold sidePanel. repeat case_bool_decide; vm_compute; repeat split; reflexivity.
Qed.

Lemma block_box faces material :
  beq (fold_left (λ b c, Box3.expandByObject (groupWorld vec0) c b)
                 (children (createBlock faces material)) None)
      barFrame.
Proof.
  rewrite createBlock_children, fold_left_app.
  eapply beq_trans; [apply expandChildren_union|].
  eapply beq_trans; [apply union_proper; [apply bars_box|apply beq_refl]|].
  induction (List.filter is_side_name faces) as [|f fs IH]; [apply beq_refl|].
  cbn [map fold_left].
  eapply beq_trans; [apply union_proper; [apply beq_refl|apply expandChildren_union]|].
  eapply beq_trans; [apply beq_sym, union_assoc|].
  eapply beq_trans; [apply union_proper; [|apply beq_refl]|exact IH].
  apply panel_inside_frame.
Qed.

(** *** Where the piece ends up *)

Section PieceBox.

Open Scope Q_scope.

Lemma applyEuler_0 p : applyEuler euler0 p = p.
Proof. reflexivity. Qed.

Lemma fold_expand_proper ch (w : Vector3 → Vector3) acc acc' :
  beq acc acc' →
  beq (fold_left (λ b c, Box3.expandByObject w c b) ch acc)
      (fold_left (λ b c, Box3.expandByObject w c b) ch acc').
Proof.
  intros H.
  eapply beq_trans; [apply expandChildren_union|].
  eapply beq_trans; [|apply beq_sym, expandChildren_union].
  apply union_proper; [exact H|apply beq_refl].
Qed.

(** The box of a block placed at [pos]. *)
Lemma block_box_at faces material pos :
  beq (Box3.expandByObject (groupWorld vec0) (set_gposition (createBlock faces material) pos) None)
      (bshift pos barFrame).
Proof.
  change (Box3.expandByObject (groupWorld vec0) (set_gposition (createBlock faces material) pos) None)
    with (fold_left (λ b c, Box3.expandByObject (λ p, (groupWorld vec0) (localMatrix pos euler0 p)) c b)
                    (children (createBlock faces material)) None).
  eapply beq_trans.
  - apply (expandChildren_shift _ (groupWorld vec0) (λ p, (groupWorld vec0) (localMatrix pos euler0 p)) None None pos);
      [|exact I].
    intros p. unfold groupWorld, localMatrix. rewrite !applyEuler_0.
    unfold veq, vadd, vec0. cbn [vx vy vz]. repeat split; ring.
  - apply bshift_proper; [apply veq_refl|apply block_box].
Qed.

(** The box of a partition is the box of the same partition at the origin,
    moved to its cube. *)
Lemma wall_box_at (mesh mesh' : Mesh) v :
  geometry mesh' = geometry mesh → rotation mesh' = rotation mesh →
  veq (position mesh') (vadd (position mesh) v) →
  beq (Box3.expandByObject (groupWorld vec0) (MeshObj mesh') None)
      (bshift v (Box3.expandByObject (groupWorld vec0) (MeshObj mesh) None)).
Proof.
  intros Hg Hr Hp. cbn [Box3.expandByObject Box3.union]. rewrite Hg, Hr.
  apply (applyMatrix4_shift
           (λ p, (groupWorld vec0) (localMatrix (position mesh) (rotation mesh) p))
           (λ p, (groupWorld vec0) (localMatrix (position mesh') (rotation mesh) p))).
  intros p. unfold groupWorld, localMatrix. rewrite !applyEuler_0.
  destruct Hp as (H1 & H2 & H3). unfold veq, vadd, vec0 in *. cbn [vx vy vz] in *.
  rewrite H1, H2, H3. repeat split; ring.
Qed.

Lemma wall_inside_cube colorMat a :
  halfExact3 a →
  holds (bshift (blockPosition a) barFrame)
        (Box3.expandByObject (groupWorld vec0) (wallX colorMat a) None)
  ∧ holds (bshift (blockPosition a) barFrame)
          (Box3.expandByObject (groupWorld vec0) (wallZ colorMat a) None).
Proof.
  destruct a as [[x z] h]. intros [Hx Hz]. cbn [fst snd] in Hx, Hz.
  pose proof (jsAddHalf_exact x Hx) as Ex.
  pose proof (jsAddHalf_exact z Hz) as Ez.
  split.
  - eapply holds_proper; [apply beq_refl| |apply holds_shift].
    + apply beq_sym.
      apply (wall_box_at
               (mkMesh (PlaneGeometry 1.0 1.0) (mkMaterial (color colorMat) DoubleSide)
                       (mkVec 0.5 0 0) (mkEuler 0 1 0) true true)); [done..|].
      unfold veq, vadd, blockPosition. cbn [position vx vy vz].
      split; [lra|]. split; ring.
    + vm_compute. repeat split; reflexivity.
  - eapply holds_proper; [apply beq_refl| |apply holds_shift].
    + apply beq_sym.
      apply (wall_box_at
               (mkMesh (PlaneGeometry 1.0 1.0) (mkMaterial (color colorMat) DoubleSide)
                       (mkVec 0 0 0.5) (mkEuler 0 0 0) true true)); [done..|].
      unfold veq, vadd, blockPosition. cbn [position vx vy vz].
      split; [ring|]. split; [ring|lra].
    + vm_compute. repeat split; reflexivity.
Qed.

(** The partitions add nothing to a box that holds the frames of the cubes. *)
Lemma walls_absorbed L colorMat M bx :
  Forall halfExact3 M →
  (∀ a, a ∈ M → holds bx (bshift (blockPosition a) barFrame)) →
  beq (fold_left (λ b c, Box3.expandByObject (groupWorld vec0) c b)
                 (flat_map (wallsOf L colorMat) M) bx) bx.
Proof.
  induction 1 as [|a M Hha HhM IH]; intros Hall; [apply beq_refl|].
  cbn [flat_map]. rewrite fold_left_app.
  assert (beq (fold_left (λ b c, Box3.expandByObject (groupWorld vec0) c b) (wallsOf L colorMat a) bx)
              bx) as Ha.
  { assert (holds bx (bshift (blockPosition a) barFrame)) as Hbx by (apply Hall; left).
    destruct (wall_inside_cube colorMat a Hha) as [HX HZ].
    pose proof (holds_trans _ _ _ Hbx HX) as HbX.
    pose proof (holds_trans _ _ _ Hbx HZ) as HbZ.
    unfold wallsOf. repeat case_bool_decide; cbn [app fold_left]; try apply beq_refl.
    - eapply beq_trans; [apply expandByObject_union|].
      eapply beq_trans; [apply union_proper; [apply expandByObject_union|apply beq_refl]|].
      eapply beq_trans; [apply union_proper; [exact HbX|apply beq_refl]|]. exact HbZ.
    - eapply beq_trans; [apply expandByObject_union|]. exact HbX.
    - eapply beq_trans; [apply expandByObject_union|]. exact HbZ. }
  eapply beq_trans; [apply fold_expand_proper, Ha|].
  apply IH. intros b Hb. apply Hall. by right.
Qed.

Lemma Qmin_inject a b r :
  Qmin (inject_Z a + r) (inject_Z b + r) == inject_Z (Z.min a b) + r.
Proof.
  rewrite Q.plus_min_distr_r. apply Qplus_inj_r.
  destruct (Z.min_spec a b) as [[Hlt ->]|[Hle ->]].
  - apply Q.min_l. rewrite <- Zle_Qle. lia.
  - apply Q.min_r. rewrite <- Zle_Qle. lia.
Qed.

Lemma Qmax_inject a b r :
  Qmax (inject_Z a + r) (inject_Z b + r) == inject_Z (Z.max a b) + r.
Proof.
  rewrite Q.plus_max_distr_r. apply Qplus_inj_r.
  destruct (Z.max_spec a b) as [[Hlt ->]|[Hle ->]].
  - apply Q.max_r. rewrite <- Zle_Qle. lia.
  - apply Q.max_l. rewrite <- Zle_Qle. lia.
Qed.

Lemma qmin_shape a b r s t u :
  s == inject_Z a + r → t == inject_Z b + r → u == inject_Z (Z.min a b) + r →
  Qmin s t == u.
Proof.
  intros Hs Ht Hu. eapply Qeq_trans; [|apply Qeq_sym; exact Hu].
  eapply Qeq_trans; [|apply Qmin_inject]. by apply Q.min_compat.
Qed.

Lemma qmax_shape a b r s t u :
  s == inject_Z a + r → t == inject_Z b + r → u == inject_Z (Z.max a b) + r →
  Qmax s t == u.
Proof.
  intros Hs Ht Hu. eapply Qeq_trans; [|apply Qeq_sym; exact Hu].
  eapply Qeq_trans; [|apply Qmax_inject]. by apply Q.max_compat.
Qed.

Lemma frame_grows e a :
  beq (Box3.union (frameAround e) (bshift (blockPosition a) barFrame))
      (frameAround (grow e a)).
Proof.
  destruct a as [[x z] h], e as [x1 x2 h1 h2 z1 z2].
  unfold frameAround, grow, barFrame, bshift, blockPosition, Box3.union, beq, veq,
    vmin, vmax, vadd. cbn [vx vy vz xlo xhi hlo hhi zlo zhi fst snd].
  repeat split;
    match goal with
    | |- Qmin (inject_Z ?a - _) (_ + inject_Z ?b) == _ =>
        apply (qmin_shape a b (- frameHalf)); ring
    | |- Qmax (inject_Z ?a + _) (_ + inject_Z ?b) == _ =>
        apply (qmax_shape a b frameHalf); ring
    end.
Qed.

Lemma frame_at a : beq (bshift (blockPosition a) barFrame) (frameAround (extentAt a)).
Proof.
  destruct a as [[x z] h].
  unfold frameAround, extentAt, barFrame, bshift, blockPosition, beq, veq, vadd.
  cbn [vx vy vz xlo xhi hlo hhi zlo zhi fst snd]. repeat split; ring.
Qed.

(** The blocks of the cubes [cs], added to a box. *)
Lemma blocks_box (F : Cube → list string) material cs : ∀ acc acc',
  beq acc acc' →
  beq (fold_left (λ b c, Box3.expandByObject (groupWorld vec0) c b)
                 (map (λ c, set_gposition (createBlock (F c) material)
                                          (blockPosition (norm c))) cs) acc)
      (fold_left (λ b a, Box3.union b (bshift (blockPosition a) barFrame))
                 (map norm cs) acc').
Proof.
  induction cs as [|c cs IH]; intros acc acc' Hacc; cbn [map fold_left]; [exact Hacc|].
  apply IH.
  eapply beq_trans; [apply expandByObject_union|].
  apply union_proper; [exact Hacc|apply block_box_at].
Qed.

Lemma frames_fold L : ∀ bx e,
  beq bx (frameAround e) →
  beq (fold_left (λ b a, Box3.union b (bshift (blockPosition a) barFrame)) L bx)
      (frameAround (fold_left grow L e)).
Proof.
  induction L as [|a L IH]; intros bx e Hb; cbn [fold_left]; [exact Hb|].
  apply IH. eapply beq_trans; [|apply frame_grows].
  apply union_proper; [exact Hb|apply beq_refl].
Qed.

Lemma frames_hold L : ∀ bx a,
  a ∈ L ∨ holds bx (bshift (blockPosition a) barFrame) →
  holds (fold_left (λ b a, Box3.union b (bshift (blockPosition a) barFrame)) L bx)
        (bshift (blockPosition a) barFrame).
Proof.
  induction L as [|c L IH]; intros bx a H; cbn [fold_left].
  - destruct H as [H|H]; [by apply elem_of_nil in H|exact H].
  - apply IH. destruct H as [H|H].
    + apply elem_of_cons in H as [->|H]; [right; apply holds_union_r|by left].
    + right. by apply holds_union_l.
Qed.

Lemma getCenter_proper b b' : beq b b' → veq (Box3.getCenter b) (Box3.getCenter b').
Proof.
  destruct b as [[l h]|], b' as [[l' h']|]; cbn; try done.
  unfold veq, vscale, vadd. cbn [vx vy vz].
  intros [(H1 & H2 & H3) (H4 & H5 & H6)].
  rewrite H1, H2, H3, H4, H5, H6. repeat split; reflexivity.
Qed.

(** The box of a piece with at least one cube. *)
Lemma piece_box c0 cs :
  Forall halfExactCube (c0 :: cs) →
  beq (Box3.setFromObject (Group vec0 euler0 (pieceChildren (c0 :: cs))))
      (frameAround (extent (norm c0) (map norm cs))).
Proof.
  intros Hhalf. apply Forall_halfExact3 in Hhalf. revert Hhalf.
  set (data := c0 :: cs). intros Hhalf. set (material := mkMaterial 0xe74c3c FrontSide).
  change (beq (fold_left (λ b c, Box3.expandByObject (groupWorld vec0) c b) (pieceChildren data) None)
              (frameAround (extent (norm c0) (map norm cs)))).
  rewrite pieceChildren_eq, fold_left_app. fold material.
  rewrite (walls_eq material data).
  set (hull := fold_left (λ b a, Box3.union b (bshift (blockPosition a) barFrame))
                         (map norm data) None).
  assert (beq (fold_left (λ b c, Box3.expandByObject (groupWorld vec0) c b)
                 (map (λ c, set_gposition
                              (createBlock (exposedFacesFor
                                              (mkCube (cx c) (cz c) (Some (hdef c)))
                                              (occupancy data)) material)
                              (blockPosition (norm c))) data) None) hull) as Hblocks.
  { apply (blocks_box (λ c, exposedFacesFor (mkCube (cx c) (cz c) (Some (hdef c)))
                                            (occupancy data)) material data None None).
    exact I. }
  eapply beq_trans; [apply fold_expand_proper, Hblocks|].
  eapply beq_trans.
  { apply walls_absorbed; [exact Hhalf|]. intros a Ha. apply frames_hold. by left. }
  unfold hull, data. cbn [map fold_left Box3.union].
  apply frames_fold, frame_at.
Qed.

Lemma extent_meaning L : ∀ e,
  let e' := fold_left grow L e in
  ((xlo e' ≤ xlo e ∧ xhi e ≤ xhi e' ∧ hlo e' ≤ hlo e ∧ hhi e ≤ hhi e'
    ∧ zlo e' ≤ zlo e ∧ zhi e ≤ zhi e')
   ∧ (∀ a, a ∈ L → xlo e' ≤ a.1.1 ≤ xhi e' ∧ hlo e' ≤ a.2 ≤ hhi e'
                   ∧ zlo e' ≤ a.1.2 ≤ zhi e')
   ∧ (xlo e' = xlo e ∨ ∃ a, a ∈ L ∧ xlo e' = a.1.1)
   ∧ (xhi e' = xhi e ∨ ∃ a, a ∈ L ∧ xhi e' = a.1.1)
   ∧ (hlo e' = hlo e ∨ ∃ a, a ∈ L ∧ hlo e' = a.2)
   ∧ (hhi e' = hhi e ∨ ∃ a, a ∈ L ∧ hhi e' = a.2)
   ∧ (zlo e' = zlo e ∨ ∃ a, a ∈ L ∧ zlo e' = a.1.2)
   ∧ (zhi e' = zhi e ∨ ∃ a, a ∈ L ∧ zhi e' = a.1.2))%Z.
Proof.
  induction L as [|b L IH]; intros e; cbn zeta; cbn [fold_left].
  - split; [lia|]. split; [intros a Ha; by apply elem_of_nil in Ha|]. tauto.
  - specialize (IH (grow e b)). cbn zeta in IH.
    destruct IH as (Hm & Hall & G1 & G2 & G3 & G4 & G5 & G6).
    set (e' := fold_left grow L (grow e b)) in *.
    cbn [grow xlo xhi hlo hhi zlo zhi] in Hm, G1, G2, G3, G4, G5, G6.
    split; [lia|]. split.
    + intros a Ha. apply elem_of_cons in Ha as [->|Ha]; [lia|by apply Hall].
    + repeat split.
      * destruct G1 as [G|(a & Ha & G)]; [|right; exists a; split; [by right|done]].
        destruct (Z.min_spec (xlo e) b.1.1) as [[? Hmin]|[? Hmin]]; rewrite Hmin in G;
          [by left|right; exists b; split; [left|done]].
      * destruct G2 as [G|(a & Ha & G)]; [|right; exists a; split; [by right|done]].
        destruct (Z.max_spec (xhi e) b.1.1) as [[? Hmax]|[? Hmax]]; rewrite Hmax in G;
          [right; exists b; split; [left|done]|by left].
      * destruct G3 as [G|(a & Ha & G)]; [|right; exists a; split; [by right|done]].
        destruct (Z.min_spec (hlo e) b.2) as [[? Hmin]|[? Hmin]]; rewrite Hmin in G;
          [by left|right; exists b; split; [left|done]].
      * destruct G4 as [G|(a & Ha & G)]; [|right; exists a; split; [by right|done]].
        destruct (Z.max_spec (hhi e) b.2) as [[? Hmax]|[? Hmax]]; rewrite Hmax in G;
          [right; exists b; split; [left|done]|by left].
      * destruct G5 as [G|(a & Ha & G)]; [|right; exists a; split; [by right|done]].
        destruct (Z.min_spec (zlo e) b.1.2) as [[? Hmin]|[? Hmin]]; rewrite Hmin in G;
          [by left|right; exists b; split; [left|done]].
      * destruct G6 as [G|(a & Ha & G)]; [|right; exists a; split; [by right|done]].
        destruct (Z.max_spec (zhi e) b.1.2) as [[? Hmax]|[? Hmax]]; rewrite Hmax in G;
          [right; exists b; split; [left|done]|by left].
Qed.

End PieceBox.

(** X14.  The centring translation of a piece with at least one cube is
    minus the midpoint of the least and greatest coordinates of its cubes,
    along x, the height and z: the frames of the bars reach equally far on
    both sides, and the partitions and the face panels lie within them.
    This is for coordinates below 2^23 in absolute value, where the sums
    that three.js forms on the way are doubles and the exact arithmetic
    used here is the arithmetic of the code.  For an empty list the piece
    is not moved. *)
Theorem piece_centred_on_its_extent (c0 : Cube) (cs : list Cube) :
  let data := c0 :: cs in
  let e := extent (norm c0) (map norm cs) in
  Forall boxExact data →
  veq (centeredPosition (pieceChildren data))
      (mkVec (- (inject_Z (xlo e) + inject_Z (xhi e)) / 2)
             (- (inject_Z (hlo e) + inject_Z (hhi e)) / 2)
             (- (inject_Z (zlo e) + inject_Z (zhi e)) / 2))%Q
  ∧ (∀ c, c ∈ data → xlo e ≤ cx c ≤ xhi e ∧ hlo e ≤ default 0 (ch c) ≤ hhi e
                     ∧ zlo e ≤ cz c ≤ zhi e)
  ∧ (∃ c, c ∈ data ∧ cx c = xlo e) ∧ (∃ c, c ∈ data ∧ cx c = xhi e)
  ∧ (∃ c, c ∈ data ∧ default 0 (ch c) = hlo e)
  ∧ (∃ c, c ∈ data ∧ default 0 (ch c) = hhi e)
  ∧ (∃ c, c ∈ data ∧ cz c = zlo e) ∧ (∃ c, c ∈ data ∧ cz c = zhi e)
  ∧ veq (centeredPosition (pieceChildren [])) vec0.
Proof.
  intros data e Hsmall.
  pose proof (piece_box c0 cs (Forall_boxExact_halfExact _ Hsmall)) as Hbox.
  fold data e in Hbox.
  destruct (extent_meaning (map norm cs) (extentAt (norm c0)))
    as (Hm & Hall & G1 & G2 & G3 & G4 & G5 & G6).
  fold (extent (norm c0) (map norm cs)) in Hm, Hall, G1, G2, G3, G4, G5, G6.
  fold e in Hm, Hall, G1, G2, G3, G4, G5, G6.
  cbn [extentAt norm xlo xhi hlo hhi zlo zhi fst snd] in Hm, G1, G2, G3, G4, G5, G6.
  assert (∀ (v : Z) (f : Z * Z * Z → Z),
            v = f (norm c0) ∨ (∃ a, a ∈ map norm cs ∧ v = f a) →
            ∃ c, c ∈ data ∧ f (norm c) = v) as Hatt.
  { intros v f [->|(a & Ha & ->)].
    - exists c0. split; [left|done].
    - apply list_elem_of_fmap in Ha as (c & -> & Hc). exists c. split; [by right|done]. }
  split.
  { unfold centeredPosition. apply getCenter_proper in Hbox.
    destruct Hbox as (H1 & H2 & H3).
    unfold veq, vsub, vec0 in *. cbn [vx vy vz Box3.getCenter frameAround vscale vadd] in *.
    rewrite H1, H2, H3. repeat split; field. }
  split.
  { intros c Hc. apply elem_of_cons in Hc as [->|Hc]; [unfold hdef in *; lia|].
    apply (Hall (norm c)), list_elem_of_fmap. by exists c. }
  split; [apply (Hatt _ (λ a, a.1.1)), G1|].
  split; [apply (Hatt _ (λ a, a.1.1)), G2|].
  split; [apply (Hatt _ (λ a, a.2)), G3|].
  split; [apply (Hatt _ (λ a, a.2)), G4|].
  split; [apply (Hatt _ (λ a, a.1.2)), G5|].
  split; [apply (Hatt _ (λ a, a.1.2)), G6|].
  vm_compute. repeat split; reflexivity.
Qed.

(** The last piece of the catalog, with one cube at height 1: the piece is
    moved by (-0.5, -0.5, -0.5). *)
Lemma piece_centred_on_its_extent_witness :
  Forall boxExact [cube3 0 0 0; cube3 1 0 0; cube3 1 1 0; cube3 0 0 1]
  ∧ veq (centeredPosition
           (pieceChildren [cube3 0 0 0; cube3 1 0 0; cube3 1 1 0; cube3 0 0 1]))
        (mkVec (-0.5) (-0.5) (-0.5))%Q.
Proof.
  assert (Forall boxExact [cube3 0 0 0; cube3 1 0 0; cube3 1 1 0; cube3 0 0 1])
    as Hsmall by bounded_cubes.
  split; [exact Hsmall|].
  destruct (piece_centred_on_its_extent (cube3 0 0 0)
              [cube3 1 0 0; cube3 1 1 0; cube3 0 0 1] Hsmall) as [Hc _].
  eapply veq_trans; [exact Hc|]. vm_compute. repeat split; reflexivity.
Defined.

(** *** The order of the cubes, and generating while paused *)

Lemma occupancy_Permutation data data' :
  data ≡ₚ data' → occupancy data = occupancy data'.
Proof.
  intros Hp. apply set_eq. intros k. rewrite !elem_of_occupancy.
  split; intros (c & Hc & ->); exists c; split; try done.
  - by rewrite <- Hp.
  - by rewrite Hp.
Qed.

Lemma wallsOf_Permutation L L' colorMat a :
  L ≡ₚ L' → wallsOf L colorMat a = wallsOf L' colorMat a.
Proof.
  intros Hp. unfold wallsOf.
  rewrite (bool_decide_ext (nextX a ∈ L) (nextX a ∈ L')) by by rewrite Hp.
  by rewrite (bool_decide_ext (nextZ a ∈ L) (nextZ a ∈ L')) by by rewrite Hp.
Qed.

(** X15.  The order in which a definition lists its cubes does not matter:
    two lists with the same entries in another order give the same
    occupancy index, the same exposed faces for every cube, and the same
    blocks and partitions up to their order among the children of the
    piece. *)
Theorem cube_order_is_irrelevant (data data' : list Cube) :
  data ≡ₚ data' →
  occupancy data = occupancy data'
  ∧ (∀ c, facesOf data c = facesOf data' c)
  ∧ walls data (mkMaterial 0xe74c3c FrontSide)
    ≡ₚ walls data' (mkMaterial 0xe74c3c FrontSide)
  ∧ pieceChildren data ≡ₚ pieceChildren data'.
Proof.
  intros Hp. pose proof (occupancy_Permutation data data' Hp) as Hocc.
  assert (map norm data ≡ₚ map norm data') as HpL by by apply fmap_Permutation.
  assert (walls data (mkMaterial 0xe74c3c FrontSide)
          ≡ₚ walls data' (mkMaterial 0xe74c3c FrontSide)) as Hw.
  { rewrite !walls_eq.
    rewrite (flat_map_ext (wallsOf (map norm data) (mkMaterial 0xe74c3c FrontSide))
                          (wallsOf (map norm data') (mkMaterial 0xe74c3c FrontSide)))
      by (intros a; by apply wallsOf_Permutation).
    by apply Permutation_flat_map. }
  split; [exact Hocc|]. split; [intros c; unfold facesOf; by rewrite Hocc|].
  split; [exact Hw|].
  rewrite !pieceChildren_eq, <- Hocc. apply Permutation_app; [|exact Hw].
  by apply Permutation_map.
Qed.

Lemma cube_order_is_irrelevant_witness :
  [cube3 0 0 0; cube3 1 0 0; cube3 1 1 0] ≡ₚ [cube3 1 1 0; cube3 0 0 0; cube3 1 0 0]
  ∧ pieceChildren [cube3 0 0 0; cube3 1 0 0; cube3 1 1 0]
    ≡ₚ pieceChildren [cube3 1 1 0; cube3 0 0 0; cube3 1 0 0].
Proof.
  assert ([cube3 0 0 0; cube3 1 0 0; cube3 1 1 0]
          ≡ₚ [cube3 1 1 0; cube3 0 0 0; cube3 1 0 0]) as Hp.
  { change ([cube3 0 0 0; cube3 1 0 0] ++ [cube3 1 1 0]
            ≡ₚ [cube3 1 1 0] ++ [cube3 0 0 0; cube3 1 0 0]).
    apply Permutation_app_comm. }
  split; [exact Hp|].
  exact (proj2 (proj2 (proj2 (cube_order_is_irrelevant _ _ Hp)))).
Defined.

(** X16.  [generateNewPiece] leaves the flags of the input handlers as they
    are: a piece generated while the rotation is paused, or while a drag is
    under way, is not turned by any number of frames. *)
Theorem generated_piece_waits_while_paused (data : list Cube) (s : State) (n : nat) :
  rotationPaused s = true ∨ isDragging s = true →
  rotationPaused (generateWith data s) = rotationPaused s
  ∧ isDragging (generateWith data s) = isDragging s
  ∧ resetVertical (generateWith data s) = resetVertical s
  ∧ frames n (generateWith data s) = generateWith data s
  ∧ pivotRotation (frames n (generateWith data s)) = Some (mkAngles 0 0 0).
Proof.
  intros H.
  assert (rotationPaused (generateWith data s) = rotationPaused s
          ∧ isDragging (generateWith data s) = isDragging s
          ∧ resetVertical (generateWith data s) = resetVertical s) as (H1 & H2 & H3)
    by by rewrite generateWith_unfold.
  assert (frames n (generateWith data s) = generateWith data s) as Hf.
  { apply frames_idle. rewrite H1, H2. tauto. }
  rewrite Hf. repeat split; try done. apply pivotRotation_generateWith.
Qed.

Lemma generated_piece_waits_while_paused_witness :
  rotationPaused (onPauseClick initScene) = true
  ∧ pivotRotation (frames 9 (generateWith [cube3 0 0 0] (onPauseClick initScene)))
    = Some (mkAngles 0 0 0).
Proof.
  assert (rotationPaused (onPauseClick initScene) = true) as H by reflexivity.
  split; [exact H|].
  exact (proj2 (proj2 (proj2 (proj2
    (generated_piece_waits_while_paused [cube3 0 0 0] (onPauseClick initScene) 9
       (or_introl H)))))).
Defined.
